(** * nrepl-mcp-server: the bencode codec and the nREPL client

    A shallow embedding of [src/bencode.ts] (the codec) and of the class
    [NReplClient] of [src/nrepl-client.ts] (the protocol client), with the
    properties of the repository's specification stated over it.

    Conventions of the embedding.
    - A JavaScript string is the list of its UTF-16 code units
      ([jsstring := list Z], each unit in [0, 65536)); [str.length] is the
      length of that list and [str.charCodeAt(i)] its [i]-th element.
    - A JavaScript [number] that the codec handles is an integer or [NaN]
      (what [parseInt] can return); integers are taken in [Z], which agrees
      with the runtime on the integers of magnitude at most [2^53]: these it
      holds exactly and prints in plain decimal. Beyond that the runtime
      rounds (prints the rounded value, in exponent form from [1e21], and
      reads a long enough run of digits as [Infinity]), which [Z] does not
      show: what is stated about the value of a number is stated for that
      range. The lengths and positions of strings are always in it. [-0]
      and [0] are not told apart.
    - A JavaScript object used as a dictionary is the list of its own
      properties, with unique keys: in enumeration order where [encode]
      is given one, in the order of the assignments where the decoder
      builds one. Its prototype is not part of the model. An assignment
      [obj[key] = value] creates or overwrites the property, except under
      the key [__proto__], which stores no property ([propertySet]); a
      list or a dictionary assigned there becomes the prototype, and what
      the object then inherits is not represented. Fields are read as own
      properties ([getField]), which is what the runtime does for an
      object whose prototype is [Object.prototype] and a name that
      [Object.prototype] does not define: what is stated about the fields
      of decoded values is stated for dictionaries without a [__proto__]
      key ([plain]).
    - The chunk that [handleData] is given is the text that
      [data.toString()] makes of the bytes received.
    - [while] loops and the mutual recursion of the decoder take a fuel
      argument; [decode_fuel_enough] shows that the fuel given by the entry
      points is never exhausted. *)

From Stdlib Require Import ZArith Lia String Ascii.
From stdpp Require Import base option list sorting gmap.

Local Open Scope Z_scope.

(** ** Strings and numbers of the runtime *)

Abbreviation jsstring := (list Z).

Inductive number :=
| Num (z : Z)
| NaN.

Global Instance number_eq_dec : EqDecision number.
Proof. solve_decision. Defined.

(** Code units of the characters the codec looks at. *)
Definition ch_colon : Z := 58.
Definition ch_minus : Z := 45.
Definition ch_plus : Z := 43.
Definition ch_0 : Z := 48.
Definition ch_9 : Z := 57.
Definition ch_d : Z := 100.
Definition ch_e : Z := 101.
Definition ch_i : Z := 105.
Definition ch_l : Z := 108.

(** A literal of the source, as code units. *)
Fixpoint str (s : string) : jsstring :=
  match s with
  | EmptyString => []
  | String c s' => Z.of_nat (nat_of_ascii c) :: str s'
  end.

(** [data.slice(a, b)] for [0 <= a], [0 <= b]: empty when [b <= a]. *)
Definition slice (data : jsstring) (a b : nat) : jsstring :=
  take (b - a) (drop a data).

(** [data.indexOf(c, from)]: [None] stands for [-1]. *)
Fixpoint indexOf_from (rest : jsstring) (c : Z) (i : nat) : option nat :=
  match rest with
  | [] => None
  | x :: rest' => if x =? c then Some i else indexOf_from rest' c (S i)
  end.

Definition indexOf (data : jsstring) (c : Z) (from : nat) : option nat :=
  indexOf_from (drop from data) c from.

(** *** Template literal of a number: [`${n}`] *)

Fixpoint digitsOf (fuel : nat) (n : Z) (acc : jsstring) : jsstring :=
  match fuel with
  | O => acc
  | S fuel' =>
      let acc' := (ch_0 + n mod 10) :: acc in
      if n <? 10 then acc' else digitsOf fuel' (n / 10) acc'
  end.

Definition natToString (n : Z) : jsstring :=
  digitsOf (S (Z.to_nat (Z.log2 n))) n [].

Definition intToString (z : Z) : jsstring :=
  if z <? 0 then ch_minus :: natToString (- z) else natToString z.

Definition numberToString (n : number) : jsstring :=
  match n with
  | Num z => intToString z
  | NaN => str "NaN"
  end.

(** *** [parseInt(s, 10)] *)

(** WhiteSpace and LineTerminator code units of ECMAScript. *)
Definition isWhiteSpace (c : Z) : bool :=
  (c =? 9) || (c =? 10) || (c =? 11) || (c =? 12) || (c =? 13) || (c =? 32)
  || (c =? 160) || (c =? 5760) || ((8192 <=? c) && (c <=? 8202))
  || (c =? 8232) || (c =? 8233) || (c =? 8239) || (c =? 8287)
  || (c =? 12288) || (c =? 65279).

Definition isDigit (c : Z) : bool := (ch_0 <=? c) && (c <=? ch_9).

Fixpoint dropWhile (p : Z -> bool) (s : jsstring) : jsstring :=
  match s with
  | [] => []
  | c :: s' => if p c then dropWhile p s' else s
  end.

Fixpoint takeWhile (p : Z -> bool) (s : jsstring) : jsstring :=
  match s with
  | [] => []
  | c :: s' => if p c then c :: takeWhile p s' else []
  end.

Definition digitsValue (ds : jsstring) : Z :=
  fold_left (fun acc d => acc * 10 + (d - ch_0)) ds 0.

Definition parseInt (s : jsstring) : number :=
  let s1 := dropWhile isWhiteSpace s in
  let '(sign, s2) :=
    match s1 with
    | c :: t =>
        if c =? ch_minus then (-1, t)
        else if c =? ch_plus then (1, t)
        else (1, s1)
    | [] => (1, s1)
    end in
  match takeWhile isDigit s2 with
  | [] => NaN
  | ds => Num (sign * digitsValue ds)
  end.

(** ** The codec: [src/bencode.ts] *)

Unset Elimination Schemes.
Inductive BencodeValue :=
| BString (s : jsstring)
| BNumber (n : number)
| BList (items : list BencodeValue)
| BObject (entries : list (jsstring * BencodeValue)).
Set Elimination Schemes.

(** Induction over the nesting of lists and dictionaries. *)
Fixpoint BencodeValue_nested_ind (P : BencodeValue -> Prop)
    (Hstring : forall s, P (BString s))
    (Hnumber : forall n, P (BNumber n))
    (Hlist : forall items, Forall P items -> P (BList items))
    (Hobject : forall entries, Forall (fun kv => P kv.2) entries -> P (BObject entries))
    (value : BencodeValue) {struct value} : P value :=
  match value with
  | BString s => Hstring s
  | BNumber n => Hnumber n
  | BList items =>
      Hlist items
        ((fix go (l : list BencodeValue) : Forall P l :=
            match l with
            | [] => @List.Forall_nil _ P
            | v :: l' =>
                @List.Forall_cons _ P v l'
                  (BencodeValue_nested_ind P Hstring Hnumber Hlist Hobject v) (go l')
            end) items)
  | BObject entries =>
      Hobject entries
        ((fix go (l : list (jsstring * BencodeValue)) : Forall (fun kv => P kv.2) l :=
            match l with
            | [] => @List.Forall_nil _ _
            | kv :: l' =>
                @List.Forall_cons _ (fun kv => P kv.2) kv l'
                  (BencodeValue_nested_ind P Hstring Hnumber Hlist Hobject kv.2) (go l')
            end) entries)
  end.

(** Bytes that [getUTF8ByteLength] counts for one code unit; [charCodeAt]
    returns a code unit, so the last branch is only taken by a value that
    is not a code unit. *)
Definition charByteLength (charCode : Z) : Z :=
  if charCode <? 128 then 1
  else if charCode <? 2048 then 2
  else if charCode <? 65536 then 3
  else 4.

Definition getUTF8ByteLength (s : jsstring) : Z :=
  fold_left (fun byteLength charCode => byteLength + charByteLength charCode) s 0.

(** *** [Array.prototype.sort] with a comparator

    The sort of the runtime is stable; on a consistent comparator its
    result is the one of any stable sort, here insertion from the right. *)
Section Sort.
Context {A : Type} (cmp : A -> A -> Z).

Fixpoint sort_insert (x : A) (l : list A) : list A :=
  match l with
  | [] => [x]
  | y :: l' => if cmp x y <=? 0 then x :: l else y :: sort_insert x l'
  end.

Fixpoint array_sort (l : list A) : list A :=
  match l with
  | [] => []
  | x :: l' => sort_insert x (array_sort l')
  end.
End Sort.

Section Encoder.
(** [String.prototype.localeCompare] is a builtin of the runtime, not code
    of the repository: the encoder is parametrised by it. *)
Variable localeCompare : jsstring -> jsstring -> Z.

Definition entryCompare {B} (a b : jsstring * B) : Z :=
  localeCompare a.1 b.1.

Definition encodeString (value : jsstring) : jsstring :=
  numberToString (Num (getUTF8ByteLength value)) ++ [ch_colon] ++ value.

(** [encode]; the values of a dictionary are encoded before its entries
    are sorted, which the comparator (it reads keys only) cannot observe:
    see [encode_BObject] for the order of the source. *)
Fixpoint encode (value : BencodeValue) : jsstring :=
  match value with
  | BString s => encodeString s
  | BNumber n => [ch_i] ++ numberToString n ++ [ch_e]
  | BList items => [ch_l] ++ concat (map encode items) ++ [ch_e]
  | BObject entries =>
      [ch_d]
      ++ concat (map (fun kv : jsstring * jsstring => encodeString kv.1 ++ kv.2)
                   (array_sort entryCompare
                      (map (fun kv : jsstring * BencodeValue => (kv.1, encode kv.2)) entries)))
      ++ [ch_e]
  end.
End Encoder.

(** *** The decoder *)

(** The messages of the [Error]s the decoder throws. *)
Inductive DecodeError :=
| InvalidBencodeData (pos : nat)   (* Invalid bencode data at position pos *)
| UnterminatedInteger              (* Unterminated integer *)
| InvalidStringFormat              (* Invalid string format *)
| StringLengthExceedsData          (* String length exceeds data *)
| UnterminatedList                 (* Unterminated list *)
| UnterminatedDictionary           (* Unterminated dictionary *)
| DictionaryKeyMustBeString.       (* Dictionary key must be a string *)

(** What a call does: return, throw, or (in the model only) use up its fuel. *)
Inductive outcome (A : Type) :=
| Return (a : A)
| Throw (e : DecodeError)
| OutOfFuel.
Arguments Return {A} a.
Arguments Throw {A} e.
Arguments OutOfFuel {A}.

Global Instance outcome_bind : MBind outcome := fun A B k m =>
  match m with
  | Return a => k a
  | Throw e => Throw e
  | OutOfFuel => OutOfFuel
  end.

(** [data[pos] === c]; [data[pos]] is [undefined] past the end. *)
Definition charIs (data : jsstring) (pos : nat) (c : Z) : bool :=
  match data !! pos with
  | Some x => x =? c
  | None => false
  end.

(** [char >= '0' && char <= '9'] for [char = data[pos]]. *)
Definition charIsDigit (data : jsstring) (pos : nat) : bool :=
  match data !! pos with
  | Some x => isDigit x
  | None => false
  end.

(** [a < b] on numbers; false when [b] is [NaN]. *)
Definition lessThan (a : Z) (b : number) : bool :=
  match b with
  | Num z => a <? z
  | NaN => false
  end.

(** An own property defined or overwritten, as the property [id] of
    [{ ...message, id }] is: an existing key keeps its place. *)
Fixpoint objectSet {B} (entries : list (jsstring * B)) (key : jsstring) (value : B)
  : list (jsstring * B) :=
  match entries with
  | [] => [(key, value)]
  | kv :: entries' =>
      if decide (kv.1 = key) then (key, value) :: entries'
      else kv :: objectSet entries' key value
  end.

(** [obj[key]]: [None] stands for [undefined]. *)
Fixpoint objectGet {B} (entries : list (jsstring * B)) (key : jsstring) : option B :=
  match entries with
  | [] => None
  | kv :: entries' => if decide (kv.1 = key) then Some kv.2 else objectGet entries' key
  end.

(** [result[key] = value] on an object made by [{}]: the property is
    created or overwritten, except under the key [__proto__], where the
    assignment reaches the setter of [Object.prototype] and stores no
    property (a list or a dictionary becomes the prototype of [result], a
    text or a number is ignored). *)
Definition propertySet {B} (entries : list (jsstring * B)) (key : jsstring) (value : B)
  : list (jsstring * B) :=
  if decide (key = str "__proto__") then entries else objectSet entries key value.

(** The loop of [decodeInteger]: the position of the terminating [e]. *)
Fixpoint decodeInteger_loop (fuel : nat) (data : jsstring) (pos : nat) : outcome nat :=
  match fuel with
  | O => OutOfFuel
  | S fuel' =>
      if charIs data pos ch_e then Return pos
      else if (length data <=? pos)%nat then Throw UnterminatedInteger
      else decodeInteger_loop fuel' data (S pos)
  end.

Definition decodeInteger (fuel : nat) (data : jsstring) (pos : nat)
  : outcome (number * nat) :=
  let pos := S pos in
  let start := pos in
  pos ← decodeInteger_loop fuel data pos;
  let num := parseInt (slice data start pos) in
  Return (num, S pos).

(** The loop of [decodeString]: the value of [end] when it exits. *)
Fixpoint decodeString_loop (fuel : nat) (data : jsstring) (byteLength : number)
    (end_ : nat) (currentBytes : Z) : outcome nat :=
  match fuel with
  | O => OutOfFuel
  | S fuel' =>
      if lessThan currentBytes byteLength && (end_ <? length data)%nat then
        let char := slice data end_ (S end_) in
        decodeString_loop fuel' data byteLength (S end_)
          (currentBytes + getUTF8ByteLength char)
      else Return end_
  end.

Definition decodeString (fuel : nat) (data : jsstring) (pos : nat)
  : outcome (jsstring * nat) :=
  match indexOf data ch_colon pos with
  | None => Throw InvalidStringFormat
  | Some colonPos =>
      let byteLength := parseInt (slice data pos colonPos) in
      let start := S colonPos in
      end_ ← decodeString_loop fuel data byteLength start 0;
      if (length data <? end_)%nat then Throw StringLengthExceedsData
      else Return (slice data start end_, end_)
  end.

(** [decode], [decodeList] and [decodeDictionary]; the two loops carry
    [result] and return it with the position after the closing [e]. *)
Fixpoint decode (fuel : nat) (data : jsstring) (pos : nat)
  : outcome (BencodeValue * nat) :=
  match fuel with
  | O => OutOfFuel
  | S fuel' =>
      if charIs data pos ch_i then
        '(num, pos') ← decodeInteger fuel' data pos; Return (BNumber num, pos')
      else if charIs data pos ch_l then
        '(items, pos') ← decodeList_loop fuel' data (S pos) [];
        Return (BList items, pos')
      else if charIs data pos ch_d then
        '(entries, pos') ← decodeDictionary_loop fuel' data (S pos) [];
        Return (BObject entries, pos')
      else if charIsDigit data pos then
        '(s, pos') ← decodeString fuel' data pos; Return (BString s, pos')
      else Throw (InvalidBencodeData pos)
  end
with decodeList_loop (fuel : nat) (data : jsstring) (pos : nat)
    (result : list BencodeValue) : outcome (list BencodeValue * nat) :=
  match fuel with
  | O => OutOfFuel
  | S fuel' =>
      if charIs data pos ch_e then Return (result, S pos)
      else if (length data <=? pos)%nat then Throw UnterminatedList
      else
        '(value, pos') ← decode fuel' data pos;
        decodeList_loop fuel' data pos' (result ++ [value])
  end
with decodeDictionary_loop (fuel : nat) (data : jsstring) (pos : nat)
    (result : list (jsstring * BencodeValue))
  : outcome (list (jsstring * BencodeValue) * nat) :=
  match fuel with
  | O => OutOfFuel
  | S fuel' =>
      if charIs data pos ch_e then Return (result, S pos)
      else if (length data <=? pos)%nat then Throw UnterminatedDictionary
      else
        '(key, pos') ← decode fuel' data pos;
        match key with
        | BString key =>
            '(value, pos'') ← decode fuel' data pos';
            decodeDictionary_loop fuel' data pos'' (propertySet result key value)
        | _ => Throw DictionaryKeyMustBeString
        end
  end.

(** [decodeList] and [decodeDictionary] as [decode] enters them: skip the
    opening character, start from an empty [result]. *)
Definition decodeList (fuel : nat) (data : jsstring) (pos : nat)
  : outcome (list BencodeValue * nat) :=
  decodeList_loop fuel data (S pos) [].

Definition decodeDictionary (fuel : nat) (data : jsstring) (pos : nat)
  : outcome (list (jsstring * BencodeValue) * nat) :=
  decodeDictionary_loop fuel data (S pos) [].

(** Fuel for one run over [data]; see [decode_fuel_enough]. *)
Definition decodeFuel (data : jsstring) : nat := (2 * length data + 1)%nat.

(** [new BencodeDecoder(data)], one [decode()], then [getProcessedLength()]:
    the value and [pos - startPos], where [startPos] is [0]. *)
Definition BencodeDecoder_run (data : jsstring) : outcome (BencodeValue * nat) :=
  decode (decodeFuel data) data 0.

(** The static [BencodeDecoder.decode(data)]. *)
Definition BencodeDecoder_decode (data : jsstring) : outcome BencodeValue :=
  '(value, _) ← BencodeDecoder_run data; Return value.

Section Examples.
Variable localeCompare : jsstring -> jsstring -> Z.

Example decode_hello :
  BencodeDecoder_run (str "5:hello") = Return (BString (str "hello"), 7%nat).
Proof. vm_compute. reflexivity. Qed.

Example encode_hello :
  encode localeCompare (BString (str "hello")) = str "5:hello".
Proof. vm_compute. reflexivity. Qed.

Example decode_nested :
  BencodeDecoder_run (str "d2:idi-42e2:opl5:clone0:ee")
  = Return (BObject [(str "id", BNumber (Num (-42)));
                     (str "op", BList [BString (str "clone"); BString []])],
            26%nat).
Proof. vm_compute. reflexivity. Qed.
End Examples.

(** ** Numbers: printing and parsing *)

Lemma isDigit_spec c : isDigit c = true <-> 48 <= c <= 57.
Proof. unfold isDigit, ch_0, ch_9. rewrite andb_true_iff. lia. Qed.

Lemma isDigit_not_space c : isDigit c = true -> isWhiteSpace c = false.
Proof.
  rewrite isDigit_spec. intros Hc. unfold isWhiteSpace.
  repeat (apply orb_false_intro); lia.
Qed.

Lemma digitsOf_digits fuel : forall n acc,
  0 <= n -> Forall (fun c => isDigit c = true) acc ->
  Forall (fun c => isDigit c = true) (digitsOf fuel n acc).
Proof.
  induction fuel as [|fuel IH]; intros n acc Hn Hacc; simpl; [done|].
  assert (Hd : isDigit (ch_0 + n mod 10) = true).
  { apply isDigit_spec. unfold ch_0. pose proof (Z.mod_pos_bound n 10). lia. }
  destruct (n <? 10); [by constructor|].
  apply IH; [apply Z.div_pos; lia | by constructor].
Qed.

Lemma digitsOf_cons fuel : forall n acc,
  exists c ds, digitsOf (S fuel) n acc = c :: ds.
Proof.
  induction fuel as [|fuel IH]; intros n acc.
  - simpl. destruct (n <? 10); eauto.
  - change (digitsOf (S (S fuel)) n acc)
      with (if n <? 10 then (ch_0 + n mod 10) :: acc
            else digitsOf (S fuel) (n / 10) ((ch_0 + n mod 10) :: acc)).
    destruct (n <? 10); eauto.
Qed.

Lemma digitsOf_value fuel : forall n acc,
  0 <= n < 2 ^ Z.of_nat fuel ->
  fold_left (fun a d => a * 10 + (d - ch_0)) (digitsOf fuel n acc) 0
  = fold_left (fun a d => a * 10 + (d - ch_0)) acc n.
Proof.
  induction fuel as [|fuel IH]; intros n acc Hn.
  - simpl in *. f_equal. lia.
  - cbn [digitsOf]. destruct (Z.ltb_spec n 10) as [Hlt|Hge].
    + cbn [fold_left]. f_equal. rewrite Z.mod_small by lia. unfold ch_0. lia.
    + rewrite IH.
      * cbn [fold_left]. f_equal. pose proof (Z.div_mod n 10). unfold ch_0. lia.
      * rewrite Nat2Z.inj_succ, Z.pow_succ_r in Hn by lia.
        split; [apply Z.div_pos; lia|].
        apply Z.div_lt_upper_bound; lia.
Qed.

Lemma natToString_digits n :
  0 <= n -> Forall (fun c => isDigit c = true) (natToString n).
Proof. intros Hn. by apply digitsOf_digits. Qed.

Lemma natToString_cons n : exists c ds, natToString n = c :: ds.
Proof. apply digitsOf_cons. Qed.

Lemma natToString_value n : 0 <= n -> digitsValue (natToString n) = n.
Proof.
  intros Hn. unfold digitsValue, natToString. rewrite digitsOf_value; [done|].
  split; [done|]. rewrite Nat2Z.inj_succ, Z2Nat.id by apply Z.log2_nonneg.
  destruct (Z.eq_dec n 0) as [->|Hne]; [done|].
  apply Z.log2_spec. lia.
Qed.

Lemma takeWhile_all p s : Forall (fun c => p c = true) s -> takeWhile p s = s.
Proof. induction 1 as [|c s Hc _ IH]; simpl; [done|]. by rewrite Hc, IH. Qed.

Lemma parseInt_natToString n : 0 <= n -> parseInt (natToString n) = Num n.
Proof.
  intros Hn. pose proof (natToString_digits n Hn) as Hds.
  pose proof (natToString_value n Hn) as Hval.
  destruct (natToString_cons n) as (c & ds & Heq). rewrite Heq in *.
  assert (Hc : isDigit c = true) by (by inversion Hds).
  unfold parseInt. cbn [dropWhile]. rewrite (isDigit_not_space c Hc).
  apply isDigit_spec in Hc.
  destruct (Z.eqb_spec c ch_minus) as [->|_]; [unfold ch_minus in Hc; lia|].
  destruct (Z.eqb_spec c ch_plus) as [->|_]; [unfold ch_plus in Hc; lia|].
  rewrite (takeWhile_all _ _ Hds), Hval. f_equal. lia.
Qed.

Lemma parseInt_intToString z : parseInt (intToString z) = Num z.
Proof.
  unfold intToString. destruct (Z.ltb_spec z 0) as [Hneg|Hpos];
    [|by apply parseInt_natToString].
  assert (Hn : 0 <= - z) by lia.
  pose proof (natToString_digits _ Hn) as Hds.
  pose proof (natToString_value _ Hn) as Hval.
  destruct (natToString_cons (- z)) as (c & ds & Heq). rewrite Heq in *.
  unfold parseInt. cbn [dropWhile]. change (isWhiteSpace ch_minus) with false.
  cbn iota. rewrite Z.eqb_refl.
  rewrite (takeWhile_all _ _ Hds), Hval. f_equal. lia.
Qed.

(** The printed form of an integer has no [e] in it. *)
Lemma intToString_no_e z : Forall (fun c => c <> ch_e) (intToString z).
Proof.
  assert (Hd : forall n, 0 <= n -> Forall (fun c => c <> ch_e) (natToString n)).
  { intros n Hn. eapply Forall_impl; [by apply natToString_digits|].
    intros c Hc ->. by vm_compute in Hc. }
  unfold intToString. destruct (Z.ltb_spec z 0).
  - constructor; [by vm_compute | apply Hd; lia].
  - by apply Hd.
Qed.

(** ** Reading [data] at the end of a known prefix *)

Lemma charIs_app (l1 l2 : jsstring) c :
  charIs (l1 ++ l2) (length l1) c
  = match l2 with x :: _ => x =? c | [] => false end.
Proof.
  unfold charIs. rewrite lookup_app_r by lia.
  replace (length l1 - length l1)%nat with 0%nat by lia. by destruct l2.
Qed.

Lemma charIsDigit_app (l1 l2 : jsstring) :
  charIsDigit (l1 ++ l2) (length l1)
  = match l2 with x :: _ => isDigit x | [] => false end.
Proof.
  unfold charIsDigit. rewrite lookup_app_r by lia.
  replace (length l1 - length l1)%nat with 0%nat by lia. by destruct l2.
Qed.

Lemma at_end_app (l1 l2 : jsstring) :
  (length (l1 ++ l2) <=? length l1)%nat
  = match l2 with [] => true | _ => false end.
Proof.
  rewrite length_app. destruct l2; simpl.
  - apply Nat.leb_le. lia.
  - apply Nat.leb_gt. lia.
Qed.

Lemma charIs_at (data l1 : jsstring) c tl :
  data = l1 ++ c :: tl -> forall x, charIs data (length l1) x = (c =? x).
Proof. intros -> x. apply charIs_app. Qed.

Lemma charIsDigit_at (data l1 : jsstring) c tl :
  data = l1 ++ c :: tl -> charIsDigit data (length l1) = isDigit c.
Proof. intros ->. apply charIsDigit_app. Qed.

Lemma at_end_at (data l1 : jsstring) c tl :
  data = l1 ++ c :: tl -> (length data <=? length l1)%nat = false.
Proof. intros ->. apply at_end_app. Qed.

Lemma slice_app (l1 l2 : jsstring) n :
  slice (l1 ++ l2) (length l1) (length l1 + n) = take n l2.
Proof.
  unfold slice. rewrite drop_app_length. f_equal. lia.
Qed.

Lemma slice_app_all (l1 s l2 : jsstring) :
  slice (l1 ++ s ++ l2) (length l1) (length l1 + length s) = s.
Proof. rewrite slice_app. by rewrite take_app_length. Qed.

Lemma indexOf_from_skip (s rest : jsstring) c i :
  Forall (fun x => x <> c) s ->
  indexOf_from (s ++ c :: rest) c i = Some (i + length s)%nat.
Proof.
  intros Hs. revert i. induction Hs as [|x s Hx _ IH]; intros i; simpl.
  - rewrite Z.eqb_refl. f_equal. lia.
  - destruct (Z.eqb_spec x c); [done|]. rewrite IH. f_equal. lia.
Qed.

Lemma indexOf_app (l1 s rest : jsstring) c :
  Forall (fun x => x <> c) s ->
  indexOf (l1 ++ s ++ c :: rest) c (length l1) = Some (length l1 + length s)%nat.
Proof.
  intros Hs. unfold indexOf. rewrite drop_app_length. by apply indexOf_from_skip.
Qed.

Lemma getUTF8ByteLength_from (s : jsstring) a :
  fold_left (fun byteLength charCode => byteLength + charByteLength charCode) s a
  = a + getUTF8ByteLength s.
Proof.
  unfold getUTF8ByteLength. revert a.
  induction s as [|c s IH]; intros a; cbn [fold_left].
  - lia.
  - rewrite (IH (a + charByteLength c)), (IH (0 + charByteLength c)). lia.
Qed.

Lemma getUTF8ByteLength_cons c (s : jsstring) :
  getUTF8ByteLength (c :: s) = charByteLength c + getUTF8ByteLength s.
Proof. unfold getUTF8ByteLength at 1. simpl. apply getUTF8ByteLength_from. Qed.

Lemma getUTF8ByteLength_app (s1 s2 : jsstring) :
  getUTF8ByteLength (s1 ++ s2) = getUTF8ByteLength s1 + getUTF8ByteLength s2.
Proof.
  induction s1 as [|c s1 IH]; [done|].
  simpl. rewrite !getUTF8ByteLength_cons, IH. lia.
Qed.

Lemma charByteLength_pos c : 1 <= charByteLength c.
Proof. unfold charByteLength. repeat case_match; lia. Qed.

Lemma getUTF8ByteLength_nonneg (s : jsstring) : 0 <= getUTF8ByteLength s.
Proof.
  induction s as [|c s IH]; [done|].
  rewrite getUTF8ByteLength_cons. pose proof (charByteLength_pos c). lia.
Qed.

(** ** The loops of the decoder on well-terminated input *)

Lemma decodeInteger_loop_found (s : jsstring) : forall fuel l1 rest,
  Forall (fun c => c <> ch_e) s ->
  (length s < fuel)%nat ->
  decodeInteger_loop fuel (l1 ++ s ++ ch_e :: rest) (length l1)
  = Return (length l1 + length s)%nat.
Proof.
  induction s as [|c s IH]; intros fuel l1 rest Hs Hfuel;
    (destruct fuel as [|fuel]; [simpl in Hfuel; lia|]); cbn [decodeInteger_loop].
  - rewrite charIs_app. cbn [app]. rewrite Z.eqb_refl. f_equal. simpl. lia.
  - inversion Hs as [|? ? Hc Hs']; subst.
    rewrite charIs_app. cbn [app]. destruct (Z.eqb_spec c ch_e); [done|].
    rewrite at_end_app. cbn [app].
    replace (S (length l1)) with (length (l1 ++ [c])) by (rewrite length_app; simpl; lia).
    replace (l1 ++ c :: s ++ ch_e :: rest) with ((l1 ++ [c]) ++ s ++ ch_e :: rest)
      by (by rewrite <- app_assoc).
    rewrite IH; [|done|simpl in Hfuel; lia].
    f_equal. rewrite length_app. simpl. lia.
Qed.

Lemma decodeInteger_loop_missing (s : jsstring) : forall fuel l1,
  Forall (fun c => c <> ch_e) s ->
  (length s < fuel)%nat ->
  decodeInteger_loop fuel (l1 ++ s) (length l1) = Throw UnterminatedInteger.
Proof.
  induction s as [|c s IH]; intros fuel l1 Hs Hfuel;
    (destruct fuel as [|fuel]; [simpl in Hfuel; lia|]); cbn [decodeInteger_loop].
  - rewrite charIs_app, at_end_app. done.
  - inversion Hs as [|? ? Hc Hs']; subst.
    rewrite charIs_app. destruct (Z.eqb_spec c ch_e); [done|].
    rewrite at_end_app.
    replace (S (length l1)) with (length (l1 ++ [c])) by (rewrite length_app; simpl; lia).
    replace (l1 ++ c :: s) with ((l1 ++ [c]) ++ s) by (by rewrite <- app_assoc).
    apply IH; [done|simpl in Hfuel; lia].
Qed.

Lemma decodeInteger_found (s : jsstring) fuel l1 rest :
  Forall (fun c => c <> ch_e) s ->
  (length s < fuel)%nat ->
  decodeInteger fuel (l1 ++ ch_i :: s ++ ch_e :: rest) (length l1)
  = Return (parseInt s, length l1 + length s + 2)%nat.
Proof.
  intros Hs Hfuel. unfold decodeInteger.
  replace (S (length l1)) with (length (l1 ++ [ch_i])) by (rewrite length_app; simpl; lia).
  replace (l1 ++ ch_i :: s ++ ch_e :: rest) with ((l1 ++ [ch_i]) ++ s ++ ch_e :: rest)
    by (by rewrite <- app_assoc).
  rewrite decodeInteger_loop_found by done. cbn [mbind outcome_bind].
  rewrite slice_app_all. f_equal. f_equal. rewrite length_app. simpl. lia.
Qed.

Lemma decodeString_loop_all (s2 : jsstring) :
  forall fuel data l1 s1 rest total end_ currentBytes,
  data = l1 ++ s1 ++ s2 ++ rest ->
  total = getUTF8ByteLength (s1 ++ s2) ->
  end_ = (length l1 + length s1)%nat ->
  currentBytes = getUTF8ByteLength s1 ->
  (length s2 < fuel)%nat ->
  decodeString_loop fuel data (Num total) end_ currentBytes
  = Return (end_ + length s2)%nat.
Proof.
  induction s2 as [|c s2 IH];
    intros fuel data l1 s1 rest total end_ cur Hdata Htotal Hend Hcur Hfuel;
    (destruct fuel as [|fuel]; [simpl in Hfuel; lia|]); cbn [decodeString_loop].
  - rewrite app_nil_r in Htotal. subst total cur. cbn [lessThan].
    rewrite Z.ltb_irrefl. cbn [andb]. f_equal. simpl. lia.
  - rewrite getUTF8ByteLength_app, getUTF8ByteLength_cons in Htotal.
    pose proof (charByteLength_pos c). pose proof (getUTF8ByteLength_nonneg s2).
    cbn [lessThan]. destruct (Z.ltb_spec cur total); [|lia].
    assert (Hlen : length data = (end_ + S (length s2) + length rest)%nat).
    { subst data end_. rewrite !length_app. simpl. lia. }
    destruct (Nat.ltb_spec end_ (length data)); [|lia]. cbn [andb].
    assert (Hchar : slice data end_ (S end_) = [c]).
    { subst data end_.
      replace (l1 ++ s1 ++ (c :: s2) ++ rest) with ((l1 ++ s1) ++ [c] ++ s2 ++ rest)
        by (by rewrite <- app_assoc).
      rewrite <- length_app.
      replace (S (length (l1 ++ s1))) with (length (l1 ++ s1) + length [c])%nat
        by (simpl; lia).
      apply slice_app_all. }
    rewrite Hchar.
    rewrite (IH fuel data l1 (s1 ++ [c]) rest total).
    + f_equal. simpl. lia.
    + subst data. by rewrite <- !app_assoc.
    + rewrite Htotal, !getUTF8ByteLength_app, !getUTF8ByteLength_cons.
      change (getUTF8ByteLength []) with 0. lia.
    + rewrite length_app. simpl. lia.
    + rewrite getUTF8ByteLength_app. lia.
    + simpl in Hfuel. lia.
Qed.

Lemma natToString_no_colon n :
  0 <= n -> Forall (fun c => c <> ch_colon) (natToString n).
Proof.
  intros Hn. eapply Forall_impl; [by apply natToString_digits|].
  intros c Hc ->. by vm_compute in Hc.
Qed.

Lemma encodeString_eq (s : jsstring) :
  encodeString s = natToString (getUTF8ByteLength s) ++ ch_colon :: s.
Proof.
  unfold encodeString, numberToString, intToString.
  pose proof (getUTF8ByteLength_nonneg s).
  by destruct (Z.ltb_spec (getUTF8ByteLength s) 0); [lia|].
Qed.

Lemma decodeString_encoded (s : jsstring) fuel data l1 rest :
  data = l1 ++ encodeString s ++ rest ->
  (length s < fuel)%nat ->
  decodeString fuel data (length l1)
  = Return (s, length l1 + length (encodeString s))%nat.
Proof.
  intros Hdata Hfuel. rewrite encodeString_eq in *.
  set (N := getUTF8ByteLength s) in *.
  assert (HN : 0 <= N) by apply getUTF8ByteLength_nonneg.
  set (ds := natToString N) in *.
  assert (Hdata' : data = l1 ++ ds ++ ch_colon :: s ++ rest).
  { rewrite Hdata. by rewrite <- app_assoc. }
  assert (Hidx : indexOf data ch_colon (length l1) = Some (length l1 + length ds)%nat).
  { rewrite Hdata'. apply indexOf_app. by apply natToString_no_colon. }
  assert (Hpre : slice data (length l1) (length l1 + length ds) = ds).
  { rewrite Hdata'. apply slice_app_all. }
  assert (Hparse : parseInt ds = Num N) by (by apply parseInt_natToString).
  unfold decodeString. rewrite Hidx, Hpre, Hparse.
  rewrite (decodeString_loop_all s _ data (l1 ++ ds ++ [ch_colon]) [] rest N);
    [| by rewrite Hdata', <- !app_assoc | done
     | rewrite !length_app; simpl; lia | done | done ].
  cbn [mbind outcome_bind].
  assert (Hlen : length data = (length l1 + length ds + 1 + length s + length rest)%nat).
  { rewrite Hdata', !length_app. simpl. rewrite length_app. lia. }
  destruct (Nat.ltb_spec (length data) (S (length l1 + length ds) + length s));
    [lia|].
  f_equal. f_equal.
  - replace data with ((l1 ++ ds ++ [ch_colon]) ++ s ++ rest)
      by (by rewrite Hdata', <- !app_assoc).
    replace (S (length l1 + length ds)) with (length (l1 ++ ds ++ [ch_colon]))
      by (rewrite !length_app; simpl; lia).
    apply slice_app_all.
  - rewrite length_app. simpl. lia.
Qed.

(** ** Sorting the entries of a dictionary *)

Section SortFacts.
Context {A : Type} (cmp : A -> A -> Z).

Lemma sort_insert_Permutation x l : sort_insert cmp x l ≡ₚ x :: l.
Proof.
  induction l as [|y l IH]; simpl; [done|].
  destruct (cmp x y <=? 0); [done|]. rewrite IH. apply Permutation_swap.
Qed.

Lemma array_sort_Permutation l : array_sort cmp l ≡ₚ l.
Proof.
  induction l as [|x l IH]; simpl; [done|].
  by rewrite sort_insert_Permutation, IH.
Qed.

Lemma array_sort_length l : length (array_sort cmp l) = length l.
Proof. apply Permutation_length, array_sort_Permutation. Qed.
End SortFacts.

Lemma sort_insert_fmap {A B} (cmpA : A -> A -> Z) (cmpB : B -> B -> Z) (g : A -> B) x l :
  (forall a b, cmpB (g a) (g b) = cmpA a b) ->
  sort_insert cmpB (g x) (map g l) = map g (sort_insert cmpA x l).
Proof.
  intros Hg. induction l as [|y l IH]; simpl; [done|].
  rewrite Hg. destruct (cmpA x y <=? 0); simpl; [done|]. by rewrite IH.
Qed.

Lemma array_sort_fmap {A B} (cmpA : A -> A -> Z) (cmpB : B -> B -> Z) (g : A -> B) l :
  (forall a b, cmpB (g a) (g b) = cmpA a b) ->
  array_sort cmpB (map g l) = map g (array_sort cmpA l).
Proof.
  intros Hg. induction l as [|x l IH]; simpl; [done|].
  rewrite IH. by apply sort_insert_fmap.
Qed.

(** ** The encoder, in the order of the source *)

Section Codec.
Variable localeCompare : jsstring -> jsstring -> Z.

Abbreviation enc := (encode localeCompare).
Abbreviation sortEntries := (array_sort (entryCompare localeCompare)).

Definition encodeEntry (kv : jsstring * BencodeValue) : jsstring :=
  encodeString kv.1 ++ enc kv.2.

(** [Object.entries(value).sort(...)], then [map] and [join]. *)
Lemma encode_BObject entries :
  enc (BObject entries)
  = [ch_d] ++ concat (map encodeEntry (sortEntries entries)) ++ [ch_e].
Proof.
  cbn [encode]. do 2 f_equal.
  rewrite (array_sort_fmap (entryCompare localeCompare) (entryCompare localeCompare)
             (fun kv : jsstring * BencodeValue => (kv.1, enc kv.2))) by done.
  by rewrite map_map.
Qed.

(** What decoding an encoding yields: dictionaries come back with their
    entries in the order in which they were written. *)
Fixpoint canonical (value : BencodeValue) : BencodeValue :=
  match value with
  | BList items => BList (map canonical items)
  | BObject entries =>
      BObject (array_sort (entryCompare localeCompare)
                 (map (fun kv : jsstring * BencodeValue => (kv.1, canonical kv.2))
                    entries))
  | _ => value
  end.

Lemma canonical_BObject entries :
  canonical (BObject entries)
  = BObject (map (fun kv => (kv.1, canonical kv.2)) (sortEntries entries)).
Proof.
  cbn [canonical]. f_equal.
  by apply (array_sort_fmap (entryCompare localeCompare) (entryCompare localeCompare)
              (fun kv : jsstring * BencodeValue => (kv.1, canonical kv.2))).
Qed.

(** The values of the data model: integers of 64 bits, dictionaries with
    unique keys. *)
#[warnings="-register-all"]
Inductive wellFormed : BencodeValue -> Prop :=
| wf_Text s : wellFormed (BString s)
| wf_Integer z : - 2 ^ 63 <= z < 2 ^ 63 -> wellFormed (BNumber (Num z))
| wf_List items : Forall wellFormed items -> wellFormed (BList items)
| wf_Map entries :
    NoDup entries.*1 ->
    Forall (fun kv => wellFormed kv.2) entries ->
    wellFormed (BObject entries).

(** The values on which the model and the runtime agree throughout:
    integers that a number holds exactly, and dictionaries none of whose
    keys is [__proto__], at any depth. *)
#[warnings="-register-all"]
Inductive plain : BencodeValue -> Prop :=
| plain_Text s : plain (BString s)
| plain_Integer z : - 2 ^ 53 <= z <= 2 ^ 53 -> plain (BNumber (Num z))
| plain_List items : Forall plain items -> plain (BList items)
| plain_Map entries :
    NoDup entries.*1 ->
    Forall (fun kv => kv.1 <> str "__proto__") entries ->
    Forall (fun kv => plain kv.2) entries ->
    plain (BObject entries).

(** What decoding the encoding of a value yields: the entries of a
    dictionary are assigned one after the other, in the order in which
    the encoder wrote them. *)
Fixpoint received (value : BencodeValue) : BencodeValue :=
  match value with
  | BList items => BList (map received items)
  | BObject entries =>
      BObject (fold_left (fun result kv => propertySet result kv.1 kv.2)
                 (array_sort (entryCompare localeCompare)
                    (map (fun kv : jsstring * BencodeValue => (kv.1, received kv.2))
                       entries))
                 [])
  | _ => value
  end.

(** [e] is decoded to [res] wherever it stands in [data], with fuel to spare. *)
Definition decodesTo (e : jsstring) (res : BencodeValue) : Prop :=
  forall fuel data l1 rest,
    data = l1 ++ e ++ rest ->
    (2 * length e <= fuel)%nat ->
    decode fuel data (length l1) = Return (res, (length l1 + length e)%nat).

Lemma decode_unfold fuel data pos :
  decode (S fuel) data pos
  = if charIs data pos ch_i then
      '(num, pos') ← decodeInteger fuel data pos; Return (BNumber num, pos')
    else if charIs data pos ch_l then
      '(items, pos') ← decodeList_loop fuel data (S pos) [];
      Return (BList items, pos')
    else if charIs data pos ch_d then
      '(entries, pos') ← decodeDictionary_loop fuel data (S pos) [];
      Return (BObject entries, pos')
    else if charIsDigit data pos then
      '(s, pos') ← decodeString fuel data pos; Return (BString s, pos')
    else Throw (InvalidBencodeData pos).
Proof. reflexivity. Qed.

(** The dispatch of [decode] on the character at [pos]. *)
Lemma decode_dispatch fuel data pos :
  decode (S fuel) data pos
  = if charIs data pos ch_i then
      '(num, pos') ← decodeInteger fuel data pos; Return (BNumber num, pos')
    else if charIs data pos ch_l then
      '(items, pos') ← decodeList fuel data pos; Return (BList items, pos')
    else if charIs data pos ch_d then
      '(entries, pos') ← decodeDictionary fuel data pos;
      Return (BObject entries, pos')
    else if charIsDigit data pos then
      '(s, pos') ← decodeString fuel data pos; Return (BString s, pos')
    else Throw (InvalidBencodeData pos).
Proof. reflexivity. Qed.

Lemma encodeString_head (s : jsstring) :
  exists c tl, encodeString s = c :: tl /\ isDigit c = true.
Proof.
  rewrite encodeString_eq.
  pose proof (natToString_digits _ (getUTF8ByteLength_nonneg s)) as Hds.
  destruct (natToString_cons (getUTF8ByteLength s)) as (c & ds & Heq).
  rewrite Heq in *. exists c, (ds ++ ch_colon :: s). split; [done|].
  by inversion Hds.
Qed.

Lemma encode_head value :
  exists c tl, enc value = c :: tl /\ c <> ch_e.
Proof.
  destruct value as [s|n|items|entries].
  - destruct (encodeString_head s) as (c & tl & Heq & Hc).
    exists c, tl. split; [done|]. intros ->. by vm_compute in Hc.
  - by eexists _, _.
  - by eexists _, _.
  - by eexists _, _.
Qed.

Lemma decodesTo_string s : decodesTo (encodeString s) (BString s).
Proof.
  intros fuel data l1 rest Hdata Hfuel.
  destruct (encodeString_head s) as (c & tl & Heq & Hc).
  assert (Hlen : (length s + 2 <= length (encodeString s))%nat).
  { rewrite encodeString_eq, length_app.
    destruct (natToString_cons (getUTF8ByteLength s)) as (c' & ds & ->).
    simpl. lia. }
  destruct fuel as [|fuel]; [lia|]. rewrite decode_unfold.
  assert (Hd : data = l1 ++ c :: tl ++ rest) by (by rewrite Hdata, Heq).
  apply isDigit_spec in Hc as Hc'.
  rewrite !(charIs_at _ _ _ _ Hd), (charIsDigit_at _ _ _ _ Hd), Hc.
  destruct (Z.eqb_spec c ch_i) as [->|_]; [unfold ch_i in Hc'; lia|].
  destruct (Z.eqb_spec c ch_l) as [->|_]; [unfold ch_l in Hc'; lia|].
  destruct (Z.eqb_spec c ch_d) as [->|_]; [unfold ch_d in Hc'; lia|].
  erewrite decodeString_encoded; [done|done|lia].
Qed.

Lemma decodesTo_integer z :
  decodesTo ([ch_i] ++ intToString z ++ [ch_e]) (BNumber (Num z)).
Proof.
  intros fuel data l1 rest Hdata Hfuel.
  rewrite !length_app in *. simpl in Hfuel.
  destruct fuel as [|fuel]; [lia|]. rewrite decode_unfold.
  assert (Hd : data = l1 ++ ch_i :: intToString z ++ ch_e :: rest).
  { rewrite Hdata. simpl. by rewrite <- app_assoc. }
  rewrite (charIs_at _ _ _ _ Hd), Z.eqb_refl.
  rewrite Hd, decodeInteger_found; [|apply intToString_no_e|lia].
  cbn [mbind outcome_bind]. rewrite parseInt_intToString.
  do 2 f_equal. simpl. lia.
Qed.

Lemma decodeList_loop_encoded {res : BencodeValue -> BencodeValue} items :
  Forall (fun v => decodesTo (enc v) (res v)) items ->
  forall fuel data l1 rest acc,
    data = l1 ++ concat (map enc items) ++ ch_e :: rest ->
    (2 * length (concat (map enc items)) + 1 <= fuel)%nat ->
    decodeList_loop fuel data (length l1) acc
    = Return (acc ++ map res items,
              (length l1 + length (concat (map enc items)) + 1)%nat).
Proof.
  induction 1 as [|v items Hv _ IH]; intros fuel data l1 rest acc Hdata Hfuel;
    (destruct fuel as [|fuel]; [lia|]); cbn [decodeList_loop].
  - simpl in Hdata. rewrite (charIs_at _ _ _ _ Hdata), Z.eqb_refl.
    rewrite app_nil_r. do 2 f_equal. simpl. lia.
  - cbn [map concat] in *. rewrite length_app in *.
    destruct (encode_head v) as (c & tl & Heq & Hc).
    assert (Hd : data = l1 ++ c :: tl ++ concat (map enc items) ++ ch_e :: rest).
    { rewrite Hdata, Heq. simpl. by rewrite <- app_assoc. }
    rewrite (charIs_at _ _ _ _ Hd), (at_end_at _ _ _ _ Hd).
    destruct (Z.eqb_spec c ch_e); [done|].
    rewrite (Hv fuel data l1 (concat (map enc items) ++ ch_e :: rest));
      [|by rewrite Hdata, <- app_assoc|lia].
    cbn [mbind outcome_bind].
    rewrite <- length_app.
    rewrite (IH fuel data (l1 ++ enc v) rest);
      [|by rewrite Hdata, <- !app_assoc|rewrite Heq in *; simpl in *; lia].
    rewrite <- app_assoc. do 2 f_equal. rewrite length_app. lia.
Qed.

Lemma decodeDictionary_loop_encoded {res : BencodeValue -> BencodeValue} entries :
  Forall (fun kv => decodesTo (enc kv.2) (res kv.2)) entries ->
  forall fuel data l1 rest acc,
    data = l1 ++ concat (map encodeEntry entries) ++ ch_e :: rest ->
    (2 * length (concat (map encodeEntry entries)) + 1 <= fuel)%nat ->
    decodeDictionary_loop fuel data (length l1) acc
    = Return (fold_left (fun result kv => propertySet result kv.1 (res kv.2))
                entries acc,
              (length l1 + length (concat (map encodeEntry entries)) + 1)%nat).
Proof.
  induction 1 as [|[k v] entries Hv _ IH]; intros fuel data l1 rest acc Hdata Hfuel;
    (destruct fuel as [|fuel]; [lia|]); cbn [decodeDictionary_loop].
  - simpl in Hdata. rewrite (charIs_at _ _ _ _ Hdata), Z.eqb_refl.
    do 2 f_equal. simpl. lia.
  - assert (Hcat : concat (map encodeEntry ((k, v) :: entries))
                   = encodeString k ++ enc v ++ concat (map encodeEntry entries)).
    { cbn [map concat]. unfold encodeEntry at 1. by rewrite <- app_assoc. }
    rewrite Hcat in *. clear Hcat. cbn [fold_left fst snd] in *.
    rewrite !length_app in Hfuel.
    destruct (encodeString_head k) as (c & tl & Heq & Hc).
    assert (Hd : data = l1 ++ c :: tl ++ enc v
                          ++ concat (map encodeEntry entries) ++ ch_e :: rest).
    { rewrite Hdata, Heq. simpl. by rewrite <- !app_assoc. }
    rewrite (charIs_at _ _ _ _ Hd), (at_end_at _ _ _ _ Hd).
    destruct (Z.eqb_spec c ch_e) as [->|_]; [by vm_compute in Hc|].
    rewrite (decodesTo_string k fuel data l1
               (enc v ++ concat (map encodeEntry entries) ++ ch_e :: rest));
      [|by rewrite Hdata, <- !app_assoc|lia].
    cbn [mbind outcome_bind].
    rewrite <- length_app.
    rewrite (Hv fuel data (l1 ++ encodeString k)
               (concat (map encodeEntry entries) ++ ch_e :: rest));
      [|by rewrite Hdata, <- !app_assoc|lia].
    cbn [mbind outcome_bind].
    rewrite <- length_app.
    rewrite (IH fuel data ((l1 ++ encodeString k) ++ enc v) rest);
      [|by rewrite Hdata, <- !app_assoc|].
    + do 2 f_equal. rewrite !length_app. lia.
    + destruct (encode_head v) as (c' & tl' & Heq' & _).
      rewrite Heq, Heq' in Hfuel. simpl in Hfuel. lia.
Qed.

(** *** Dictionaries as finite maps *)

Lemma objectSet_fresh {B} (entries : list (jsstring * B)) key value :
  key ∉ entries.*1 -> objectSet entries key value = entries ++ [(key, value)].
Proof.
  induction entries as [|[k v] entries IH]; intros Hfresh; simpl; [done|].
  rewrite fmap_cons, not_elem_of_cons in Hfresh. destruct Hfresh as [Hne Hfresh].
  simpl in Hne. destruct (decide (k = key)); [done|]. by rewrite IH.
Qed.

Lemma objectSet_fold {B C} (g : B -> C) (entries : list (jsstring * B)) :
  forall acc : list (jsstring * C),
    NoDup (acc.*1 ++ entries.*1) ->
    fold_left (fun result kv => objectSet result kv.1 (g kv.2)) entries acc
    = acc ++ map (fun kv => (kv.1, g kv.2)) entries.
Proof.
  induction entries as [|[k v] entries IH]; intros acc Hnodup; simpl.
  - by rewrite app_nil_r.
  - rewrite fmap_cons in Hnodup. simpl in Hnodup.
    apply NoDup_app in Hnodup as (Hacc & Hdisj & Hent).
    apply NoDup_cons in Hent as [Hk Hent].
    rewrite objectSet_fresh by (intros Hin; apply (Hdisj k Hin); left).
    rewrite IH.
    + by rewrite <- app_assoc.
    + rewrite fmap_app. simpl. rewrite <- app_assoc. simpl.
      apply NoDup_app. split_and!; [done| |by apply NoDup_cons].
      intros x Hx. rewrite elem_of_cons. intros [->|Hin].
      * apply (Hdisj k Hx). left.
      * apply (Hdisj x Hx). by right.
Qed.

Lemma objectGet_Some {B} (entries : list (jsstring * B)) key value :
  NoDup entries.*1 ->
  objectGet entries key = Some value <-> (key, value) ∈ entries.
Proof.
  induction entries as [|[k v] entries IH]; intros Hnodup; simpl.
  - split; [done|]. by intros ?%elem_of_nil.
  - rewrite fmap_cons in Hnodup. apply NoDup_cons in Hnodup as [Hk Hnodup].
    simpl in Hk. rewrite elem_of_cons. destruct (decide (k = key)) as [->|Hne].
    + split.
      * intros [= ->]. by left.
      * intros [[= ->]|Hin]; [done|].
        exfalso. apply Hk. apply list_elem_of_fmap. by exists (key, value).
    + rewrite IH by done. split; [by right|]. intros [[= -> ->]|Hin]; done.
Qed.

Lemma objectGet_Permutation {B} (e1 e2 : list (jsstring * B)) key :
  NoDup e1.*1 -> e1 ≡ₚ e2 -> objectGet e1 key = objectGet e2 key.
Proof.
  intros Hnodup Hperm. apply option_eq. intros value.
  rewrite !objectGet_Some; [by rewrite Hperm|by rewrite <- Hperm|done].
Qed.

Lemma objectGet_fmap {B C} (g : B -> C) (entries : list (jsstring * B)) key :
  objectGet (map (fun kv => (kv.1, g kv.2)) entries) key
  = g <$> objectGet entries key.
Proof.
  induction entries as [|[k v] entries IH]; simpl; [done|].
  by destruct (decide (k = key)).
Qed.

(** Equality of values: lists position by position, dictionaries key by
    key whatever the order of their entries. *)
#[warnings="-register-all"]
Inductive sameValue : BencodeValue -> BencodeValue -> Prop :=
| same_Text s : sameValue (BString s) (BString s)
| same_Number n : sameValue (BNumber n) (BNumber n)
| same_List l1 l2 : Forall2 sameValue l1 l2 -> sameValue (BList l1) (BList l2)
| same_Map e1 e2 :
    (forall key, option_Forall2 sameValue (objectGet e1 key) (objectGet e2 key)) ->
    sameValue (BObject e1) (BObject e2).

Lemma canonical_sameValue value : wellFormed value -> sameValue (canonical value) value.
Proof.
  induction value as [s|n|items IH|entries IH] using BencodeValue_nested_ind;
    intros Hwf.
  - constructor.
  - constructor.
  - inversion Hwf as [| |? Hitems|]; subst. cbn [canonical]. constructor.
    induction IH as [|v items Hv _ IHitems]; [constructor|].
    apply Forall_cons in Hitems as [Hwv Hitems].
    constructor; [by apply Hv|by apply IHitems; [constructor|]].
  - inversion Hwf as [| | |? Hnodup Hvalues]; subst.
    rewrite canonical_BObject. constructor. intros key.
    rewrite objectGet_fmap.
    rewrite (objectGet_Permutation (sortEntries entries) entries);
      [| by rewrite array_sort_Permutation | apply array_sort_Permutation].
    destruct (objectGet entries key) as [v|] eqn:Hget; constructor.
    apply objectGet_Some in Hget; [|done].
    rewrite Forall_forall in IH, Hvalues.
    apply (IH (key, v) Hget), (Hvalues (key, v) Hget).
Qed.

(** Assignments of entries with distinct keys: all are stored but
    [__proto__]. *)
Lemma propertySet_fold {B C} (g : B -> C) (entries : list (jsstring * B)) :
  forall acc : list (jsstring * C),
    NoDup (acc.*1 ++ entries.*1) ->
    fold_left (fun result kv => propertySet result kv.1 (g kv.2)) entries acc
    = acc ++ map (fun kv => (kv.1, g kv.2))
               (filter (fun kv => kv.1 <> str "__proto__") entries).
Proof.
  induction entries as [|[k v] entries IH]; intros acc Hnodup; cbn [fold_left].
  - by rewrite app_nil_r.
  - rewrite fmap_cons in Hnodup. cbn [fst] in Hnodup.
    apply NoDup_app in Hnodup as (Hacc & Hdisj & Hent).
    apply NoDup_cons in Hent as [Hk Hent].
    rewrite filter_cons. cbn [fst snd]. unfold propertySet at 2.
    destruct (decide (k = str "__proto__")) as [Hproto|Hother].
    + rewrite decide_False by (by intros Hne). apply IH.
      apply NoDup_app. split_and!; [done| |done].
      intros x Hx Hin. apply (Hdisj x Hx). by right.
    + rewrite decide_True by done.
      rewrite objectSet_fresh by (intros Hin; apply (Hdisj k Hin); left).
      rewrite IH.
      * cbn [map fst snd]. by rewrite <- app_assoc.
      * rewrite fmap_app. cbn. rewrite <- app_assoc. cbn.
        apply NoDup_app. split_and!; [done| |by apply NoDup_cons].
        intros x Hx. rewrite elem_of_cons. intros [->|Hin].
        -- apply (Hdisj k Hx). left.
        -- apply (Hdisj x Hx). by right.
Qed.

Lemma fold_left_fmap_entries {B C D} (f : list (jsstring * D) -> jsstring -> C
                                           -> list (jsstring * D))
    (g : B -> C) (entries : list (jsstring * B)) : forall acc,
  fold_left (fun result kv => f result kv.1 kv.2)
    (map (fun kv => (kv.1, g kv.2)) entries) acc
  = fold_left (fun result kv => f result kv.1 (g kv.2)) entries acc.
Proof.
  induction entries as [|kv entries IH]; intros acc; [done|]. cbn. apply IH.
Qed.

Lemma received_BObject entries :
  received (BObject entries)
  = BObject (fold_left (fun result kv => propertySet result kv.1 (received kv.2))
               (sortEntries entries) []).
Proof.
  cbn [received]. f_equal.
  rewrite (array_sort_fmap (entryCompare localeCompare) (entryCompare localeCompare)
             (fun kv : jsstring * BencodeValue => (kv.1, received kv.2))) by done.
  apply (fold_left_fmap_entries (fun result key value => propertySet result key value)).
Qed.

(** A dictionary with distinct keys comes back with its entries in the
    order in which they were written, without the entry [__proto__]. *)
Lemma received_entries entries :
  NoDup entries.*1 ->
  received (BObject entries)
  = BObject (map (fun kv => (kv.1, received kv.2))
               (filter (fun kv => kv.1 <> str "__proto__") (sortEntries entries))).
Proof.
  intros Hnodup. rewrite received_BObject. f_equal.
  apply (propertySet_fold received (sortEntries entries) []).
  cbn. by rewrite array_sort_Permutation.
Qed.

Lemma plain_wellFormed value : plain value -> wellFormed value.
Proof.
  induction value as [s|n|items IH|entries IH] using BencodeValue_nested_ind;
    intros Hplain.
  - constructor.
  - inversion Hplain; subst. constructor. lia.
  - inversion Hplain as [| |? Hitems|]; subst. constructor.
    rewrite Forall_forall in *. auto.
  - inversion Hplain as [| | |? Hnodup Hkeys Hvalues]; subst.
    constructor; [done|]. rewrite Forall_forall in *. auto.
Qed.

Lemma filter_all {A} (P : A -> Prop) `{forall x, Decision (P x)} (l : list A) :
  Forall P l -> filter P l = l.
Proof.
  induction 1 as [|x l Hx _ IH]; [done|].
  by rewrite filter_cons, decide_True, IH.
Qed.

(** On a plain value the decoder gives the value with its dictionaries
    sorted. *)
Lemma received_plain value : plain value -> received value = canonical value.
Proof.
  induction value as [s|n|items IH|entries IH] using BencodeValue_nested_ind;
    intros Hplain; try done.
  - inversion Hplain as [| |? Hitems|]; subst. cbn [received canonical]. f_equal.
    apply map_ext_Forall. rewrite Forall_forall in *. auto.
  - inversion Hplain as [| | |? Hnodup Hkeys Hvalues]; subst.
    rewrite received_entries, canonical_BObject by done. f_equal.
    rewrite filter_all by (by rewrite array_sort_Permutation).
    apply map_ext_Forall. rewrite array_sort_Permutation.
    rewrite Forall_forall in *. intros kv Hkv. f_equal. by apply IH; [|apply Hvalues].
Qed.

Lemma encode_decodesTo value :
  wellFormed value -> decodesTo (enc value) (received value).
Proof.
  induction value as [s|n|items IH|entries IH] using BencodeValue_nested_ind;
    intros Hwf.
  - apply decodesTo_string.
  - inversion Hwf; subst. apply decodesTo_integer.
  - inversion Hwf as [| |? Hitems|]; subst.
    assert (Hdec : Forall (fun v => decodesTo (enc v) (received v)) items).
    { rewrite Forall_forall in *. auto. }
    intros fuel data l1 rest Hdata Hfuel. cbn [encode received] in *.
    rewrite !length_app in Hfuel. simpl in Hfuel.
    destruct fuel as [|fuel]; [lia|]. rewrite decode_unfold.
    assert (Hd : data = l1 ++ ch_l :: concat (map enc items) ++ ch_e :: rest).
    { rewrite Hdata. simpl. by rewrite <- app_assoc. }
    rewrite !(charIs_at _ _ _ _ Hd). change (ch_l =? ch_i) with false.
    rewrite Z.eqb_refl. cbn iota.
    replace (S (length l1)) with (length (l1 ++ [ch_l]))
      by (rewrite length_app; simpl; lia).
    rewrite (decodeList_loop_encoded items Hdec fuel data (l1 ++ [ch_l]) rest []);
      [|by rewrite Hd, <- app_assoc|lia].
    cbn [mbind outcome_bind]. do 2 f_equal.
    rewrite !length_app. simpl. lia.
  - inversion Hwf as [| | |? Hnodup Hvalues]; subst.
    assert (Hdec : Forall (fun kv => decodesTo (enc kv.2) (received kv.2))
                     (sortEntries entries)).
    { rewrite array_sort_Permutation. rewrite Forall_forall in *. auto. }
    intros fuel data l1 rest Hdata Hfuel.
    rewrite encode_BObject in *. rewrite received_BObject.
    rewrite !length_app in Hfuel. simpl in Hfuel.
    destruct fuel as [|fuel]; [lia|]. rewrite decode_unfold.
    assert (Hd : data = l1 ++ ch_d :: concat (map encodeEntry (sortEntries entries))
                          ++ ch_e :: rest).
    { rewrite Hdata. simpl. by rewrite <- app_assoc. }
    rewrite !(charIs_at _ _ _ _ Hd).
    change (ch_d =? ch_i) with false. change (ch_d =? ch_l) with false.
    rewrite Z.eqb_refl. cbn iota.
    replace (S (length l1)) with (length (l1 ++ [ch_d]))
      by (rewrite length_app; simpl; lia).
    rewrite (decodeDictionary_loop_encoded _ Hdec fuel data (l1 ++ [ch_d]) rest []);
      [|by rewrite Hd, <- app_assoc|lia].
    cbn [mbind outcome_bind].
    do 2 f_equal. rewrite !length_app. simpl. lia.
Qed.

(** Decoding the encoding of a value of the data model, followed by
    anything, gives [received] of the value and stops after the encoding. *)
Lemma BencodeDecoder_run_encoded value rest :
  wellFormed value ->
  BencodeDecoder_run (enc value ++ rest)
  = Return (received value, length (enc value)).
Proof.
  intros Hwf. unfold BencodeDecoder_run, decodeFuel.
  apply (encode_decodesTo value Hwf _ _ [] rest); [done|].
  rewrite length_app. lia.
Qed.

Lemma BencodeDecoder_run_plain value rest :
  plain value ->
  BencodeDecoder_run (enc value ++ rest)
  = Return (canonical value, length (enc value)).
Proof.
  intros Hplain. rewrite <- (received_plain value Hplain).
  by apply BencodeDecoder_run_encoded, plain_wellFormed.
Qed.

(** ** Round trip and streaming *)

(** A dictionary of the data model, with a key [__proto__]. *)
Definition protoSample : BencodeValue :=
  BObject [(str "__proto__", BNumber (Num 1)); (str "a", BNumber (Num 2))].

(** C1, on the code. Round trip: for every value of the data model whose
    dictionaries have no key [__proto__] and whose integers are of
    magnitude at most [2^53] (those that a number of the runtime holds
    exactly), decoding its encoding from offset 0 succeeds and returns the
    value again: the very lists and scalars, and dictionaries with the same
    entries (in the order in which the encoder wrote them, which equality
    of dictionaries ignores). A key [__proto__] does not come back:
    [decodeDictionary] assigns [result[key] = value] on a plain object,
    which stores nothing under that key, so the dictionary
    [{"__proto__": 1, "a": 2}] is decoded from its own encoding as
    [{"a": 2}], and so for every dictionary. *)
Theorem decode_encode_roundtrip (value : BencodeValue) :
  (plain value ->
   BencodeDecoder_decode (enc value) = Return (canonical value)
   /\ sameValue (canonical value) value)
  /\ BencodeDecoder_decode (enc protoSample)
     = Return (BObject [(str "a", BNumber (Num 2))])
  /\ (forall entries,
        wellFormed (BObject entries) ->
        exists decoded,
          BencodeDecoder_decode (enc (BObject entries)) = Return (BObject decoded)
          /\ objectGet decoded (str "__proto__") = None).
Proof.
  assert (Hdecode : forall v, wellFormed v ->
            BencodeDecoder_decode (enc v) = Return (received v)).
  { intros v Hwf. pose proof (BencodeDecoder_run_encoded v [] Hwf) as Hrun.
    rewrite app_nil_r in Hrun. unfold BencodeDecoder_decode. by rewrite Hrun. }
  split_and!.
  - intros Hplain. split; [|by apply canonical_sameValue, plain_wellFormed].
    rewrite <- (received_plain value Hplain). by apply Hdecode, plain_wellFormed.
  - rewrite Hdecode.
    + f_equal. unfold protoSample. rewrite received_BObject.
      cbn [array_sort sort_insert]. unfold entryCompare. cbn [fst].
      by destruct (localeCompare (str "__proto__") (str "a") <=? 0).
    + constructor; [|repeat constructor; lia].
      apply (bool_decide_unpack _). by vm_compute.
  - intros entries Hwf. inversion Hwf as [| | |? Hnodup Hvalues]; subst.
    eexists. split.
    + rewrite (Hdecode _ Hwf). by rewrite received_entries.
    + rewrite objectGet_fmap.
      destruct (objectGet _ (str "__proto__")) as [v|] eqn:Hget; [|done].
      exfalso. apply objectGet_Some in Hget.
      * apply list_elem_of_filter in Hget as [Hne _]. by apply Hne.
      * apply (NoDup_fmap_2_strong fst).
        -- intros [k1 v1] [k2 v2] [_ H1]%list_elem_of_filter [_ H2]%list_elem_of_filter.
           cbn. intros ->. f_equal.
           assert (Hsorted : NoDup (sortEntries entries).*1)
             by (by rewrite array_sort_Permutation).
           apply (objectGet_Some _ _ _ Hsorted) in H1, H2. congruence.
        -- apply NoDup_filter.
           apply (NoDup_fmap_1 fst). by rewrite array_sort_Permutation.
Qed.

End Codec.

(** The parse of [s] is one that a number holds exactly: [NaN], or an
    integer of magnitude at most [2^53]. *)
Definition parsesExactly (s : jsstring) : Prop :=
  match parseInt s with
  | Num z => - 2 ^ 53 <= z <= 2 ^ 53
  | NaN => True
  end.

(** C10. [decodeInteger] checks nothing but the terminator: on [i s e...]
    where [s] has no [e], whatever [s] is, decoding succeeds with a number
    and stops after that [e]; the number is [parseInt s], stated here
    where numbers are exact (no digits, which gives [NaN], or digits of
    value at most [2^53]). When no [e] follows the [i] at all it throws
    "Unterminated integer". So ["iXe"] decodes to [NaN] and ["i007e"] to
    [7]. *)
Theorem decodeInteger_not_validated (s rest : jsstring) :
  Forall (fun c => c <> ch_e) s ->
  (exists n,
      BencodeDecoder_run (ch_i :: s ++ ch_e :: rest)
      = Return (BNumber n, (length s + 2)%nat)
      /\ BencodeDecoder_decode (ch_i :: s ++ ch_e :: rest) = Return (BNumber n)
      /\ (parsesExactly s -> n = parseInt s))
  /\ BencodeDecoder_decode (ch_i :: s) = Throw UnterminatedInteger
  /\ BencodeDecoder_decode (str "iXe") = Return (BNumber NaN)
  /\ BencodeDecoder_decode (str "i007e") = Return (BNumber (Num 7)).
Proof.
  intros Hs.
  assert (Hrun : BencodeDecoder_run (ch_i :: s ++ ch_e :: rest)
                 = Return (BNumber (parseInt s), (length s + 2)%nat)).
  { unfold BencodeDecoder_run, decodeFuel.
    replace (2 * length (ch_i :: s ++ ch_e :: rest) + 1)%nat
      with (S (2 * length (ch_i :: s ++ ch_e :: rest)))%nat by lia.
    rewrite decode_unfold. change (charIs (ch_i :: s ++ ch_e :: rest) 0 ch_i) with true.
    cbn iota.
    rewrite (decodeInteger_found s _ [] rest Hs)
      by (simpl; rewrite length_app; simpl; lia).
    done. }
  split_and!; [| |by vm_compute|by vm_compute].
  - exists (parseInt s). split_and!; [done| |done].
    unfold BencodeDecoder_decode. by rewrite Hrun.
  - unfold BencodeDecoder_decode, BencodeDecoder_run, decodeFuel.
    replace (2 * length (ch_i :: s) + 1)%nat
      with (S (2 * length (ch_i :: s)))%nat by lia.
    rewrite decode_unfold. change (charIs (ch_i :: s) 0 ch_i) with true.
    cbn iota. unfold decodeInteger.
    rewrite (decodeInteger_loop_missing s _ [ch_i] Hs) by (simpl; lia).
    done.
Qed.

(** ** The order of the entries of an encoded dictionary *)

(** The order of strings by code units: a comparator that is a total order.
    On keys in lower-case ASCII letters, such as [id] and [op], the
    collation of the runtime agrees with it. *)
Fixpoint codeUnitCompare (a b : jsstring) : Z :=
  match a, b with
  | [], [] => 0
  | [], _ :: _ => -1
  | _ :: _, [] => 1
  | x :: a', y :: b' =>
      if x <? y then -1 else if y <? x then 1 else codeUnitCompare a' b'
  end.

Lemma codeUnitCompare_total a b :
  codeUnitCompare a b <= 0 \/ codeUnitCompare b a <= 0.
Proof.
  revert b. induction a as [|x a IH]; intros [|y b]; simpl; try lia.
  destruct (Z.ltb_spec x y), (Z.ltb_spec y x); try lia. apply IH.
Qed.

Lemma codeUnitCompare_antisym a b :
  codeUnitCompare a b <= 0 -> codeUnitCompare b a <= 0 -> a = b.
Proof.
  revert b. induction a as [|x a IH]; intros [|y b]; simpl; try (done || lia).
  destruct (Z.ltb_spec x y), (Z.ltb_spec y x); try lia.
  intros Hab Hba. assert (x = y) as -> by lia. f_equal. by apply IH.
Qed.








Section KeyOrder.
(** What the language asks of [localeCompare]: a consistent comparator. *)
Variable localeCompare : jsstring -> jsstring -> Z.
Hypothesis localeCompare_trans : forall a b c,
  localeCompare a b <= 0 -> localeCompare b c <= 0 -> localeCompare a c <= 0.
Hypothesis localeCompare_total : forall a b,
  localeCompare a b <= 0 \/ localeCompare b a <= 0.
Hypothesis localeCompare_flip : forall a b,
  localeCompare a b < 0 -> 0 < localeCompare b a.

(** [a] is not after [b] in the order of the keys. *)
Definition keyLe {B} (a b : jsstring * B) : Prop := localeCompare a.1 b.1 <= 0.


Lemma sort_insert_Sorted {B} (x : jsstring * B) l :
  Sorted keyLe l -> Sorted keyLe (sort_insert (entryCompare localeCompare) x l).
Proof.
  induction 1 as [|y l Hl IH Hy]; simpl; [by repeat constructor|].
  unfold entryCompare at 1.
  destruct (Z.leb_spec (localeCompare x.1 y.1) 0) as [Hle|Hgt].
  - by repeat constructor.
  - constructor; [done|].
    assert (Hyx : keyLe y x).
    { unfold keyLe. destruct (localeCompare_total x.1 y.1); [lia|done]. }
    destruct Hy as [|z l Hyz]; simpl; [by constructor|].
    unfold entryCompare at 1. by destruct (localeCompare x.1 z.1 <=? 0); constructor.
Qed.

Lemma array_sort_Sorted {B} (l : list (jsstring * B)) :
  Sorted keyLe (array_sort (entryCompare localeCompare) l).
Proof. induction l; simpl; [constructor|by apply sort_insert_Sorted]. Qed.



End KeyOrder.


(** ** Truncated strings *)

Lemma indexOf_from_bound (rest : jsstring) c : forall i j,
  indexOf_from rest c i = Some j -> (i <= j < i + length rest)%nat.
Proof.
  induction rest as [|x rest IH]; intros i j; simpl; [done|].
  destruct (x =? c).
  - intros [= <-]. lia.
  - intros Hj%IH. lia.
Qed.

Lemma indexOf_bound (data : jsstring) c from j :
  indexOf data c from = Some j -> (j < length data)%nat.
Proof.
  unfold indexOf. intros Hj%indexOf_from_bound. rewrite length_drop in Hj. lia.
Qed.

Lemma decodeString_loop_bound fuel : forall data byteLength end_ currentBytes end',
  decodeString_loop fuel data byteLength end_ currentBytes = Return end' ->
  (end_ <= length data)%nat -> (end' <= length data)%nat.
Proof.
  induction fuel as [|fuel IH]; intros data bl end_ cur end'; simpl; [done|].
  destruct (lessThan cur bl); simpl.
  - destruct (Nat.ltb_spec end_ (length data)).
    + intros Hloop _. eapply IH; [done|lia].
    + by intros [= <-].
  - by intros [= <-].
Qed.

Lemma decodeString_loop_no_throw fuel : forall data byteLength end_ currentBytes e,
  decodeString_loop fuel data byteLength end_ currentBytes <> Throw e.
Proof.
  induction fuel as [|fuel IH]; intros data bl end_ cur e; simpl; [done|].
  destruct (lessThan cur bl && (end_ <? length data)%nat); [apply IH|done].
Qed.

(** C2, on the code: the test [end > this.data.length] of [decodeString]
    follows a loop that stops at [end = this.data.length], so "String
    length exceeds data" is never thrown; ["5:hel"], which declares five
    bytes and holds three, decodes to ["hel"] with processed length 5. *)
Theorem decodeString_truncated_is_accepted :
  BencodeDecoder_run (str "5:hel") = Return (BString (str "hel"), 5%nat)
  /\ forall fuel data pos,
       decodeString fuel data pos <> Throw StringLengthExceedsData.
Proof.
  split; [by vm_compute|].
  intros fuel data pos. unfold decodeString.
  destruct (indexOf data ch_colon pos) as [colonPos|] eqn:Hcolon; [|done].
  apply indexOf_bound in Hcolon.
  destruct (decodeString_loop fuel data _ (S colonPos) 0) as [end'|e|] eqn:Hloop;
    cbn [mbind outcome_bind]; [|by apply decodeString_loop_no_throw in Hloop|done].
  apply decodeString_loop_bound in Hloop; [|lia].
  by destruct (Nat.ltb_spec (length data) end'); [lia|].
Qed.

(** ** Byte lengths *)

Definition isHighSurrogate (c : Z) : bool := (55296 <=? c) && (c <=? 56319).
Definition isLowSurrogate (c : Z) : bool := (56320 <=? c) && (c <=? 57343).

(** Bytes of the UTF-8 form of one code point of the basic plane (an
    unpaired surrogate is written as U+FFFD, three bytes). *)
Definition utf8UnitBytes (c : Z) : Z :=
  if c <? 128 then 1 else if c <? 2048 then 2 else 3.

(** The number of bytes of the UTF-8 form of a string, as the
    specification words it: a surrogate pair is one character of four
    bytes. *)
Fixpoint utf8ByteCount (s : jsstring) : Z :=
  match s with
  | [] => 0
  | c :: s' =>
      match s' with
      | c' :: s'' =>
          if isHighSurrogate c && isLowSurrogate c' then 4 + utf8ByteCount s''
          else utf8UnitBytes c + utf8ByteCount s'
      | [] => utf8UnitBytes c
      end
  end.

(** Code units of a string without surrogates. *)
Definition isPlainUnit (c : Z) : Prop :=
  0 <= c < 65536 /\ isHighSurrogate c = false.

(** Without surrogate pairs the count of [getUTF8ByteLength] is the count
    of bytes. *)
Lemma getUTF8ByteLength_plain (s : jsstring) :
  Forall isPlainUnit s -> getUTF8ByteLength s = utf8ByteCount s.
Proof.
  induction 1 as [|c s [Hc Hhigh] Hs IH]; [done|].
  rewrite getUTF8ByteLength_cons, IH. cbn [utf8ByteCount].
  assert (Hunit : charByteLength c = utf8UnitBytes c).
  { unfold charByteLength, utf8UnitBytes. repeat case_match; lia. }
  destruct s as [|c' s]; [simpl; lia|]. by rewrite Hhigh, Hunit.
Qed.

(** U+1F600, a character outside the basic plane: two code units. *)
Definition grinningFace : jsstring := [55357; 56832].

(** C3, on the code: [getUTF8ByteLength] reads code units, so a character
    outside the basic plane counts twice three bytes; its UTF-8 form has
    four, and the length prefix written for it is 6. *)
Theorem getUTF8ByteLength_surrogate_pair :
  getUTF8ByteLength grinningFace = 6
  /\ utf8ByteCount grinningFace = 4
  /\ encodeString grinningFace = str "6:" ++ grinningFace
  /\ BencodeDecoder_run (encodeString grinningFace)
     = Return (BString grinningFace, 4%nat).
Proof. by vm_compute. Qed.

(** ** The decoder terminates: progress and fuel *)

Lemma decodeList_loop_unfold fuel data pos result :
  decodeList_loop (S fuel) data pos result
  = if charIs data pos ch_e then Return (result, S pos)
    else if (length data <=? pos)%nat then Throw UnterminatedList
    else
      '(value, pos') ← decode fuel data pos;
      decodeList_loop fuel data pos' (result ++ [value]).
Proof. reflexivity. Qed.

Lemma decodeDictionary_loop_unfold fuel data pos result :
  decodeDictionary_loop (S fuel) data pos result
  = if charIs data pos ch_e then Return (result, S pos)
    else if (length data <=? pos)%nat then Throw UnterminatedDictionary
    else
      '(key, pos') ← decode fuel data pos;
      match key with
      | BString key =>
          '(value, pos'') ← decode fuel data pos';
          decodeDictionary_loop fuel data pos'' (propertySet result key value)
      | _ => Throw DictionaryKeyMustBeString
      end.
Proof. reflexivity. Qed.

Lemma decodeInteger_loop_mono fuel : forall data pos pos',
  decodeInteger_loop fuel data pos = Return pos' -> (pos <= pos')%nat.
Proof.
  induction fuel as [|fuel IH]; intros data pos pos'; simpl; [done|].
  destruct (charIs data pos ch_e); [intros [= <-]; lia|].
  destruct (length data <=? pos)%nat; [done|]. intros Hloop%IH. lia.
Qed.

Lemma decodeString_loop_mono fuel : forall data byteLength end_ currentBytes end',
  decodeString_loop fuel data byteLength end_ currentBytes = Return end' ->
  (end_ <= end')%nat.
Proof.
  induction fuel as [|fuel IH]; intros data bl end_ cur end'; simpl; [done|].
  destruct (lessThan cur bl && (end_ <? length data)%nat).
  - intros Hloop%IH. lia.
  - intros [= <-]. lia.
Qed.

Lemma decodeInteger_progress fuel data pos num pos' :
  decodeInteger fuel data pos = Return (num, pos') -> (pos < pos')%nat.
Proof.
  unfold decodeInteger.
  destruct (decodeInteger_loop fuel data (S pos)) as [p| |] eqn:Hloop;
    cbn [mbind outcome_bind]; [|done..].
  apply decodeInteger_loop_mono in Hloop. intros [= _ <-]. lia.
Qed.

Lemma decodeString_progress fuel data pos s pos' :
  decodeString fuel data pos = Return (s, pos') -> (pos < pos')%nat.
Proof.
  unfold decodeString.
  destruct (indexOf data ch_colon pos) as [colonPos|] eqn:Hcolon; [|done].
  apply indexOf_from_bound in Hcolon.
  destruct (decodeString_loop fuel data _ (S colonPos) 0) as [p| |] eqn:Hloop;
    cbn [mbind outcome_bind]; [|done..].
  apply decodeString_loop_mono in Hloop.
  destruct (length data <? p)%nat; [done|]. intros [= _ <-]. lia.
Qed.

(** Every successful call moves the position forward. *)
Lemma decode_progress fuel :
  (forall data pos value pos',
      decode fuel data pos = Return (value, pos') -> (pos < pos')%nat)
  /\ (forall data pos result items pos',
      decodeList_loop fuel data pos result = Return (items, pos') -> (pos < pos')%nat)
  /\ (forall data pos result entries pos',
      decodeDictionary_loop fuel data pos result = Return (entries, pos') ->
      (pos < pos')%nat).
Proof.
  induction fuel as [|fuel (IHv & IHl & IHd)]; [done|]. split_and!.
  - intros data pos value pos'. rewrite decode_unfold.
    destruct (charIs data pos ch_i).
    { destruct (decodeInteger fuel data pos) as [[num p]| |] eqn:Hcall;
        cbn [mbind outcome_bind]; [|done..].
      intros [= _ <-]. by apply decodeInteger_progress in Hcall. }
    destruct (charIs data pos ch_l).
    { destruct (decodeList_loop fuel data (S pos) []) as [[items p]| |] eqn:Hcall;
        cbn [mbind outcome_bind]; [|done..].
      intros [= _ <-]. apply IHl in Hcall. lia. }
    destruct (charIs data pos ch_d).
    { destruct (decodeDictionary_loop fuel data (S pos) []) as [[entries p]| |]
        eqn:Hcall; cbn [mbind outcome_bind]; [|done..].
      intros [= _ <-]. apply IHd in Hcall. lia. }
    destruct (charIsDigit data pos); [|done].
    destruct (decodeString fuel data pos) as [[s p]| |] eqn:Hcall;
      cbn [mbind outcome_bind]; [|done..].
    intros [= _ <-]. by apply decodeString_progress in Hcall.
  - intros data pos result items pos'. rewrite decodeList_loop_unfold.
    destruct (charIs data pos ch_e); [intros [= _ <-]; lia|].
    destruct (length data <=? pos)%nat; [done|].
    destruct (decode fuel data pos) as [[v p]| |] eqn:Hv;
      cbn [mbind outcome_bind]; [|done..].
    apply IHv in Hv. intros Hloop%IHl. lia.
  - intros data pos result entries pos'. rewrite decodeDictionary_loop_unfold.
    destruct (charIs data pos ch_e); [intros [= _ <-]; lia|].
    destruct (length data <=? pos)%nat; [done|].
    destruct (decode fuel data pos) as [[key p]| |] eqn:Hkey;
      cbn [mbind outcome_bind]; [|done..].
    apply IHv in Hkey. destruct key; try done.
    destruct (decode fuel data p) as [[v p']| |] eqn:Hv;
      cbn [mbind outcome_bind]; [|done..].
    apply IHv in Hv. intros Hloop%IHd. lia.
Qed.

Lemma decodeInteger_loop_fuel fuel : forall data pos,
  (length data - pos < fuel)%nat -> decodeInteger_loop fuel data pos <> OutOfFuel.
Proof.
  induction fuel as [|fuel IH]; intros data pos Hfuel; [lia|]. simpl.
  destruct (charIs data pos ch_e); [done|].
  destruct (Nat.leb_spec (length data) pos); [done|]. apply IH. lia.
Qed.

Lemma decodeString_loop_fuel fuel : forall data byteLength end_ currentBytes,
  (length data - end_ < fuel)%nat ->
  decodeString_loop fuel data byteLength end_ currentBytes <> OutOfFuel.
Proof.
  induction fuel as [|fuel IH]; intros data bl end_ cur Hfuel; [lia|]. simpl.
  destruct (lessThan cur bl); simpl; [|done].
  destruct (Nat.ltb_spec end_ (length data)); [|done]. apply IH. lia.
Qed.

(** With [2 * (length data - pos) + 1] units of fuel no call runs out. *)
Lemma decode_fuel fuel :
  (forall data pos,
      (2 * (length data - pos) + 1 <= fuel)%nat -> decode fuel data pos <> OutOfFuel)
  /\ (forall data pos result,
      (2 * (length data - pos) + 2 <= fuel)%nat ->
      decodeList_loop fuel data pos result <> OutOfFuel)
  /\ (forall data pos result,
      (2 * (length data - pos) + 2 <= fuel)%nat ->
      decodeDictionary_loop fuel data pos result <> OutOfFuel).
Proof.
  induction fuel as [|fuel (IHv & IHl & IHd)]; [split_and!; intros; lia|].
  destruct (decode_progress fuel) as (Hpv & _ & _). split_and!.
  - intros data pos Hfuel. rewrite decode_unfold.
    destruct (Nat.le_gt_cases (length data) pos) as [Hend|Hin].
    { assert (Hnone : data !! pos = None) by (by apply lookup_ge_None).
      unfold charIs, charIsDigit. by rewrite Hnone. }
    destruct (charIs data pos ch_i).
    { unfold decodeInteger.
      destruct (decodeInteger_loop fuel data (S pos)) eqn:Hloop;
        cbn [mbind outcome_bind]; [done..|].
      apply decodeInteger_loop_fuel in Hloop; [done|lia]. }
    destruct (charIs data pos ch_l).
    { destruct (decodeList_loop fuel data (S pos) []) as [[??]| |] eqn:Hloop;
        cbn [mbind outcome_bind]; [done..|].
      apply IHl in Hloop; [done|lia]. }
    destruct (charIs data pos ch_d).
    { destruct (decodeDictionary_loop fuel data (S pos) []) as [[??]| |] eqn:Hloop;
        cbn [mbind outcome_bind]; [done..|].
      apply IHd in Hloop; [done|lia]. }
    destruct (charIsDigit data pos); [|done].
    unfold decodeString.
    destruct (indexOf data ch_colon pos) as [colonPos|] eqn:Hcolon; [|done].
    apply indexOf_from_bound in Hcolon.
    destruct (decodeString_loop fuel data _ (S colonPos) 0) eqn:Hloop;
      cbn [mbind outcome_bind]; [by case_match|done|].
    apply decodeString_loop_fuel in Hloop; [done|lia].
  - intros data pos result Hfuel. rewrite decodeList_loop_unfold.
    destruct (charIs data pos ch_e); [done|].
    destruct (Nat.leb_spec (length data) pos); [done|].
    destruct (decode fuel data pos) as [[v p]| |] eqn:Hv;
      cbn [mbind outcome_bind]; [|done|by apply IHv in Hv; [|lia]].
    apply Hpv in Hv. apply IHl. lia.
  - intros data pos result Hfuel. rewrite decodeDictionary_loop_unfold.
    destruct (charIs data pos ch_e); [done|].
    destruct (Nat.leb_spec (length data) pos); [done|].
    destruct (decode fuel data pos) as [[key p]| |] eqn:Hkey;
      cbn [mbind outcome_bind]; [|done|by apply IHv in Hkey; [|lia]].
    apply Hpv in Hkey. destruct key; try done.
    destruct (decode fuel data p) as [[v p']| |] eqn:Hv;
      cbn [mbind outcome_bind]; [|done|by apply IHv in Hv; [|lia]].
    apply Hpv in Hv. apply IHd. lia.
Qed.

(** The entry point never runs out of fuel: it returns or throws, as the
    source does. *)
Lemma decode_fuel_enough (data : jsstring) : BencodeDecoder_run data <> OutOfFuel.
Proof.
  unfold BencodeDecoder_run, decodeFuel.
  destruct (decode_fuel (2 * length data + 1)) as (Hv & _ & _). apply Hv. lia.
Qed.

Lemma BencodeDecoder_run_progress data value len :
  BencodeDecoder_run data = Return (value, len) -> (0 < len)%nat.
Proof.
  unfold BencodeDecoder_run.
  destruct (decode_progress (decodeFuel data)) as (Hv & _ & _). apply Hv.
Qed.

(** ** Encodings cut short *)

Lemma charIs_end (data : jsstring) pos c :
  (length data <= pos)%nat -> charIs data pos c = false.
Proof. intros Hend. unfold charIs. by rewrite lookup_ge_None_2. Qed.

Lemma charIsDigit_end (data : jsstring) pos :
  (length data <= pos)%nat -> charIsDigit data pos = false.
Proof. intros Hend. unfold charIsDigit. by rewrite lookup_ge_None_2. Qed.

(** At the end of the data nothing is decoded. *)
Lemma decode_end fuel data pos x :
  (length data <= pos)%nat -> decode fuel data pos <> Return x.
Proof.
  intros Hend. destruct fuel as [|fuel]; [done|].
  by rewrite decode_unfold, !charIs_end, charIsDigit_end.
Qed.

Lemma decodeList_loop_end fuel data pos result x :
  (length data <= pos)%nat -> decodeList_loop fuel data pos result <> Return x.
Proof.
  intros Hend. destruct fuel as [|fuel]; [done|].
  rewrite decodeList_loop_unfold, charIs_end by done.
  by destruct (Nat.leb_spec (length data) pos); [|lia].
Qed.

Lemma decodeDictionary_loop_end fuel data pos result x :
  (length data <= pos)%nat -> decodeDictionary_loop fuel data pos result <> Return x.
Proof.
  intros Hend. destruct fuel as [|fuel]; [done|].
  rewrite decodeDictionary_loop_unfold, charIs_end by done.
  by destruct (Nat.leb_spec (length data) pos); [|lia].
Qed.

Lemma bind_Return {A B} (m : outcome A) (k : A -> outcome B) b :
  m ≫= k = Return b -> exists a, m = Return a /\ k a = Return b.
Proof. destruct m as [a| |]; [|done..]. intros Hk. by exists a. Qed.

Lemma indexOf_none (l1 s : jsstring) c :
  Forall (fun x => x <> c) s -> indexOf (l1 ++ s) c (length l1) = None.
Proof.
  intros Hs. unfold indexOf. rewrite drop_app_length. generalize (length l1).
  induction Hs as [|x s Hx _ IH]; intros i; simpl; [done|].
  by destruct (Z.eqb_spec x c).
Qed.

Lemma getUTF8ByteLength_pos (s : jsstring) : s <> [] -> 1 <= getUTF8ByteLength s.
Proof.
  destruct s as [|c s]; [done|]. intros _. rewrite getUTF8ByteLength_cons.
  pose proof (charByteLength_pos c). pose proof (getUTF8ByteLength_nonneg s). lia.
Qed.

(** When fewer bytes follow than were declared, the loop of [decodeString]
    runs to the end of the data. *)
Lemma decodeString_loop_short (s2 : jsstring) :
  forall fuel data l1 s1 total end_ currentBytes,
  data = l1 ++ s1 ++ s2 ->
  getUTF8ByteLength (s1 ++ s2) < total ->
  end_ = (length l1 + length s1)%nat ->
  currentBytes = getUTF8ByteLength s1 ->
  (length s2 < fuel)%nat ->
  decodeString_loop fuel data (Num total) end_ currentBytes = Return (length data).
Proof.
  induction s2 as [|c s2 IH];
    intros fuel data l1 s1 total end_ cur Hdata Htotal Hend Hcur Hfuel;
    (destruct fuel as [|fuel]; [simpl in Hfuel; lia|]); cbn [decodeString_loop].
  - rewrite app_nil_r in Htotal, Hdata. cbn [lessThan].
    destruct (Z.ltb_spec cur total); [|lia].
    assert (Hlen : length data = end_) by (subst; apply length_app).
    destruct (Nat.ltb_spec end_ (length data)); [lia|]. cbn [andb]. by rewrite Hlen.
  - rewrite getUTF8ByteLength_app, getUTF8ByteLength_cons in Htotal.
    pose proof (charByteLength_pos c). pose proof (getUTF8ByteLength_nonneg s2).
    cbn [lessThan]. destruct (Z.ltb_spec cur total); [|lia].
    assert (Hlen : length data = (end_ + S (length s2))%nat).
    { subst data end_. rewrite !length_app. simpl. lia. }
    destruct (Nat.ltb_spec end_ (length data)); [|lia]. cbn [andb].
    assert (Hchar : slice data end_ (S end_) = [c]).
    { subst data end_.
      replace (l1 ++ s1 ++ c :: s2) with ((l1 ++ s1) ++ [c] ++ s2)
        by (by rewrite <- app_assoc).
      rewrite <- length_app.
      replace (S (length (l1 ++ s1))) with (length (l1 ++ s1) + length [c])%nat
        by (simpl; lia).
      apply slice_app_all. }
    rewrite Hchar.
    apply (IH fuel data l1 (s1 ++ [c]) total).
    + subst data. by rewrite <- !app_assoc.
    + rewrite <- app_assoc. cbn [app].
      rewrite getUTF8ByteLength_app, getUTF8ByteLength_cons. lia.
    + rewrite length_app. simpl. lia.
    + rewrite getUTF8ByteLength_app, !getUTF8ByteLength_cons.
      change (getUTF8ByteLength []) with 0. lia.
    + simpl in Hfuel. lia.
Qed.

Section Truncated.
Variable localeCompare : jsstring -> jsstring -> Z.

Abbreviation enc := (encode localeCompare).

(** Decoding a proper prefix [p] of the encoding of [value], with fuel to
    spare, never returns as if a whole value had been read: it returns only
    for a text, and then at the very end of the data. *)
Definition keepsWaiting (value : BencodeValue) : Prop :=
  forall fuel l1 p q x pos',
    enc value = p ++ q -> q <> [] ->
    (2 * length p + 1 <= fuel)%nat ->
    decode fuel (l1 ++ p) (length l1) = Return (x, pos') ->
    (exists s, value = BString s) /\ pos' = length (l1 ++ p).

Lemma truncated_string s : keepsWaiting (BString s).
Proof.
  intros fuel l1 p q x pos' Henc Hq Hfuel Hdec. split; [by eexists|].
  cbn [encode] in Henc. rewrite encodeString_eq in Henc.
  set (N := getUTF8ByteLength s) in *. set (ds := natToString N) in *.
  assert (HN : 0 <= N) by apply getUTF8ByteLength_nonneg.
  assert (Hds : Forall (fun c => isDigit c = true) ds) by (by apply natToString_digits).
  assert (Hnocolon : Forall (fun c => c <> ch_colon) ds)
    by (by apply natToString_no_colon).
  destruct fuel as [|fuel]; [lia|]. rewrite decode_unfold in Hdec.
  destruct p as [|c p'].
  { rewrite app_nil_r in Hdec.
    by rewrite !charIs_end, charIsDigit_end in Hdec. }
  destruct (natToString_cons N) as (c0 & ds0 & Hcons). fold ds in Hcons.
  assert (c = c0) as -> by (rewrite Hcons in Henc; by injection Henc).
  assert (Hc : isDigit c0 = true) by (rewrite Hcons in Hds; by inversion Hds).
  apply isDigit_spec in Hc as Hc'.
  rewrite !(charIs_at (l1 ++ c0 :: p') l1 c0 p' eq_refl) in Hdec.
  rewrite (charIsDigit_at (l1 ++ c0 :: p') l1 c0 p' eq_refl), Hc in Hdec.
  destruct (Z.eqb_spec c0 ch_i) as [->|_]; [unfold ch_i in Hc'; lia|].
  destruct (Z.eqb_spec c0 ch_l) as [->|_]; [unfold ch_l in Hc'; lia|].
  destruct (Z.eqb_spec c0 ch_d) as [->|_]; [unfold ch_d in Hc'; lia|].
  apply bind_Return in Hdec as ([s' end'] & Hstr & [= _ <-]).
  unfold decodeString in Hstr.
  assert (Hprefix : (exists k, ds = (c0 :: p') ++ k)
                    \/ (exists s1, c0 :: p' = ds ++ ch_colon :: s1 /\ s = s1 ++ q)).
  { apply app_eq_inv in Henc as [(k & Hp & Hk)|(k & Hp & Hk)].
    - left. by exists k.
    - destruct k as [|y k].
      + left. exists []. by rewrite app_nil_r in *.
      + right. simpl in Hk. injection Hk as <- ->. by exists k. }
  destruct Hprefix as [(k & Hk)|(s1 & Hp & Hs)].
  { rewrite indexOf_none in Hstr; [done|].
    rewrite Hk in Hnocolon. by apply Forall_app in Hnocolon as [? _]. }
  rewrite Hp in *. clear Hp.
  assert (Hparse : parseInt ds = Num N) by (by apply parseInt_natToString).
  rewrite indexOf_app, slice_app_all, Hparse in Hstr by done.
  rewrite (decodeString_loop_short s1 fuel _ (l1 ++ ds ++ [ch_colon]) [] N) in Hstr.
  - cbn [mbind outcome_bind] in Hstr.
    rewrite Nat.ltb_irrefl in Hstr. by injection Hstr as _ <-.
  - by rewrite <- !app_assoc.
  - cbn [app]. unfold N. rewrite Hs, getUTF8ByteLength_app.
    pose proof (getUTF8ByteLength_pos q Hq). lia.
  - rewrite !length_app. simpl. lia.
  - done.
  - rewrite length_app in Hfuel. simpl in Hfuel. lia.
Qed.

Lemma truncated_integer z : keepsWaiting (BNumber (Num z)).
Proof.
  intros fuel l1 p q x pos' Henc Hq Hfuel Hdec. exfalso.
  cbn [encode numberToString] in Henc.
  destruct fuel as [|fuel]; [lia|]. rewrite decode_unfold in Hdec.
  destruct p as [|c p'].
  { rewrite app_nil_r in Hdec. by rewrite !charIs_end, charIsDigit_end in Hdec. }
  simpl in Henc. injection Henc as <- Henc.
  rewrite (charIs_at (l1 ++ ch_i :: p') l1 ch_i p' eq_refl), Z.eqb_refl in Hdec.
  apply bind_Return in Hdec as ([num end'] & Hint & _).
  assert (Hnoe : Forall (fun c => c <> ch_e) p').
  { pose proof (intToString_no_e z) as Hz.
    apply app_eq_inv in Henc as [(k & Hp & Hk)|(k & Hp & Hk)].
    - rewrite Hp in Hz. by apply Forall_app in Hz as [? _].
    - destruct k as [|y k]; [by rewrite app_nil_r in Hp; subst|].
      simpl in Hk. injection Hk as _ Hk. by destruct k, q. }
  unfold decodeInteger in Hint.
  replace (S (length l1)) with (length (l1 ++ [ch_i])) in Hint
    by (rewrite length_app; simpl; lia).
  replace (l1 ++ ch_i :: p') with ((l1 ++ [ch_i]) ++ p') in Hint
    by (by rewrite <- app_assoc).
  rewrite decodeInteger_loop_missing in Hint; [done|done|].
  simpl in Hfuel. lia.
Qed.
Lemma truncated_list_loop items :
  Forall keepsWaiting items -> Forall wellFormed items ->
  forall fuel l1 p q result x,
    concat (map enc items) ++ [ch_e] = p ++ q -> q <> [] ->
    (2 * length p + 2 <= fuel)%nat ->
    decodeList_loop fuel (l1 ++ p) (length l1) result <> Return x.
Proof.
  intros Hitems. induction Hitems as [|v items Hv _ IH];
    intros Hwf fuel l1 p q result x Hcat Hq Hfuel;
    (destruct fuel as [|fuel]; [lia|]).
  - destruct p as [|c p]; [|by destruct p, q].
    rewrite app_nil_r. by apply decodeList_loop_end.
  - apply Forall_cons in Hwf as [Hwv Hwf].
    cbn [map concat] in Hcat. rewrite <- app_assoc in Hcat.
    destruct (encode_head localeCompare v) as (c & tl & Hhead & Hc).
    assert (Hsplit : (exists k, k <> [] /\ enc v = p ++ k)
                     \/ (exists k, p = enc v ++ k
                                   /\ concat (map enc items) ++ [ch_e] = k ++ q)).
    { apply app_eq_inv in Hcat as [(k & Hp & Hk)|(k & Hp & Hk)].
      - destruct k as [|y k].
        + right. exists []. rewrite app_nil_r in Hp. simpl in Hk. subst.
          by rewrite app_nil_r.
        + left. by exists (y :: k).
      - right. by exists k. }
    destruct Hsplit as [(k & Hk & Hp)|(k & Hp & Hrest)].
    + (* the cut is inside [v] *)
      destruct p as [|c' p'].
      { rewrite app_nil_r. by apply decodeList_loop_end. }
      assert (c' = c) as -> by (rewrite Hhead in Hp; by injection Hp).
      rewrite decodeList_loop_unfold.
      rewrite (charIs_at (l1 ++ c :: p') l1 c p' eq_refl),
        (at_end_at (l1 ++ c :: p') l1 c p' eq_refl).
      destruct (Z.eqb_spec c ch_e); [done|].
      destruct (decode fuel (l1 ++ c :: p') (length l1)) as [[value pos']| |] eqn:Hdec;
        cbn [mbind outcome_bind]; [|done..].
      apply (Hv fuel l1 (c :: p') k) in Hdec as [_ ->]; [|done|done|lia].
      by apply decodeList_loop_end.
    + (* [v] is whole *)
      subst p. rewrite decodeList_loop_unfold.
      assert (Hd : l1 ++ enc v ++ k = l1 ++ c :: tl ++ k) by (by rewrite Hhead).
      rewrite (charIs_at _ l1 c (tl ++ k) Hd), (at_end_at _ l1 c (tl ++ k) Hd).
      destruct (Z.eqb_spec c ch_e); [done|].
      rewrite length_app in Hfuel.
      rewrite (encode_decodesTo localeCompare v Hwv fuel (l1 ++ enc v ++ k) l1 k eq_refl)
        by lia.
      cbn [mbind outcome_bind].
      rewrite <- length_app, (app_assoc l1).
      apply (IH Hwf fuel (l1 ++ enc v) k q); [done|done|].
      rewrite Hhead in Hfuel. simpl in Hfuel. lia.
Qed.

Lemma truncated_dictionary_loop (entries : list (jsstring * BencodeValue)) :
  Forall (fun kv => keepsWaiting kv.2) entries ->
  Forall (fun kv => wellFormed kv.2) entries ->
  forall fuel l1 p q result x,
    concat (map (encodeEntry localeCompare) entries) ++ [ch_e] = p ++ q -> q <> [] ->
    (2 * length p + 2 <= fuel)%nat ->
    decodeDictionary_loop fuel (l1 ++ p) (length l1) result <> Return x.
Proof.
  intros Hentries. induction Hentries as [|[key v] entries Hv _ IH];
    intros Hwf fuel l1 p q result x Hcat Hq Hfuel;
    (destruct fuel as [|fuel]; [lia|]).
  - destruct p as [|c p]; [|by destruct p, q].
    rewrite app_nil_r. by apply decodeDictionary_loop_end.
  - apply Forall_cons in Hwf as [Hwv Hwf]. cbn [snd] in Hv, Hwv.
    assert (Hentry : concat (map (encodeEntry localeCompare) ((key, v) :: entries))
                       ++ [ch_e]
                     = encodeString key
                         ++ enc v
                         ++ concat (map (encodeEntry localeCompare) entries) ++ [ch_e]).
    { cbn [map concat]. unfold encodeEntry at 1. by rewrite <- !app_assoc. }
    rewrite Hentry in Hcat. clear Hentry.
    destruct (encodeString_head key) as (c & tl & Hhead & Hc).
    assert (Hce : c <> ch_e) by (intros ->; by vm_compute in Hc).
    assert (Hsplit :
      (exists k, k <> [] /\ encodeString key = p ++ k)
      \/ (exists k2,
            p = encodeString key ++ k2
            /\ enc v ++ concat (map (encodeEntry localeCompare) entries) ++ [ch_e]
               = k2 ++ q)).
    { apply app_eq_inv in Hcat as [(k & Hp & Hk)|(k & Hp & Hk)].
      - destruct k as [|y k].
        + right. exists []. rewrite app_nil_r in Hp. simpl in Hk. subst.
          by rewrite app_nil_r.
        + left. by exists (y :: k).
      - right. by exists k. }
    destruct Hsplit as [(k & Hk & Hp)|(k2 & Hp & Hrest)].
    + (* the cut is inside the key *)
      destruct p as [|c' p'].
      { rewrite app_nil_r. by apply decodeDictionary_loop_end. }
      assert (c' = c) as -> by (rewrite Hhead in Hp; by injection Hp).
      rewrite decodeDictionary_loop_unfold.
      rewrite (charIs_at (l1 ++ c :: p') l1 c p' eq_refl),
        (at_end_at (l1 ++ c :: p') l1 c p' eq_refl).
      destruct (Z.eqb_spec c ch_e); [done|].
      destruct (decode fuel (l1 ++ c :: p') (length l1)) as [[k' pos']| |] eqn:Hdec;
        cbn [mbind outcome_bind]; [|done..].
      apply (truncated_string key fuel l1 (c :: p') k) in Hdec as [_ ->];
        [|done|done|lia].
      destruct k'; try done.
      destruct (decode fuel (l1 ++ c :: p') (length (l1 ++ c :: p')))
        as [[value pos'']| |] eqn:Hvalue; cbn [mbind outcome_bind]; [|done..].
      by apply decode_end in Hvalue.
    + (* the key is whole *)
      subst p. rewrite decodeDictionary_loop_unfold.
      assert (Hd : l1 ++ encodeString key ++ k2 = l1 ++ c :: tl ++ k2)
        by (by rewrite Hhead).
      rewrite (charIs_at _ l1 c (tl ++ k2) Hd), (at_end_at _ l1 c (tl ++ k2) Hd).
      destruct (Z.eqb_spec c ch_e); [done|].
      rewrite length_app in Hfuel.
      rewrite (decodesTo_string key fuel (l1 ++ encodeString key ++ k2) l1 k2 eq_refl)
        by lia.
      cbn [mbind outcome_bind].
      assert (Hsplit :
        (exists k, k <> [] /\ enc v = k2 ++ k)
        \/ (exists k4,
              k2 = enc v ++ k4
              /\ concat (map (encodeEntry localeCompare) entries) ++ [ch_e]
                 = k4 ++ q)).
      { apply app_eq_inv in Hrest as [(k & Hp & Hk)|(k & Hp & Hk)].
        - destruct k as [|y k].
          + right. exists []. rewrite app_nil_r in Hp. simpl in Hk. subst.
          by rewrite app_nil_r.
          + left. by exists (y :: k).
        - right. by exists k. }
      rewrite <- length_app, (app_assoc l1).
      destruct Hsplit as [(k & Hk & Hvk)|(k4 & Hk2 & Hrest')].
      * (* the cut is inside the value *)
        destruct (decode fuel ((l1 ++ encodeString key) ++ k2)
                    (length (l1 ++ encodeString key))) as [[value pos']| |] eqn:Hdec;
          cbn [mbind outcome_bind]; [|done..].
        apply (Hv fuel (l1 ++ encodeString key) k2 k) in Hdec as [_ ->];
          [|done|done|lia].
        by apply decodeDictionary_loop_end.
      * (* the value is whole *)
        subst k2. rewrite length_app in Hfuel.
        rewrite (encode_decodesTo localeCompare v Hwv fuel
                   ((l1 ++ encodeString key) ++ enc v ++ k4)
                   (l1 ++ encodeString key) k4 eq_refl) by lia.
        cbn [mbind outcome_bind].
        rewrite <- length_app, (app_assoc (l1 ++ encodeString key)).
        apply (IH Hwf fuel ((l1 ++ encodeString key) ++ enc v) k4 q); [done|done|].
        rewrite Hhead in Hfuel. simpl in Hfuel. lia.
Qed.
Lemma truncated_value value : wellFormed value -> keepsWaiting value.
Proof.
  induction value as [s|n|items IH|entries IH] using BencodeValue_nested_ind;
    intros Hwf.
  - apply truncated_string.
  - inversion Hwf; subst. apply truncated_integer.
  - inversion Hwf as [| |? Hitems|]; subst.
    assert (Hkeep : Forall keepsWaiting items).
    { rewrite Forall_forall in *. auto. }
    intros fuel l1 p q x pos' Henc Hq Hfuel Hdec. exfalso.
    cbn [encode] in Henc.
    destruct fuel as [|fuel]; [lia|]. rewrite decode_unfold in Hdec.
    destruct p as [|c p'].
    { rewrite app_nil_r in Hdec. by rewrite !charIs_end, charIsDigit_end in Hdec. }
    simpl in Henc. injection Henc as <- Henc.
    rewrite !(charIs_at (l1 ++ ch_l :: p') l1 ch_l p' eq_refl) in Hdec.
    change (ch_l =? ch_i) with false in Hdec. rewrite Z.eqb_refl in Hdec.
    apply bind_Return in Hdec as (r & Hloop & _).
    replace (S (length l1)) with (length (l1 ++ [ch_l])) in Hloop
      by (rewrite length_app; simpl; lia).
    replace (l1 ++ ch_l :: p') with ((l1 ++ [ch_l]) ++ p') in Hloop
      by (by rewrite <- app_assoc).
    apply (truncated_list_loop items Hkeep Hitems fuel (l1 ++ [ch_l]) p' q) in Hloop;
      [done|done|done|simpl in Hfuel; lia].
  - inversion Hwf as [| | |? Hnodup Hvalues]; subst.
    assert (Hkeep : Forall (fun kv => keepsWaiting kv.2)
                      (array_sort (entryCompare localeCompare) entries)).
    { rewrite array_sort_Permutation. rewrite Forall_forall in *. auto. }
    assert (Hwfs : Forall (fun kv => wellFormed kv.2)
                     (array_sort (entryCompare localeCompare) entries)).
    { by rewrite array_sort_Permutation. }
    intros fuel l1 p q x pos' Henc Hq Hfuel Hdec. exfalso.
    rewrite encode_BObject in Henc.
    destruct fuel as [|fuel]; [lia|]. rewrite decode_unfold in Hdec.
    destruct p as [|c p'].
    { rewrite app_nil_r in Hdec. by rewrite !charIs_end, charIsDigit_end in Hdec. }
    simpl in Henc. injection Henc as <- Henc.
    rewrite !(charIs_at (l1 ++ ch_d :: p') l1 ch_d p' eq_refl) in Hdec.
    change (ch_d =? ch_i) with false in Hdec.
    change (ch_d =? ch_l) with false in Hdec. rewrite Z.eqb_refl in Hdec.
    apply bind_Return in Hdec as (r & Hloop & _).
    replace (S (length l1)) with (length (l1 ++ [ch_d])) in Hloop
      by (rewrite length_app; simpl; lia).
    replace (l1 ++ ch_d :: p') with ((l1 ++ [ch_d]) ++ p') in Hloop
      by (by rewrite <- app_assoc).
    apply (truncated_dictionary_loop _ Hkeep Hwfs fuel (l1 ++ [ch_d]) p' q) in Hloop;
      [done|done|done|simpl in Hfuel; lia].
Qed.

(** Split delivery: every proper prefix of the encoding of a dictionary
    (or of a list, or of an integer) fails to decode, so a caller that
    keeps the bytes and waits loses nothing; with the remainder appended
    the value is decoded as from the whole buffer. *)
Lemma BencodeDecoder_run_prefix value p q :
  wellFormed value ->
  (forall s, value <> BString s) ->
  enc value = p ++ q -> q <> [] ->
  (exists e, BencodeDecoder_run p = Throw e)
  /\ BencodeDecoder_run (p ++ q) = Return (received localeCompare value, length (p ++ q)).
Proof.
  intros Hwf Hnotext Henc Hq. split.
  - destruct (BencodeDecoder_run p) as [[x pos']|e|] eqn:Hrun; [|by eexists|].
    + unfold BencodeDecoder_run, decodeFuel in Hrun.
      apply (truncated_value value Hwf _ [] p q) in Hrun as [[s ->] _];
        [by destruct (Hnotext s)|done|done|lia].
    + by apply decode_fuel_enough in Hrun.
  - rewrite <- Henc.
    pose proof (BencodeDecoder_run_encoded localeCompare value [] Hwf) as Hrun.
    by rewrite app_nil_r in Hrun.
Qed.
End Truncated.

(** ** The client: [src/nrepl-client.ts]

    A response is the decoded value itself (the source casts it to
    [NReplResponse] without a check); [undefined] is [None]. The closure
    that one call of [send] creates (its [responses] array, its timer, the
    [resolve] and [reject] of its promise) is one [Request], found by its
    index in [requests]; the callback registered under an id is the index
    of the request it belongs to. Timers and socket events are steps of
    the client, taken one at a time as the event loop runs them. *)

(** [value.name] on a decoded value: the own property of that name. This
    is the value of the expression for an object whose prototype is
    [Object.prototype] and the names that the client reads ([id],
    [status], [new-session], [ex], [root-ex], [err], [value], [out]),
    none of which [Object.prototype] defines. An object whose prototype a
    [__proto__] entry has replaced can inherit such a field; it is outside
    the values called [plain]. *)
Definition getField (value : BencodeValue) (name : jsstring) : option BencodeValue :=
  match value with
  | BObject entries => objectGet entries name
  | _ => None
  end.

(** Truthiness: what [if (v)], [!v], [||] and [filter(Boolean)] test. *)
Definition truthy (value : BencodeValue) : bool :=
  match value with
  | BString s => negb (bool_decide (s = []))
  | BNumber (Num z) => negb (z =? 0)
  | BNumber NaN => false
  | BList _ | BObject _ => true
  end.

Definition truthyField (field : option BencodeValue) : bool :=
  match field with
  | Some value => truthy value
  | None => false
  end.

(** [a || b]. *)
Definition jsOr (a b : option BencodeValue) : option BencodeValue :=
  if truthyField a then a else b.

(** [texts.join(sep)] on strings. *)
Fixpoint joinWith (sep : jsstring) (texts : list jsstring) : jsstring :=
  match texts with
  | [] => []
  | [text] => text
  | text :: texts' => text ++ sep ++ joinWith sep texts'
  end.

(** The string that [join] makes of an element: a text itself, a number
    in decimal, a list joined with commas. A dictionary is printed by
    [Object.prototype.toString] as long as it has no entry [toString] of
    its own (with one, [join] throws a [TypeError]); [eval] joins texts. *)
Fixpoint toText (value : BencodeValue) : jsstring :=
  match value with
  | BString s => s
  | BNumber n => numberToString n
  | BList items => joinWith (str ",") (map toText items)
  | BObject _ => str "[object Object]"
  end.

Definition fieldText (field : option BencodeValue) : jsstring :=
  match field with
  | Some value => toText value
  | None => []
  end.

Fixpoint startsWith (s sub : jsstring) : bool :=
  match sub, s with
  | [], _ => true
  | _ :: _, [] => false
  | y :: sub', x :: s' => (x =? y) && startsWith s' sub'
  end.

(** [s.includes(sub)] on strings. *)
Fixpoint includesText (s sub : jsstring) : bool :=
  startsWith s sub ||
  match s with
  | [] => false
  | _ :: s' => includesText s' sub
  end.

Definition isText (text : jsstring) (value : BencodeValue) : bool :=
  match value with
  | BString s => bool_decide (s = text)
  | _ => false
  end.

(** [response.status?.includes('done')]; [None] when the call throws a
    [TypeError] because [status] is neither a list nor a string: a number
    has no [includes], and in a dictionary [includes] is absent or an
    entry, which is no function (a dictionary whose prototype a
    [__proto__] entry has replaced by a list is not [plain]). *)
Definition statusIncludesDone (response : BencodeValue) : option bool :=
  match getField response (str "status") with
  | None => Some false
  | Some (BList tokens) => Some (existsb (isText (str "done")) tokens)
  | Some (BString s) => Some (includesText s (str "done"))
  | Some (BNumber _) | Some (BObject _) => None
  end.

(** The errors the client raises; [lastError] keeps the message of one. *)
Inductive ClientError :=
| ErrorMsg (text : jsstring)
    (* new Error(text) *)
| RequestTimedOut (message : list (jsstring * BencodeValue))
    (* nREPL request timed out. Message: JSON.stringify(message) *)
| TypeError.

Inductive Promise (A : Type) :=
| Pending
| Resolved (a : A)
| Rejected (e : ClientError).
Arguments Pending {A}.
Arguments Resolved {A} a.
Arguments Rejected {A} e.

(** [resolve] and [reject] settle a promise once. *)
Definition resolve {A} (a : A) (p : Promise A) : Promise A :=
  match p with
  | Pending => Resolved a
  | _ => p
  end.

Definition reject {A} (e : ClientError) (p : Promise A) : Promise A :=
  match p with
  | Pending => Rejected e
  | _ => p
  end.

Record Request := {
  req_message : list (jsstring * BencodeValue);   (* message *)
  req_id : jsstring;                              (* id *)
  req_responses : list BencodeValue;              (* responses *)
  req_timeout : option Z;                         (* timeout: its deadline while armed *)
  req_promise : Promise (list BencodeValue)
}.

Record NReplClient := {
  buffer : jsstring;
  messageCallbacks : gmap jsstring nat;
  sessionId : option BencodeValue;
  lastError : option ClientError;
  connected : bool;
  requests : list Request;        (* the closures of the calls of send *)
  written : list jsstring         (* what socket.write was given *)
}.

(** Milliseconds before a request times out. *)
Definition requestTimeout : Z := 30000.

Definition withBuffer (buffer' : jsstring) (st : NReplClient) : NReplClient :=
  {| buffer := buffer'; messageCallbacks := messageCallbacks st;
     sessionId := sessionId st; lastError := lastError st;
     connected := connected st; requests := requests st; written := written st |}.

Definition withCallbacks (callbacks : gmap jsstring nat) (st : NReplClient)
  : NReplClient :=
  {| buffer := buffer st; messageCallbacks := callbacks;
     sessionId := sessionId st; lastError := lastError st;
     connected := connected st; requests := requests st; written := written st |}.

Definition withRequests (requests' : list Request) (st : NReplClient) : NReplClient :=
  {| buffer := buffer st; messageCallbacks := messageCallbacks st;
     sessionId := sessionId st; lastError := lastError st;
     connected := connected st; requests := requests'; written := written st |}.

Definition withLastError (error : option ClientError) (st : NReplClient)
  : NReplClient :=
  {| buffer := buffer st; messageCallbacks := messageCallbacks st;
     sessionId := sessionId st; lastError := error;
     connected := connected st; requests := requests st; written := written st |}.

Definition withConnected (connected' : bool) (st : NReplClient) : NReplClient :=
  {| buffer := buffer st; messageCallbacks := messageCallbacks st;
     sessionId := sessionId st; lastError := lastError st;
     connected := connected'; requests := requests st; written := written st |}.

Definition withSessionId (session : option BencodeValue) (st : NReplClient)
  : NReplClient :=
  {| buffer := buffer st; messageCallbacks := messageCallbacks st;
     sessionId := session; lastError := lastError st;
     connected := connected st; requests := requests st; written := written st |}.

(** The client as the constructor leaves it. *)
Definition newClient : NReplClient :=
  {| buffer := []; messageCallbacks := ∅; sessionId := None; lastError := None;
     connected := false; requests := []; written := [] |}.

(** *** Socket events: [setupSocketHandlers] and [connect] *)

Definition onSocketError (message : jsstring) (st : NReplClient) : NReplClient :=
  withLastError (Some (ErrorMsg message)) (withConnected false st).

(** [!this.lastError]: no message, or an empty one. *)
Definition noLastError (st : NReplClient) : bool :=
  match lastError st with
  | None => true
  | Some (ErrorMsg text) => bool_decide (text = [])
  | Some _ => false
  end.

Definition onSocketClose (st : NReplClient) : NReplClient :=
  let st := withConnected false st in
  if noLastError st then withLastError (Some (ErrorMsg (str "Connection closed"))) st
  else st.

Definition onSocketConnect (st : NReplClient) : NReplClient :=
  withConnected true st.

(** *** [send], its timer and its callback *)

Section Client.
Variable localeCompare : jsstring -> jsstring -> Z.

(** [send(message)] at time [now], where [id] is the text drawn from
    [Math.random()]: the state after the executor of the promise has run,
    and the index of the request. The message is a dictionary of values,
    which [encode] always accepts, so the [catch] is not entered. *)
Definition send (now : Z) (id : jsstring) (message : list (jsstring * BencodeValue))
    (st : NReplClient) : NReplClient * nat :=
  let request :=
    {| req_message := message; req_id := id; req_responses := [];
       req_timeout := Some (now + requestTimeout); req_promise := Pending |} in
  let encoded :=
    encode localeCompare (BObject (objectSet message (str "id") (BString id))) in
  ({| buffer := buffer st;
      messageCallbacks := <[id := length (requests st)]> (messageCallbacks st);
      sessionId := sessionId st; lastError := lastError st;
      connected := connected st;
      requests := requests st ++ [request];
      written := written st ++ [encoded] |},
   length (requests st)).

(** The timer of request [rid] at time [now]: it runs if it is still armed
    and its deadline has come. *)
Definition onTimeout (now : Z) (rid : nat) (st : NReplClient) : NReplClient :=
  match requests st !! rid with
  | Some r =>
      match req_timeout r with
      | Some deadline =>
          if deadline <=? now then
            let error := RequestTimedOut (req_message r) in
            let r' :=
              {| req_message := req_message r; req_id := req_id r;
                 req_responses := req_responses r; req_timeout := None;
                 req_promise := reject error (req_promise r) |} in
            withLastError (Some error)
              (withRequests (<[rid := r']> (requests st))
                 (withCallbacks (delete (req_id r) (messageCallbacks st)) st))
          else st
      | None => st
      end
  | None => st
  end.

(** The callback that [send] registered for request [rid], called with
    [response]; the flag tells whether it threw. *)
Definition callback (rid : nat) (response : BencodeValue) (st : NReplClient)
  : NReplClient * bool :=
  match requests st !! rid with
  | Some r =>
      let responses := req_responses r ++ [response] in
      let pushed :=
        {| req_message := req_message r; req_id := req_id r;
           req_responses := responses; req_timeout := req_timeout r;
           req_promise := req_promise r |} in
      match statusIncludesDone response with
      | Some true =>
          let settled :=
            {| req_message := req_message r; req_id := req_id r;
               req_responses := responses; req_timeout := None;
               req_promise := resolve responses (req_promise r) |} in
          (withRequests (<[rid := settled]> (requests st))
             (withCallbacks (delete (req_id r) (messageCallbacks st)) st),
           false)
      | Some false => (withRequests (<[rid := pushed]> (requests st)) st, false)
      | None => (withRequests (<[rid := pushed]> (requests st)) st, true)
      end
  | None => (st, false)
  end.

(** The body of the [try] of [handleData] after the decoding. *)
Definition dispatch (response : BencodeValue) (st : NReplClient)
  : NReplClient * bool :=
  match getField response (str "id") with
  | Some (BString id) =>
      if truthy (BString id) then
        match messageCallbacks st !! id with
        | Some rid =>
            let '(st1, threw) := callback rid response st in
            if threw then (st1, true)
            else
              match statusIncludesDone response with
              | Some true =>
                  (withCallbacks (delete id (messageCallbacks st1)) st1, false)
              | _ => (st1, false)
              end
        | None => (st, false)
        end
      else (st, false)
  | _ => (st, false)   (* no id, or one that is no key of the table *)
  end.

(** The [while] of [handleData]: the state and [processed] at its exit. *)
Fixpoint handleData_loop (fuel : nat) (processed : nat) (st : NReplClient)
  : NReplClient * nat :=
  match fuel with
  | O => (st, processed)
  | S fuel' =>
      if (processed <? length (buffer st))%nat then
        match BencodeDecoder_run (drop processed (buffer st)) with
        | Return (response, len) =>
            let '(st1, threw) := dispatch response st in
            if threw then (st1, processed)
            else handleData_loop fuel' (processed + len) st1
        | _ => (st, processed)
        end
      else (st, processed)
  end.

(** [handleData(data)], where the argument is the text [data.toString()]
    of the chunk: each chunk is converted by itself. *)
Definition handleData (data : jsstring) (st : NReplClient) : NReplClient :=
  let st := withBuffer (buffer st ++ data) st in
  let '(st1, processed) := handleData_loop (S (length (buffer st))) 0 st in
  if (0 <? processed)%nat then withBuffer (drop processed (buffer st1)) st1
  else st1.

(** *** [clone] and [eval], from the point where [send] has delivered *)

Definition newSessionFailure : ClientError :=
  ErrorMsg (str "Failed to create new session").

(** [clone()] once [await this.send({ op: 'clone' })] has yielded
    [responses]. *)
Definition clone_finish (responses : list BencodeValue) (st : NReplClient)
  : NReplClient * Promise BencodeValue :=
  match responses with
  | [] => (st, Rejected TypeError)
  | first :: _ =>
      match getField first (str "new-session") with
      | Some newSession =>
          if truthy newSession then
            (withSessionId (Some newSession) st, Resolved newSession)
          else (st, Rejected newSessionFailure)
      | None => (st, Rejected newSessionFailure)
      end
  end.

(** The request of [eval(code)], or "No active session". *)
Definition eval_message (code : jsstring) (st : NReplClient)
  : ClientError + list (jsstring * BencodeValue) :=
  if truthyField (sessionId st) then
    inr [(str "op", BString (str "eval")); (str "code", BString code);
         (str "session", default (BString []) (sessionId st))]
  else inl (ErrorMsg (str "No active session")).

Definition errorOf (r : BencodeValue) : option BencodeValue :=
  jsOr (jsOr (getField r (str "ex")) (getField r (str "root-ex")))
    (getField r (str "err")).

Definition outputOf (r : BencodeValue) : option BencodeValue :=
  jsOr (getField r (str "value")) (getField r (str "out")).

Definition newline : jsstring := [10].

(** [eval(code)] once [await this.send(...)] has yielded [responses]. *)
Definition eval_finish (responses : list BencodeValue) (st : NReplClient)
  : NReplClient * Promise jsstring :=
  let errors := filter (fun e => truthyField e = true) (map errorOf responses) in
  if (0 <? length errors)%nat then
    let errorMsg := joinWith newline (map fieldText errors) in
    (withLastError (Some (ErrorMsg errorMsg)) st, Rejected (ErrorMsg errorMsg))
  else
    let output := filter (fun o => truthyField o = true) (map outputOf responses) in
    (st, Resolved (joinWith newline (map fieldText output))).

Definition cloneMessage : list (jsstring * BencodeValue) :=
  [(str "op", BString (str "clone"))].

Example send_clone_written :
  written (send 0 (str "a1") cloneMessage newClient).1
  = [encode localeCompare
       (BObject [(str "op", BString (str "clone")); (str "id", BString (str "a1"))])].
Proof. reflexivity. Qed.

Example eval_finish_value :
  (eval_finish
     [BObject [(str "id", BString (str "x")); (str "value", BString (str "42"))];
      BObject [(str "id", BString (str "x")); (str "status", BList [BString (str "done")])]]
     newClient).2
  = Resolved (str "42").
Proof. by vm_compute. Qed.

Example handleData_resolves :
  let st := (send 0 (str "x") cloneMessage newClient).1 in
  let st' := handleData (str "d2:id1:x11:new-session2:s16:statusl4:doneee") st in
  (req_promise <$> requests st' !! 0%nat)
  = Some (Resolved [BObject [(str "id", BString (str "x"));
                             (str "new-session", BString (str "s1"));
                             (str "status", BList [BString (str "done")])]])
  /\ messageCallbacks st' !! str "x" = None
  /\ buffer st' = [].
Proof. by vm_compute. Qed.
End Client.

(** ** What [eval] makes of the responses *)

(** The first of the given fields that is present with a truthy value (for
    a text: a text that is not empty). *)
Fixpoint firstTruthy (fields : list (option BencodeValue)) : option BencodeValue :=
  match fields with
  | [] => None
  | Some value :: fields' => if truthy value then Some value else firstTruthy fields'
  | None :: fields' => firstTruthy fields'
  end.

(** The error text of a response: [ex], else [root-ex], else [err]. *)
Definition errorText (r : BencodeValue) : option jsstring :=
  toText <$> firstTruthy [getField r (str "ex"); getField r (str "root-ex");
                          getField r (str "err")].

(** The output text of a response: [value], else [out]. *)
Definition outputText (r : BencodeValue) : option jsstring :=
  toText <$> firstTruthy [getField r (str "value"); getField r (str "out")].

Lemma jsOr_firstTruthy a b :
  firstTruthy [jsOr a b] = firstTruthy [a; b].
Proof.
  unfold jsOr. destruct a as [va|]; simpl; [|done].
  destruct (truthy va) eqn:Hva; simpl; [by rewrite Hva|done].
Qed.

Lemma firstTruthy_single a :
  firstTruthy [a] = if truthyField a then a else None.
Proof. destruct a as [va|]; simpl; [|done]. by destruct (truthy va). Qed.

Lemma firstTruthy_cons a fields :
  firstTruthy (a :: fields)
  = match firstTruthy [a] with Some v => Some v | None => firstTruthy fields end.
Proof. destruct a as [va|]; simpl; [|done]. by destruct (truthy va). Qed.

Ltac jsOr_cases :=
  unfold jsOr; simpl;
  repeat match goal with
         | |- context [truthy ?v] =>
             let H := fresh "Htruthy" in
             destruct (truthy v) eqn:H; simpl; rewrite ?H; simpl
         end;
  try done.

Lemma errorOf_text r :
  (if truthyField (errorOf r) then Some (fieldText (errorOf r)) else None)
  = errorText r.
Proof.
  unfold errorText, errorOf.
  destruct (getField r (str "ex")), (getField r (str "root-ex")),
    (getField r (str "err")); jsOr_cases.
Qed.

Lemma outputOf_text r :
  (if truthyField (outputOf r) then Some (fieldText (outputOf r)) else None)
  = outputText r.
Proof.
  unfold outputText, outputOf.
  destruct (getField r (str "value")), (getField r (str "out")); jsOr_cases.
Qed.

Lemma filter_truthy_texts (pick : BencodeValue -> option BencodeValue)
    (text : BencodeValue -> option jsstring) responses :
  (forall r, (if truthyField (pick r) then Some (fieldText (pick r)) else None)
             = text r) ->
  map fieldText (filter (fun o => truthyField o = true) (map pick responses))
  = omap text responses.
Proof.
  intros Hpick. induction responses as [|r responses IH]; [done|].
  change (omap text (r :: responses))
    with (match text r with
          | Some y => y :: omap text responses
          | None => omap text responses
          end).
  cbn [map]. rewrite filter_cons, <- Hpick.
  destruct (decide (truthyField (pick r) = true)) as [Ht|Hf].
  - rewrite Ht. cbn [map]. by rewrite IH.
  - apply not_true_is_false in Hf. by rewrite Hf.
Qed.

Lemma joinWith_cons sep text texts :
  texts <> [] -> joinWith sep (text :: texts) = text ++ sep ++ joinWith sep texts.
Proof. by destruct texts. Qed.

Lemma joinWith_middle sep before text after :
  exists l r, joinWith sep (before ++ text :: after) = l ++ text ++ r.
Proof.
  induction before as [|b before (l & r & IH)].
  - exists []. destruct after as [|a after].
    + exists []. simpl. by rewrite app_nil_r.
    + eexists. cbn [app]. by rewrite joinWith_cons.
  - cbn [app]. rewrite joinWith_cons by (by destruct before).
    rewrite IH. exists (b ++ sep ++ l), r. by rewrite <- !app_assoc.
Qed.

Definition response_value42 : BencodeValue :=
  BObject [(str "id", BString (str "x")); (str "value", BString (str "42"))].

Definition response_done : BencodeValue :=
  BObject [(str "id", BString (str "x")); (str "status", BList [BString (str "done")])].

Definition response_boom : BencodeValue :=
  BObject [(str "id", BString (str "x")); (str "ex", BString (str "boom"));
           (str "status", BList [BString (str "done")])].

(** C5, as the code has it. When [eval] is handed the accumulated
    responses: if some response has an error text that is not empty (per
    response the first non-empty of [ex], [root-ex], [err]), the call fails
    with these texts joined by newlines in arrival order, records that
    message as the last error and returns no output; otherwise it returns,
    joined by newlines in arrival order, one text per response: its
    [value] when not empty, else its [out] when not empty. The responses
    [{id:"x", value:"42"}, {id:"x", status:["done"]}] give ["42"]; any
    responses that include [{id:"x", ex:"boom", status:["done"]}] give a
    failure whose message contains ["boom"]. *)
Theorem eval_finish_outcome (responses : list BencodeValue) (st : NReplClient) :
  eval_finish responses st
  = match omap errorText responses with
    | [] => (st, Resolved (joinWith newline (omap outputText responses)))
    | errors =>
        (withLastError (Some (ErrorMsg (joinWith newline errors))) st,
         Rejected (ErrorMsg (joinWith newline errors)))
    end
  /\ (eval_finish [response_value42; response_done] st).2 = Resolved (str "42")
  /\ forall before after,
       exists l r,
         (eval_finish (before ++ response_boom :: after) st).2
         = Rejected (ErrorMsg (l ++ str "boom" ++ r)).
Proof.
  assert (Hmain : forall rs,
    eval_finish rs st
    = match omap errorText rs with
      | [] => (st, Resolved (joinWith newline (omap outputText rs)))
      | errors =>
          (withLastError (Some (ErrorMsg (joinWith newline errors))) st,
           Rejected (ErrorMsg (joinWith newline errors)))
      end).
  { intros rs. unfold eval_finish.
    pose proof (filter_truthy_texts errorOf errorText rs errorOf_text) as Herr.
    pose proof (filter_truthy_texts outputOf outputText rs outputOf_text) as Hout.
    rewrite Hout. clear Hout.
    destruct (filter _ (map errorOf rs)) as [|e errors].
    - by rewrite <- Herr.
    - rewrite <- Herr. done. }
  split_and!; [apply Hmain|by vm_compute|].
  intros before after. rewrite Hmain, omap_app.
  change (omap errorText (response_boom :: after))
    with (str "boom" :: omap errorText after).
  destruct (joinWith_middle newline (omap errorText before) (str "boom")
              (omap errorText after)) as (l & r & Hjoin).
  exists l, r. rewrite <- Hjoin.
  destruct (omap errorText before ++ str "boom" :: omap errorText after) eqn:Hlist;
    [|done].
  symmetry in Hlist. by apply app_cons_not_nil in Hlist.
Qed.

Definition response_empty_ex : BencodeValue :=
  BObject [(str "id", BString (str "x")); (str "ex", BString []);
           (str "value", BString (str "42"));
           (str "status", BList [BString (str "done")])].

Definition response_value_and_out : BencodeValue :=
  BObject [(str "id", BString (str "x")); (str "value", BString (str "1"));
           (str "out", BString (str "printed"));
           (str "status", BList [BString (str "done")])].

(** C5, as stated, fails: a response whose [ex] field is present and
    empty does not make the call fail, and of a response that carries both
    [value] and [out] only [value] is returned. *)
Lemma eval_finish_present_is_not_enough :
  getField response_empty_ex (str "ex") = Some (BString [])
  /\ (eval_finish [response_empty_ex] newClient).2 = Resolved (str "42")
  /\ getField response_value_and_out (str "out") = Some (BString (str "printed"))
  /\ (eval_finish [response_value_and_out] newClient).2 = Resolved (str "1").
Proof. by vm_compute. Qed.

(** ** What [clone] makes of the responses *)

Definition response_out_only : BencodeValue :=
  BObject [(str "id", BString (str "x")); (str "out", BString (str "hello"))].

Definition response_new_session : BencodeValue :=
  BObject [(str "id", BString (str "x")); (str "new-session", BString (str "s1"));
           (str "status", BList [BString (str "done")])].

(** C7, as the code has it. [clone] reads the first accumulated response
    only: if that response has a [new-session] that is not empty, the call
    succeeds, returns it and makes it the session id whatever the session
    id was; otherwise the call fails with "Failed to create new session"
    and the session id stays, also when a later response carries a
    [new-session]. *)
Theorem clone_finish_outcome (first : BencodeValue) (later : list BencodeValue)
    (st : NReplClient) :
  clone_finish (first :: later) st
  = match firstTruthy [getField first (str "new-session")] with
    | Some newSession => (withSessionId (Some newSession) st, Resolved newSession)
    | None => (st, Rejected newSessionFailure)
    end
  /\ clone_finish (first :: later) st = clone_finish [first] st
  /\ (forall newSession,
        (clone_finish (first :: later) st).2 = Resolved newSession <->
        getField first (str "new-session") = Some newSession
        /\ truthy newSession = true)
  /\ (forall newSession,
        (clone_finish (first :: later) st).2 = Resolved newSession ->
        sessionId (clone_finish (first :: later) st).1 = Some newSession)
  /\ ((clone_finish (first :: later) st).2 = Rejected newSessionFailure <->
      firstTruthy [getField first (str "new-session")] = None)
  /\ ((clone_finish (first :: later) st).2 = Rejected newSessionFailure ->
      (clone_finish (first :: later) st).1 = st).
Proof.
  unfold clone_finish. rewrite firstTruthy_single.
  destruct (getField first (str "new-session")) as [v|]; cbn [truthyField];
    [destruct (truthy v) eqn:Hv|];
    cbn [fst snd sessionId withSessionId];
    split_and!; try done.
  all: try (intros s; try split); intros; destruct_and?; simplify_eq; try done.
  congruence.
Qed.

(** C7, as stated, fails: exactly one of these responses carries a
    [new-session], in second place, and [clone] fails. *)
Lemma clone_finish_reads_first_only :
  getField response_out_only (str "new-session") = None
  /\ getField response_new_session (str "new-session") = Some (BString (str "s1"))
  /\ clone_finish [response_out_only; response_new_session] newClient
     = (newClient, Rejected newSessionFailure).
Proof. by vm_compute. Qed.

(** ** The table of pending requests *)

(** Every callback of the table belongs to a request that was sent under
    the id it is registered for. *)
Definition callbacksConsistent (st : NReplClient) : Prop :=
  forall id rid,
    messageCallbacks st !! id = Some rid ->
    req_id <$> requests st !! rid = Some id.

(** No callback of the table belongs to request [rid]. *)
Definition noCallbackFor (rid : nat) (st : NReplClient) : Prop :=
  forall id, messageCallbacks st !! id <> Some rid.

Lemma newClient_consistent : callbacksConsistent newClient.
Proof. intros id rid. cbn [newClient messageCallbacks]. by rewrite lookup_empty. Qed.

Lemma send_consistent localeCompare now id message st :
  callbacksConsistent st ->
  callbacksConsistent (send localeCompare now id message st).1.
Proof.
  intros Hst id' rid. cbn [send fst messageCallbacks requests].
  rewrite lookup_insert. case_decide as Hid.
  - intros [= <-]. subst id'. by rewrite list_lookup_middle.
  - intros Hrid. specialize (Hst _ _ Hrid).
    destruct (requests st !! rid) as [r|] eqn:Hr; [|done].
    by rewrite (lookup_app_l_Some _ _ _ _ Hr).
Qed.

Lemma callback_requests rid response st rid' :
  rid' <> rid ->
  requests (callback rid response st).1 !! rid' = requests st !! rid'.
Proof.
  intros Hne. unfold callback.
  destruct (requests st !! rid) as [r|]; [|done].
  destruct (statusIncludesDone response) as [[]|]; cbn [fst requests withRequests];
    by rewrite list_lookup_insert_ne.
Qed.

Lemma callback_callbacks rid response st id rid' :
  messageCallbacks (callback rid response st).1 !! id = Some rid' ->
  messageCallbacks st !! id = Some rid'.
Proof.
  unfold callback. destruct (requests st !! rid) as [r|]; [|done].
  destruct (statusIncludesDone response) as [[]|];
    cbn [fst messageCallbacks withRequests withCallbacks]; try done.
  rewrite lookup_delete. by case_decide.
Qed.

Lemma callback_buffer rid response st :
  buffer (callback rid response st).1 = buffer st.
Proof.
  unfold callback. destruct (requests st !! rid) as [r|]; [|done].
  by destruct (statusIncludesDone response) as [[]|].
Qed.

Lemma dispatch_callbacks response st id rid :
  messageCallbacks (dispatch response st).1 !! id = Some rid ->
  messageCallbacks st !! id = Some rid.
Proof.
  unfold dispatch.
  destruct (getField response (str "id")) as [[id'| | |]|]; try done.
  destruct (truthy (BString id')); [|done].
  destruct (messageCallbacks st !! id') as [rid'|] eqn:Hcb; [|done].
  destruct (callback rid' response st) as [st1 threw] eqn:Hcall.
  assert (Hst1 : forall i r, messageCallbacks st1 !! i = Some r ->
                             messageCallbacks st !! i = Some r).
  { intros i r. replace st1 with (callback rid' response st).1 by (by rewrite Hcall).
    apply callback_callbacks. }
  destruct threw; [apply Hst1|].
  destruct (statusIncludesDone response) as [[]|]; cbn [fst]; try apply Hst1.
  cbn [messageCallbacks withCallbacks]. rewrite lookup_delete.
  case_decide; [done|apply Hst1].
Qed.

Lemma dispatch_buffer response st : buffer (dispatch response st).1 = buffer st.
Proof.
  unfold dispatch.
  destruct (getField response (str "id")) as [[id'| | |]|]; try done.
  destruct (truthy (BString id')); [|done].
  destruct (messageCallbacks st !! id') as [rid'|] eqn:Hcb; [|done].
  pose proof (callback_buffer rid' response st) as Hbuf.
  destruct (callback rid' response st) as [st1 threw]. cbn [fst] in Hbuf.
  destruct threw; [done|].
  by destruct (statusIncludesDone response) as [[]|].
Qed.

(** A response changes no request but the one its id is registered for. *)
Lemma dispatch_requests response st rid :
  noCallbackFor rid st ->
  requests (dispatch response st).1 !! rid = requests st !! rid.
Proof.
  intros Hno. unfold dispatch.
  destruct (getField response (str "id")) as [[id'| | |]|]; try done.
  destruct (truthy (BString id')); [|done].
  destruct (messageCallbacks st !! id') as [rid'|] eqn:Hcb; [|done].
  assert (Hne : rid <> rid') by (intros ->; by apply (Hno id')).
  pose proof (callback_requests rid' response st rid Hne) as Hreq.
  destruct (callback rid' response st) as [st1 threw]. cbn [fst] in Hreq.
  destruct threw; [done|].
  by destruct (statusIncludesDone response) as [[]|].
Qed.

Lemma dispatch_noCallbackFor response st rid :
  noCallbackFor rid st -> noCallbackFor rid (dispatch response st).1.
Proof. intros Hno id Hid. by apply dispatch_callbacks, Hno in Hid. Qed.

Lemma handleData_loop_requests fuel : forall processed st rid,
  noCallbackFor rid st ->
  requests (handleData_loop fuel processed st).1 !! rid = requests st !! rid.
Proof.
  induction fuel as [|fuel IH]; intros processed st rid Hno; [done|].
  cbn [handleData_loop].
  destruct (processed <? length (buffer st))%nat; [|done].
  destruct (BencodeDecoder_run (drop processed (buffer st))) as [[response len]| |];
    [|done..].
  pose proof (dispatch_requests response st rid Hno) as Hreq.
  pose proof (dispatch_noCallbackFor response st rid Hno) as Hno'.
  destruct (dispatch response st) as [st1 threw]. cbn [fst] in *.
  destruct threw; [done|]. by rewrite IH.
Qed.

Lemma handleData_requests data st rid :
  noCallbackFor rid st ->
  requests (handleData data st) !! rid = requests st !! rid.
Proof.
  intros Hno. unfold handleData.
  pose proof (handleData_loop_requests
                (S (length (buffer (withBuffer (buffer st ++ data) st)))) 0
                (withBuffer (buffer st ++ data) st) rid Hno) as Hreq.
  destruct (handleData_loop _ 0 (withBuffer (buffer st ++ data) st)) as [st1 processed].
  cbn [fst] in Hreq. by destruct (0 <? processed)%nat.
Qed.

Lemma onTimeout_noCallbackFor now rid r deadline st :
  callbacksConsistent st ->
  requests st !! rid = Some r ->
  req_timeout r = Some deadline ->
  deadline <= now ->
  noCallbackFor rid (onTimeout now rid st).
Proof.
  intros Hst Hr Harmed Hnow id. unfold onTimeout. rewrite Hr, Harmed.
  destruct (Z.leb_spec deadline now); [|lia].
  cbn [messageCallbacks withLastError withRequests withCallbacks].
  rewrite lookup_delete. case_decide as Hid; [done|].
  intros Hrid. specialize (Hst _ _ Hrid). rewrite Hr in Hst.
  by injection Hst.
Qed.

Lemma insert_same_id (l : list Request) rid r r' rid' :
  l !! rid = Some r -> req_id r' = req_id r ->
  req_id <$> <[rid := r']> l !! rid' = req_id <$> l !! rid'.
Proof.
  intros Hr Hid. destruct (decide (rid = rid')) as [<-|Hne].
  - rewrite list_lookup_insert_eq by (by eapply lookup_lt_Some).
    rewrite Hr. cbn. by rewrite Hid.
  - by rewrite list_lookup_insert_ne.
Qed.

Lemma callback_req_id rid response st rid' :
  req_id <$> requests (callback rid response st).1 !! rid'
  = req_id <$> requests st !! rid'.
Proof.
  unfold callback. destruct (requests st !! rid) as [r|] eqn:Hr; [|done].
  destruct (statusIncludesDone response) as [[]|]; cbn [fst requests withRequests withCallbacks];
    by apply (insert_same_id _ _ r).
Qed.

Lemma dispatch_req_id response st rid' :
  req_id <$> requests (dispatch response st).1 !! rid'
  = req_id <$> requests st !! rid'.
Proof.
  unfold dispatch.
  destruct (getField response (str "id")) as [[id| | |]|]; try done.
  destruct (truthy (BString id)); [|done].
  destruct (messageCallbacks st !! id) as [rid|]; [|done].
  pose proof (callback_req_id rid response st rid') as Hid.
  destruct (callback rid response st) as [st1 threw]. cbn [fst] in Hid.
  destruct threw; [done|].
  by destruct (statusIncludesDone response) as [[]|].
Qed.

Lemma dispatch_consistent response st :
  callbacksConsistent st -> callbacksConsistent (dispatch response st).1.
Proof.
  intros Hst id rid Hcb. rewrite dispatch_req_id.
  by apply Hst, (dispatch_callbacks response).
Qed.

Lemma handleData_loop_consistent fuel : forall processed st,
  callbacksConsistent st -> callbacksConsistent (handleData_loop fuel processed st).1.
Proof.
  induction fuel as [|fuel IH]; intros processed st Hst; [done|].
  cbn [handleData_loop].
  destruct (processed <? length (buffer st))%nat; [|done].
  destruct (BencodeDecoder_run (drop processed (buffer st))) as [[response len]| |];
    [|done..].
  pose proof (dispatch_consistent response st Hst) as Hst1.
  destruct (dispatch response st) as [st1 threw]. cbn [fst] in Hst1.
  destruct threw; [done|]. by apply IH.
Qed.

Lemma handleData_consistent data st :
  callbacksConsistent st -> callbacksConsistent (handleData data st).
Proof.
  intros Hst. unfold handleData.
  pose proof (handleData_loop_consistent
                (S (length (buffer (withBuffer (buffer st ++ data) st)))) 0
                (withBuffer (buffer st ++ data) st) Hst) as Hloop.
  destruct (handleData_loop _ 0 (withBuffer (buffer st ++ data) st)) as [st1 processed].
  cbn [fst] in Hloop. by destruct (0 <? processed)%nat.
Qed.

Lemma onTimeout_consistent now rid st :
  callbacksConsistent st -> callbacksConsistent (onTimeout now rid st).
Proof.
  intros Hst. unfold onTimeout.
  destruct (requests st !! rid) as [r|] eqn:Hr; [|done].
  destruct (req_timeout r); [|done]. destruct (_ <=? now); [|done].
  intros id rid'. cbn [messageCallbacks requests withLastError withRequests withCallbacks].
  rewrite lookup_delete. case_decide; [done|]. intros Hcb.
  rewrite (insert_same_id _ _ r) by done. by apply Hst.
Qed.

Lemma onSocketClose_consistent st :
  callbacksConsistent st -> callbacksConsistent (onSocketClose st).
Proof. intros Hst. unfold onSocketClose. by destruct (noLastError _). Qed.

Lemma clone_finish_consistent responses st :
  callbacksConsistent st -> callbacksConsistent (clone_finish responses st).1.
Proof.
  intros Hst. unfold clone_finish. destruct responses as [|first later]; [done|].
  destruct (getField first (str "new-session")) as [v|]; [|done].
  by destruct (truthy v).
Qed.

Lemma eval_finish_consistent responses st :
  callbacksConsistent st -> callbacksConsistent (eval_finish responses st).1.
Proof. intros Hst. unfold eval_finish. by destruct (0 <? _)%nat. Qed.

(** One step of the client: a call of [send], an event of the socket, a
    timer, or the completion of [clone] or [eval]. *)
Inductive step (localeCompare : jsstring -> jsstring -> Z)
  : NReplClient -> NReplClient -> Prop :=
| step_send now id message st :
    step localeCompare st (send localeCompare now id message st).1
| step_data data st : step localeCompare st (handleData data st)
| step_timeout now rid st : step localeCompare st (onTimeout now rid st)
| step_error message st : step localeCompare st (onSocketError message st)
| step_close st : step localeCompare st (onSocketClose st)
| step_connect st : step localeCompare st (onSocketConnect st)
| step_clone responses st : step localeCompare st (clone_finish responses st).1
| step_eval responses st : step localeCompare st (eval_finish responses st).1.

(** Every state that the client reaches keeps its table consistent. *)
Lemma reachable_consistent localeCompare st :
  rtc (step localeCompare) newClient st -> callbacksConsistent st.
Proof.
  intros Hreach. revert st Hreach. apply rtc_ind_r.
  - apply newClient_consistent.
  - intros st st' _ Hstep IH. destruct Hstep; auto using send_consistent, handleData_consistent,
      onTimeout_consistent, onSocketClose_consistent, clone_finish_consistent,
      eval_finish_consistent.
Qed.

(** ** Deadlines *)

Lemma onTimeout_fires now rid r deadline st :
  requests st !! rid = Some r ->
  req_timeout r = Some deadline ->
  deadline <= now ->
  onTimeout now rid st
  = withLastError (Some (RequestTimedOut (req_message r)))
      (withRequests
         (<[rid := {| req_message := req_message r; req_id := req_id r;
                      req_responses := req_responses r; req_timeout := None;
                      req_promise :=
                        reject (RequestTimedOut (req_message r)) (req_promise r) |}]>
            (requests st))
         (withCallbacks (delete (req_id r) (messageCallbacks st)) st)).
Proof.
  intros Hr Harmed Hnow. unfold onTimeout. rewrite Hr, Harmed.
  by destruct (Z.leb_spec deadline now); [|lia].
Qed.

(** C8. A request is sent with a deadline [requestTimeout = 30000] after
    the time of sending. When the timer of a pending request runs at or
    after that deadline, the promise of the request is rejected with the
    time-out error that carries the original message, its entry leaves the
    table of callbacks in the same step, the other requests are as they
    were, and nothing that arrives later reaches the request: a response
    with its id is dropped without any change, and no data changes the
    record of the request. *)
Theorem request_timeout (localeCompare : jsstring -> jsstring -> Z)
    (st : NReplClient) (now : Z) (rid : nat) (r : Request) (deadline : Z) :
  callbacksConsistent st ->
  requests st !! rid = Some r ->
  req_timeout r = Some deadline ->
  req_promise r = Pending ->
  deadline <= now ->
  let st' := onTimeout now rid st in
  (forall t0 id message st0,
      req_timeout <$>
        requests (send localeCompare t0 id message st0).1
          !! (send localeCompare t0 id message st0).2
      = Some (Some (t0 + 30000)))
  /\ req_promise <$> requests st' !! rid
     = Some (Rejected (RequestTimedOut (req_message r)))
  /\ messageCallbacks st' !! req_id r = None
  /\ lastError st' = Some (RequestTimedOut (req_message r))
  /\ (forall rid', rid' <> rid -> requests st' !! rid' = requests st !! rid')
  /\ (forall response,
        getField response (str "id") = Some (BString (req_id r)) ->
        dispatch response st' = (st', false))
  /\ (forall data, requests (handleData data st') !! rid = requests st' !! rid).
Proof.
  intros Hst Hr Harmed Hpending Hnow st'.
  pose proof (onTimeout_noCallbackFor now rid r deadline st Hst Hr Harmed Hnow) as Hno.
  assert (Hlt : (rid < length (requests st))%nat) by (by eapply lookup_lt_Some).
  subst st'. rewrite (onTimeout_fires now rid r deadline st Hr Harmed Hnow) in *.
  cbn [requests messageCallbacks lastError withLastError withRequests withCallbacks].
  split_and!.
  - intros t0 id message st0. cbn [send fst snd requests].
    by rewrite list_lookup_middle.
  - rewrite list_lookup_insert_eq by done. cbn. by rewrite Hpending.
  - apply lookup_delete_eq.
  - done.
  - intros rid' Hne. by rewrite list_lookup_insert_ne.
  - intros response Hid. unfold dispatch. rewrite Hid.
    destruct (truthy (BString (req_id r))); [|done].
    cbn [messageCallbacks withLastError withRequests withCallbacks].
    by rewrite lookup_delete_eq.
  - intros data. by apply handleData_requests.
Qed.

(** ** Socket events *)

(** C6, as the code has it. The handlers of the socket's [error] and
    [close] events mark the client as not connected and record an error
    text ([close] only when none is recorded); they do not touch the table
    of callbacks nor any request, so a pending request stays pending. It
    is failed later by its own timer, with the time-out error, unless its
    terminal response arrives first. *)
Theorem socket_events_keep_requests (st : NReplClient) (message : jsstring) :
  requests (onSocketError message st) = requests st
  /\ messageCallbacks (onSocketError message st) = messageCallbacks st
  /\ connected (onSocketError message st) = false
  /\ lastError (onSocketError message st) = Some (ErrorMsg message)
  /\ requests (onSocketClose st) = requests st
  /\ messageCallbacks (onSocketClose st) = messageCallbacks st
  /\ connected (onSocketClose st) = false
  /\ lastError (onSocketClose st)
     = (if noLastError st then Some (ErrorMsg (str "Connection closed"))
        else lastError st)
  /\ (forall now rid r deadline,
        requests st !! rid = Some r ->
        req_timeout r = Some deadline ->
        req_promise r = Pending ->
        deadline <= now ->
        req_promise <$> requests (onTimeout now rid (onSocketClose st)) !! rid
        = Some (Rejected (RequestTimedOut (req_message r)))
        /\ req_promise <$> requests (onTimeout now rid (onSocketError message st)) !! rid
           = Some (Rejected (RequestTimedOut (req_message r)))).
Proof.
  assert (Hclose : requests (onSocketClose st) = requests st
                   /\ messageCallbacks (onSocketClose st) = messageCallbacks st
                   /\ connected (onSocketClose st) = false
                   /\ lastError (onSocketClose st)
                      = (if noLastError st
                         then Some (ErrorMsg (str "Connection closed"))
                         else lastError st)).
  { unfold onSocketClose.
    change (noLastError (withConnected false st)) with (noLastError st).
    by destruct (noLastError st). }
  destruct Hclose as (Hcr & Hcc & Hcn & Hce).
  split_and!; try done.
  intros now rid r deadline Hr Harmed Hpending Hnow.
  assert (Hlt : (rid < length (requests st))%nat) by (by eapply lookup_lt_Some).
  split.
  - rewrite (onTimeout_fires now rid r deadline) by (by rewrite ?Hcr).
    cbn [requests withLastError withRequests withCallbacks]. rewrite Hcr.
    rewrite list_lookup_insert_eq by done. cbn. by rewrite Hpending.
  - rewrite (onTimeout_fires now rid r deadline) by done.
    cbn [requests withLastError withRequests withCallbacks onSocketError withConnected].
    rewrite list_lookup_insert_eq by done. cbn. by rewrite Hpending.
Qed.

(** The client after one [clone] request was sent at time 0 under id [x]. *)
Definition clientAwaitingClone : NReplClient :=
  (send codeUnitCompare 0 (str "x") cloneMessage newClient).1.

(** C6, as stated, fails: after a [close] event, and after an [error]
    event, the request sent before is still pending and still registered;
    no failure was delivered to it. *)
Lemma socket_close_leaves_request_pending :
  req_promise <$> requests clientAwaitingClone !! 0%nat = Some Pending
  /\ req_promise <$> requests (onSocketClose clientAwaitingClone) !! 0%nat
     = Some Pending
  /\ messageCallbacks (onSocketClose clientAwaitingClone) !! str "x" = Some 0%nat
  /\ req_promise <$>
       requests (onSocketError (str "read ECONNRESET") clientAwaitingClone) !! 0%nat
     = Some Pending
  /\ messageCallbacks (onSocketError (str "read ECONNRESET") clientAwaitingClone)
       !! str "x"
     = Some 0%nat.
Proof. by vm_compute. Qed.

(** ** Several messages in one buffer *)

Lemma callback_withBuffer rid response b st :
  callback rid response (withBuffer b st)
  = (withBuffer b (callback rid response st).1, (callback rid response st).2).
Proof.
  unfold callback. cbn [requests withBuffer].
  destruct (requests st !! rid) as [r|]; [|done].
  by destruct (statusIncludesDone response) as [[]|].
Qed.

Lemma dispatch_withBuffer response b st :
  dispatch response (withBuffer b st)
  = (withBuffer b (dispatch response st).1, (dispatch response st).2).
Proof.
  unfold dispatch.
  destruct (getField response (str "id")) as [[id| | |]|]; try done.
  destruct (truthy (BString id)); [|done].
  cbn [messageCallbacks withBuffer].
  destruct (messageCallbacks st !! id) as [rid|]; [|done].
  rewrite callback_withBuffer.
  destruct (callback rid response st) as [st1 threw]. cbn [fst snd].
  destruct threw; [done|].
  by destruct (statusIncludesDone response) as [[]|].
Qed.

Lemma withBuffer_same st : withBuffer (buffer st) st = st.
Proof. by destruct st. Qed.

(** The loop of [handleData] stops by itself: with more fuel than bytes
    left it gives the same result whatever the fuel. *)
Lemma handleData_loop_fuel fuel1 : forall fuel2 processed st,
  (length (buffer st) - processed < fuel1)%nat ->
  (length (buffer st) - processed < fuel2)%nat ->
  handleData_loop fuel1 processed st = handleData_loop fuel2 processed st.
Proof.
  induction fuel1 as [|fuel1 IH]; intros fuel2 processed st H1 H2; [lia|].
  destruct fuel2 as [|fuel2]; [lia|]. cbn [handleData_loop].
  destruct (Nat.ltb_spec processed (length (buffer st))); [|done].
  destruct (BencodeDecoder_run (drop processed (buffer st)))
    as [[response len]| |] eqn:Hrun; [|done..].
  apply BencodeDecoder_run_progress in Hrun.
  pose proof (dispatch_buffer response st) as Hbuf.
  destruct (dispatch response st) as [st1 threw]. cbn [fst] in Hbuf.
  destruct threw; [done|]. apply IH; rewrite Hbuf; lia.
Qed.

Section Streaming.
Variable localeCompare : jsstring -> jsstring -> Z.

(** C9, on the code. Streaming: when the encodings of two values of the
    data model (two dictionaries in particular) stand one after the other
    in a buffer, decoding from the start succeeds with a processed length
    equal to the length of the first encoding, and decoding the tail left
    after that many positions succeeds with the length of the second. For
    values whose dictionaries have no key [__proto__] and whose integers
    are of magnitude at most [2^53] the values decoded are the first and
    the second, and [handleData], given both at once, hands the first and
    then the second to [dispatch] and leaves an empty buffer. Decoding
    ["5:hello"] yields ["hello"] with processed length 7. Lengths count the
    code units of the buffer. A dictionary with a key [__proto__] is not
    what comes out: from the encoding of [{"__proto__": 1, "a": 2}],
    followed by another value, [{"a": 2}] is decoded (the assignment
    [result[key] = value] of [decodeDictionary] stores nothing under that
    key). *)
Theorem decode_two_in_one_buffer (first second : BencodeValue) :
  wellFormed first -> wellFormed second ->
  let stream := encode localeCompare first ++ encode localeCompare second in
  (exists value1 value2,
      BencodeDecoder_run stream = Return (value1, length (encode localeCompare first))
      /\ BencodeDecoder_run (drop (length (encode localeCompare first)) stream)
         = Return (value2, length (encode localeCompare second))
      /\ (plain first ->
          value1 = canonical localeCompare first
          /\ sameValue (canonical localeCompare first) first)
      /\ (plain second ->
          value2 = canonical localeCompare second
          /\ sameValue (canonical localeCompare second) second)
      /\ (plain first -> plain second ->
          forall st st1 st2,
            buffer st = [] ->
            dispatch value1 st = (st1, false) ->
            dispatch value2 st1 = (st2, false) ->
            handleData stream st = st2))
  /\ BencodeDecoder_run (str "5:hello") = Return (BString (str "hello"), 7%nat)
  /\ BencodeDecoder_run (encode localeCompare protoSample ++ encode localeCompare second)
     = Return (BObject [(str "a", BNumber (Num 2))],
               length (encode localeCompare protoSample)).
Proof.
  intros Hfirst Hsecond stream.
  set (e1 := encode localeCompare first) in *.
  set (e2 := encode localeCompare second) in *.
  assert (Hrun1 : BencodeDecoder_run stream
                  = Return (received localeCompare first, length e1)).
  { by apply BencodeDecoder_run_encoded. }
  assert (Hrun2 : BencodeDecoder_run (drop (length e1) stream)
                  = Return (received localeCompare second, length e2)).
  { unfold stream. rewrite drop_app_length.
    pose proof (BencodeDecoder_run_encoded localeCompare second [] Hsecond) as Hrun.
    by rewrite app_nil_r in Hrun. }
  split_and!; [| by vm_compute |].
  - exists (received localeCompare first), (received localeCompare second).
    split_and!; [done|done| | |].
    + intros Hplain. split; [by apply received_plain|by apply canonical_sameValue].
    + intros Hplain. split; [by apply received_plain|by apply canonical_sameValue].
    + intros _ _ st st1 st2 Hempty Hd1 Hd2.
      pose proof (BencodeDecoder_run_progress _ _ _ Hrun1) as Hlen1.
      pose proof (BencodeDecoder_run_progress _ _ _ Hrun2) as Hlen2.
      assert (Hlen : length stream = (length e1 + length e2)%nat) by apply length_app.
      pose proof (dispatch_buffer (received localeCompare first) st) as Hb1.
      pose proof (dispatch_buffer (received localeCompare second) st1) as Hb2.
      rewrite Hd1 in Hb1. rewrite Hd2 in Hb2. cbn [fst] in Hb1, Hb2.
      unfold handleData. rewrite Hempty. cbn [app].
      change (buffer (withBuffer stream st)) with stream.
      replace (S (length stream)) with (S (S (S (length stream - 2)))) by lia.
      cbn [handleData_loop buffer withBuffer].
      destruct (Nat.ltb_spec 0 (length stream)); [|lia].
      rewrite drop_0, Hrun1, dispatch_withBuffer, Hd1.
      cbn [fst snd buffer withBuffer]. rewrite Nat.add_0_l.
      destruct (Nat.ltb_spec (length e1) (length stream)); [|lia].
      rewrite Hrun2, dispatch_withBuffer, Hd2. cbn [fst snd buffer withBuffer].
      destruct (Nat.ltb_spec (length e1 + length e2) (length stream)); [lia|].
      destruct (Nat.ltb_spec 0 (length e1 + length e2)); [|lia].
      rewrite <- Hlen, drop_all.
      rewrite <- (withBuffer_same st2) at 2.
      replace (buffer st2) with (@nil Z) by congruence. by destruct st2.
  - rewrite BencodeDecoder_run_encoded.
    + do 2 f_equal. unfold protoSample. rewrite received_BObject.
      cbn [array_sort sort_insert]. unfold entryCompare. cbn [fst].
      by destruct (localeCompare (str "__proto__") (str "a") <=? 0).
    + constructor; [|repeat constructor; lia].
      apply (bool_decide_unpack _). by vm_compute.
Qed.
End Streaming.

(** A message delivered in two pieces: the first piece alone does not
    decode and stays in the buffer; when the rest has come the client is
    where it would be had the message come at once. *)
Lemma handleData_split localeCompare value p q st :
  wellFormed value ->
  (forall s, value <> BString s) ->
  encode localeCompare value = p ++ q -> q <> [] ->
  buffer st = [] ->
  handleData p st = withBuffer p st
  /\ handleData q (handleData p st) = handleData (p ++ q) st.
Proof.
  intros Hwf Hnotext Henc Hq Hempty.
  destruct (BencodeDecoder_run_prefix localeCompare value p q Hwf Hnotext Henc Hq)
    as [[e Hthrow] _].
  assert (Hfirst : handleData p st = withBuffer p st).
  { unfold handleData. rewrite Hempty. cbn [app handleData_loop buffer withBuffer].
    destruct (0 <? length p)%nat; [|done]. by rewrite drop_0, Hthrow. }
  split; [done|]. rewrite Hfirst. unfold handleData.
  cbn [buffer withBuffer]. by rewrite Hempty.
Qed.


(** One response delivered in two pieces, cut inside a text: the first
    piece stays in the buffer, the second completes the request. *)
Example handleData_split_delivery :
  let st0 := (send codeUnitCompare 0 (str "x") cloneMessage newClient).1 in
  let st1 := handleData (str "d2:id1:x11:new-sess") st0 in
  let st2 := handleData (str "ion2:s16:statusl4:doneee") st1 in
  buffer st1 = str "d2:id1:x11:new-sess"
  /\ req_promise <$> requests st1 !! 0%nat = Some Pending
  /\ buffer st2 = []
  /\ st2 = handleData (str "d2:id1:x11:new-session2:s16:statusl4:doneee") st0.
Proof. by vm_compute. Qed.

(** Two responses in one piece: both reach the request, in order. *)
Example handleData_two_responses :
  let st0 := (send codeUnitCompare 0 (str "x") cloneMessage newClient).1 in
  let st1 := handleData (str "d2:id1:x3:out2:hied2:id1:x6:statusl4:doneee") st0 in
  req_promise <$> requests st1 !! 0%nat
  = Some (Resolved
            [BObject [(str "id", BString (str "x")); (str "out", BString (str "hi"))];
             BObject [(str "id", BString (str "x"));
                      (str "status", BList [BString (str "done")])]])
  /\ buffer st1 = [].
Proof. by vm_compute. Qed.

(** ** The theorems at concrete inputs *)

(** An [eval] request whose entries are not in the order of their keys. *)
Definition sampleRequest : BencodeValue :=
  BObject [(str "op", BString (str "eval"));
           (str "id", BString (str "a1"));
           (str "code", BString (str "(+ 1 2)"));
           (str "line", BNumber (Num (-42)));
           (str "tags", BList [BString []; BNumber (Num 0)])].

Definition sampleResponse : BencodeValue :=
  BObject [(str "value", BString (str "3"));
           (str "id", BString (str "a1"));
           (str "status", BList [BString (str "done")])].

Lemma sampleRequest_wellFormed : wellFormed sampleRequest.
Proof.
  constructor.
  - apply (bool_decide_unpack _). by vm_compute.
  - repeat constructor; lia.
Defined.

Lemma sampleResponse_wellFormed : wellFormed sampleResponse.
Proof.
  constructor.
  - apply (bool_decide_unpack _). by vm_compute.
  - repeat constructor.
Defined.

Lemma sampleRequest_plain : plain sampleRequest.
Proof.
  constructor.
  - apply (bool_decide_unpack _). by vm_compute.
  - repeat constructor; by vm_compute.
  - repeat constructor; lia.
Defined.

Lemma sampleResponse_plain : plain sampleResponse.
Proof.
  constructor.
  - apply (bool_decide_unpack _). by vm_compute.
  - repeat constructor; by vm_compute.
  - repeat constructor.
Defined.

Lemma decode_encode_roundtrip_sample :
  BencodeDecoder_decode (encode codeUnitCompare sampleRequest)
  = Return (canonical codeUnitCompare sampleRequest)
  /\ sameValue (canonical codeUnitCompare sampleRequest) sampleRequest.
Proof.
  destruct (decode_encode_roundtrip codeUnitCompare sampleRequest) as (Hround & _).
  exact (Hround sampleRequest_plain).
Defined.

Lemma decode_two_in_one_buffer_sample :
  exists value1 value2,
    BencodeDecoder_run
      (encode codeUnitCompare sampleRequest ++ encode codeUnitCompare sampleResponse)
    = Return (value1, length (encode codeUnitCompare sampleRequest))
    /\ BencodeDecoder_run
         (drop (length (encode codeUnitCompare sampleRequest))
            (encode codeUnitCompare sampleRequest
             ++ encode codeUnitCompare sampleResponse))
       = Return (value2, length (encode codeUnitCompare sampleResponse))
    /\ value1 = canonical codeUnitCompare sampleRequest
    /\ value2 = canonical codeUnitCompare sampleResponse.
Proof.
  destruct (decode_two_in_one_buffer codeUnitCompare sampleRequest sampleResponse
              sampleRequest_wellFormed sampleResponse_wellFormed)
    as ((value1 & value2 & Hfirst & Hsecond & Hvalue1 & Hvalue2 & _) & _).
  exists value1, value2.
  exact (conj Hfirst (conj Hsecond
           (conj (proj1 (Hvalue1 sampleRequest_plain))
                 (proj1 (Hvalue2 sampleResponse_plain))))).
Defined.

Lemma decodeInteger_not_validated_sample :
  BencodeDecoder_run (str "i-12xe3:abc")
  = Return (BNumber (Num (-12)), 6%nat).
Proof.
  destruct (decodeInteger_not_validated (str "-12x") (str "3:abc"))
    as ((n & Hrun & _ & Hvalue) & _).
  - repeat constructor; by vm_compute.
  - assert (Hn : n = parseInt (str "-12x")) by (apply Hvalue; by vm_compute).
    subst n. exact Hrun.
Defined.


Definition lateResponse : jsstring :=
  str "d2:id1:x11:new-session2:s16:statusl4:doneee".

Lemma request_timeout_sample :
  req_promise <$> requests (onTimeout 30000 0 clientAwaitingClone) !! 0%nat
  = Some (Rejected (RequestTimedOut cloneMessage))
  /\ messageCallbacks (onTimeout 30000 0 clientAwaitingClone) !! str "x" = None
  /\ requests (handleData lateResponse (onTimeout 30000 0 clientAwaitingClone)) !! 0%nat
     = requests (onTimeout 30000 0 clientAwaitingClone) !! 0%nat.
Proof.
  destruct (request_timeout codeUnitCompare clientAwaitingClone 30000 0
              {| req_message := cloneMessage; req_id := str "x"; req_responses := [];
                 req_timeout := Some 30000; req_promise := Pending |} 30000)
    as (_ & Hrejected & Hremoved & _ & _ & _ & Hlate).
  - apply send_consistent, newClient_consistent.
  - reflexivity.
  - reflexivity.
  - reflexivity.
  - lia.
  - exact (conj Hrejected (conj Hremoved (Hlate lateResponse))).
Defined.

Lemma socket_events_keep_requests_sample :
  req_promise <$>
    requests (onTimeout 30000 0 (onSocketClose clientAwaitingClone)) !! 0%nat
  = Some (Rejected (RequestTimedOut cloneMessage)).
Proof.
  destruct (socket_events_keep_requests clientAwaitingClone (str "read ECONNRESET"))
    as (_ & _ & _ & _ & _ & _ & _ & _ & Hlater).
  destruct (Hlater 30000 0%nat
              {| req_message := cloneMessage; req_id := str "x"; req_responses := [];
                 req_timeout := Some 30000; req_promise := Pending |} 30000)
    as (Hclose & _).
  - reflexivity.
  - reflexivity.
  - reflexivity.
  - lia.
  - exact Hclose.
Defined.

Lemma clone_finish_outcome_sample :
  sessionId (clone_finish [response_new_session; response_out_only] newClient).1
  = Some (BString (str "s1")).
Proof.
  destruct (clone_finish_outcome response_new_session [response_out_only] newClient)
    as (_ & _ & _ & Hsession & _).
  apply Hsession. reflexivity.
Defined.

(** * Further properties of the codec *)

(** ** Encoding what was decoded *)

Section Reencode.
Variable localeCompare : jsstring -> jsstring -> Z.
Hypothesis localeCompare_total : forall a b,
  localeCompare a b <= 0 \/ localeCompare b a <= 0.

Lemma array_sort_sorted {B} (l : list (jsstring * B)) :
  Sorted (keyLe localeCompare) l -> array_sort (entryCompare localeCompare) l = l.
Proof.
  induction 1 as [|x l Hl IH Hx]; simpl; [done|]. rewrite IH.
  destruct Hx as [|y l' Hxy]; simpl; [done|].
  unfold entryCompare at 1. unfold keyLe in Hxy.
  by destruct (Z.leb_spec (localeCompare x.1 y.1) 0); [|lia].
Qed.

Lemma array_sort_idempotent {B} (l : list (jsstring * B)) :
  array_sort (entryCompare localeCompare) (array_sort (entryCompare localeCompare) l)
  = array_sort (entryCompare localeCompare) l.
Proof. by apply array_sort_sorted, array_sort_Sorted. Qed.

Lemma canonical_entries_sorted (entries : list (jsstring * BencodeValue)) :
  array_sort (entryCompare localeCompare)
    (map (fun kv => (kv.1, canonical localeCompare kv.2))
       (array_sort (entryCompare localeCompare) entries))
  = map (fun kv => (kv.1, canonical localeCompare kv.2))
      (array_sort (entryCompare localeCompare) entries).
Proof.
  rewrite <- (array_sort_fmap (entryCompare localeCompare) (entryCompare localeCompare)
                (fun kv : jsstring * BencodeValue => (kv.1, canonical localeCompare kv.2)))
    by done.
  by rewrite array_sort_idempotent.
Qed.

Lemma encode_canonical value :
  encode localeCompare (canonical localeCompare value) = encode localeCompare value.
Proof.
  induction value as [s|n|items IH|entries IH] using BencodeValue_nested_ind.
  - done.
  - done.
  - cbn [canonical encode]. do 3 f_equal. rewrite map_map.
    apply map_ext_Forall. by rewrite Forall_forall in *.
  - rewrite canonical_BObject, !encode_BObject, canonical_entries_sorted, map_map.
    do 3 f_equal. apply map_ext_Forall.
    rewrite array_sort_Permutation. rewrite Forall_forall in *.
    intros [k v] Hkv. unfold encodeEntry. cbn [fst snd]. f_equal. by apply (IH (k, v)).
Qed.

Lemma canonical_idempotent value :
  canonical localeCompare (canonical localeCompare value) = canonical localeCompare value.
Proof.
  induction value as [s|n|items IH|entries IH] using BencodeValue_nested_ind.
  - done.
  - done.
  - cbn [canonical]. f_equal. rewrite map_map.
    apply map_ext_Forall. by rewrite Forall_forall in *.
  - rewrite !canonical_BObject, canonical_entries_sorted, map_map. f_equal.
    apply map_ext_Forall.
    rewrite array_sort_Permutation. rewrite Forall_forall in *.
    intros [k v] Hkv. cbn [fst snd]. f_equal. by apply (IH (k, v)).
Qed.

(** X1. For a value whose dictionaries have no key [__proto__] and whose
    integers are of magnitude at most [2^53]: what [decode] returns for
    its encoding encodes to the same characters again, and decoding those
    returns the same value. The decoded form is a fixed point of encoding
    followed by decoding. The comparator is taken to be total. *)
Theorem encode_decoded_value (value : BencodeValue) :
  plain value ->
  exists decoded,
    BencodeDecoder_decode (encode localeCompare value) = Return decoded
    /\ encode localeCompare decoded = encode localeCompare value
    /\ BencodeDecoder_decode (encode localeCompare decoded) = Return decoded.
Proof.
  intros Hplain. exists (canonical localeCompare value).
  assert (Hdecode : BencodeDecoder_decode (encode localeCompare value)
                    = Return (canonical localeCompare value)).
  { pose proof (BencodeDecoder_run_plain localeCompare value [] Hplain) as Hrun.
    rewrite app_nil_r in Hrun. unfold BencodeDecoder_decode. by rewrite Hrun. }
  split_and!; [done|apply encode_canonical|].
  by rewrite encode_canonical.
Qed.
End Reencode.

(** ** Encodings are self-delimiting *)

Section Delimiting.
Variable localeCompare : jsstring -> jsstring -> Z.

(** Two encodings that start the same characters end at the same place. *)
Lemma encode_split (value1 value2 : BencodeValue) (rest1 rest2 : jsstring) :
  wellFormed value1 -> wellFormed value2 ->
  encode localeCompare value1 ++ rest1 = encode localeCompare value2 ++ rest2 ->
  encode localeCompare value1 = encode localeCompare value2
  /\ rest1 = rest2
  /\ received localeCompare value1 = received localeCompare value2.
Proof.
  intros Hwf1 Hwf2 Hsame.
  pose proof (BencodeDecoder_run_encoded localeCompare value1 rest1 Hwf1) as Hrun1.
  pose proof (BencodeDecoder_run_encoded localeCompare value2 rest2 Hwf2) as Hrun2.
  rewrite Hsame, Hrun2 in Hrun1. injection Hrun1 as Hvalue Hlen.
  apply app_inj_1 in Hsame as [? ?]; done.
Qed.

Lemma encode_items_unique (items1 : list BencodeValue) :
  Forall (fun v => wellFormed v /\
            forall v2, wellFormed v2 ->
              encode localeCompare v = encode localeCompare v2 ->
              canonical localeCompare v = canonical localeCompare v2) items1 ->
  forall items2 rest1 rest2,
    Forall wellFormed items2 ->
    concat (map (encode localeCompare) items1) ++ ch_e :: rest1
    = concat (map (encode localeCompare) items2) ++ ch_e :: rest2 ->
    map (canonical localeCompare) items1 = map (canonical localeCompare) items2.
Proof.
  induction 1 as [|v1 items1 [Hwf1 Hv1] _ IH]; intros items2 rest1 rest2 Hwf2 Hsame;
    destruct Hwf2 as [|v2 items2 Hwf2 Hitems2]; cbn [map concat] in *.
  - done.
  - destruct (encode_head localeCompare v2) as (c & tl & Heq & Hc).
    rewrite Heq in Hsame. simpl in Hsame. injection Hsame as Hce _. congruence.
  - destruct (encode_head localeCompare v1) as (c & tl & Heq & Hc).
    rewrite Heq in Hsame. simpl in Hsame. injection Hsame as Hce _. congruence.
  - rewrite <- !app_assoc in Hsame.
    apply encode_split in Hsame as (Henc & Htail & _); [|done..].
    f_equal; [by apply Hv1|by eapply IH].
Qed.

Lemma encode_entries_unique (entries1 : list (jsstring * BencodeValue)) :
  Forall (fun kv => wellFormed kv.2 /\
            forall v2, wellFormed v2 ->
              encode localeCompare kv.2 = encode localeCompare v2 ->
              canonical localeCompare kv.2 = canonical localeCompare v2) entries1 ->
  forall entries2 rest1 rest2,
    Forall (fun kv => wellFormed kv.2) entries2 ->
    concat (map (encodeEntry localeCompare) entries1) ++ ch_e :: rest1
    = concat (map (encodeEntry localeCompare) entries2) ++ ch_e :: rest2 ->
    map (fun kv => (kv.1, canonical localeCompare kv.2)) entries1
    = map (fun kv => (kv.1, canonical localeCompare kv.2)) entries2.
Proof.
  induction 1 as [|[k1 v1] entries1 [Hwf1 Hv1] _ IH];
    intros entries2 rest1 rest2 Hwf2 Hsame;
    destruct Hwf2 as [|[k2 v2] entries2 Hwf2 Hentries2];
    cbn [map concat fst snd] in *.
  - done.
  - unfold encodeEntry at 1 in Hsame. cbn [fst] in Hsame.
    destruct (encodeString_head k2) as (c & tl & Heq & Hc).
    rewrite Heq in Hsame. simpl in Hsame. injection Hsame as Hce _.
    rewrite <- Hce in Hc. by vm_compute in Hc.
  - unfold encodeEntry at 1 in Hsame. cbn [fst] in Hsame.
    destruct (encodeString_head k1) as (c & tl & Heq & Hc).
    rewrite Heq in Hsame. simpl in Hsame. injection Hsame as Hce _.
    rewrite Hce in Hc. by vm_compute in Hc.
  - unfold encodeEntry at 1 3 in Hsame. cbn [fst snd] in Hsame.
    rewrite <- !app_assoc in Hsame.
    apply (encode_split (BString k1) (BString k2)) in Hsame
      as (_ & Htail & [= ->]); [|constructor..].
    apply encode_split in Htail as (Henc & Htail & _); [|done..].
    f_equal; [f_equal; by apply Hv1|by eapply IH].
Qed.

(** Values with the same encoding are the same, up to the order of the
    entries of their dictionaries. *)
Lemma encode_unique (value1 : BencodeValue) : forall value2,
  wellFormed value1 -> wellFormed value2 ->
  encode localeCompare value1 = encode localeCompare value2 ->
  canonical localeCompare value1 = canonical localeCompare value2.
Proof.
  induction value1 as [s|n|items IH|entries IH] using BencodeValue_nested_ind;
    intros value2 Hwf1 Hwf2 Hsame.
  - destruct (encode_split (BString s) value2 [] []) as (_ & _ & Hreceived);
      [done|done|by rewrite Hsame|].
    destruct value2; by try injection Hreceived as <-.
  - destruct (encode_split (BNumber n) value2 [] []) as (_ & _ & Hreceived);
      [done|done|by rewrite Hsame|].
    destruct value2; by try injection Hreceived as <-.
  - destruct (encode_split (BList items) value2 [] []) as (_ & _ & Hreceived);
      [done|done|by rewrite Hsame|].
    destruct value2 as [| |items2|]; try done. clear Hreceived.
    inversion Hwf1 as [| |? Hitems1|]; subst.
    inversion Hwf2 as [| |? Hitems2|]; subst.
    cbn [encode canonical] in *. f_equal.
    injection Hsame as Hsame.
    apply (fun H => encode_items_unique items H items2 [] []); [|done|done].
    rewrite Forall_forall in *. intros v Hv. split; [by apply Hitems1|].
    intros v2 Hv2. apply IH; [done|by apply Hitems1|done].
  - destruct (encode_split (BObject entries) value2 [] []) as (_ & _ & Hreceived);
      [done|done|by rewrite Hsame|].
    destruct value2 as [| | |entries2]; try done. clear Hreceived.
    inversion Hwf1 as [| | |? _ Hentries1]; subst.
    inversion Hwf2 as [| | |? _ Hentries2]; subst.
    rewrite !encode_BObject in Hsame. rewrite !canonical_BObject. f_equal.
    injection Hsame as Hsame.
    apply (fun H => encode_entries_unique _ H _ [] []); [| |done].
    + rewrite array_sort_Permutation. rewrite Forall_forall in *.
      intros kv Hkv. split; [by apply Hentries1|].
      intros v2 Hv2. apply (IH kv); [done|by apply Hentries1|done].
    + by rewrite array_sort_Permutation.
Qed.

End Delimiting.

(** X2. No encoding is a proper prefix of another: when two encoded
    values, each followed by anything, give the same characters, the two
    encodings are the same, what follows is the same, and both decode to
    the same value. *)
Theorem encode_prefix_free (localeCompare : jsstring -> jsstring -> Z)
    (value1 value2 : BencodeValue) (rest1 rest2 : jsstring) :
  wellFormed value1 -> wellFormed value2 ->
  encode localeCompare value1 ++ rest1 = encode localeCompare value2 ++ rest2 ->
  encode localeCompare value1 = encode localeCompare value2
  /\ rest1 = rest2
  /\ canonical localeCompare value1 = canonical localeCompare value2.
Proof.
  intros Hwf1 Hwf2 Hsame.
  destruct (encode_split localeCompare _ _ _ _ Hwf1 Hwf2 Hsame) as (Henc & Hrest & _).
  split_and!; [done|done|]. by apply encode_unique.
Qed.

(** ** The processed length *)

Lemma charIs_lt (data : jsstring) pos c :
  charIs data pos c = true -> (pos < length data)%nat.
Proof.
  unfold charIs. destruct (data !! pos) eqn:Hlookup; [|done].
  intros _. by eapply lookup_lt_Some.
Qed.

Lemma decodeInteger_loop_at_e fuel : forall data pos pos',
  decodeInteger_loop fuel data pos = Return pos' -> charIs data pos' ch_e = true.
Proof.
  induction fuel as [|fuel IH]; intros data pos pos'; simpl; [done|].
  destruct (charIs data pos ch_e) eqn:He; [by intros [= <-]|].
  destruct (length data <=? pos)%nat; [done|]. apply IH.
Qed.

(** No successful call moves the position past the end of the data. *)
Lemma decode_bound fuel :
  (forall data pos value pos',
      decode fuel data pos = Return (value, pos') -> (pos' <= length data)%nat)
  /\ (forall data pos result items pos',
      decodeList_loop fuel data pos result = Return (items, pos') ->
      (pos' <= length data)%nat)
  /\ (forall data pos result entries pos',
      decodeDictionary_loop fuel data pos result = Return (entries, pos') ->
      (pos' <= length data)%nat).
Proof.
  induction fuel as [|fuel (IHv & IHl & IHd)]; [done|]. split_and!.
  - intros data pos value pos'. rewrite decode_unfold.
    destruct (charIs data pos ch_i).
    { unfold decodeInteger.
      destruct (decodeInteger_loop fuel data (S pos)) as [p| |] eqn:Hloop;
        cbn [mbind outcome_bind]; [|done..].
      intros [= _ <-]. by apply decodeInteger_loop_at_e, charIs_lt in Hloop. }
    destruct (charIs data pos ch_l).
    { destruct (decodeList_loop fuel data (S pos) []) as [[items p]| |] eqn:Hcall;
        cbn [mbind outcome_bind]; [|done..].
      intros [= _ <-]. by apply IHl in Hcall. }
    destruct (charIs data pos ch_d).
    { destruct (decodeDictionary_loop fuel data (S pos) []) as [[entries p]| |]
        eqn:Hcall; cbn [mbind outcome_bind]; [|done..].
      intros [= _ <-]. by apply IHd in Hcall. }
    destruct (charIsDigit data pos); [|done].
    unfold decodeString.
    destruct (indexOf data ch_colon pos) as [colonPos|] eqn:Hcolon; [|done].
    apply indexOf_bound in Hcolon.
    destruct (decodeString_loop fuel data _ (S colonPos) 0) as [p| |] eqn:Hloop;
      cbn [mbind outcome_bind]; [|done..].
    apply decodeString_loop_bound in Hloop; [|lia].
    destruct (length data <? p)%nat; [done|]. by intros [= _ <-].
  - intros data pos result items pos'. rewrite decodeList_loop_unfold.
    destruct (charIs data pos ch_e) eqn:He.
    { intros [= _ <-]. by apply charIs_lt in He. }
    destruct (length data <=? pos)%nat; [done|].
    destruct (decode fuel data pos) as [[v p]| |] eqn:Hv;
      cbn [mbind outcome_bind]; [|done..].
    apply IHl.
  - intros data pos result entries pos'. rewrite decodeDictionary_loop_unfold.
    destruct (charIs data pos ch_e) eqn:He.
    { intros [= _ <-]. by apply charIs_lt in He. }
    destruct (length data <=? pos)%nat; [done|].
    destruct (decode fuel data pos) as [[key p]| |] eqn:Hkey;
      cbn [mbind outcome_bind]; [|done..].
    destruct key; try done.
    destruct (decode fuel data p) as [[v p']| |] eqn:Hv;
      cbn [mbind outcome_bind]; [|done..].
    apply IHd.
Qed.

(** X3. When decoding succeeds, [getProcessedLength] is at least one and
    at most the length of the data, whatever the data: a caller that cuts
    the processed part off its buffer always makes progress and never
    cuts more than it holds. *)
Theorem getProcessedLength_bounds (data : jsstring) (value : BencodeValue) (len : nat) :
  BencodeDecoder_run data = Return (value, len) ->
  (0 < len <= length data)%nat.
Proof.
  intros Hrun. split.
  - by apply BencodeDecoder_run_progress in Hrun.
  - unfold BencodeDecoder_run in Hrun.
    destruct (decode_bound (decodeFuel data)) as (Hv & _ & _). by apply Hv in Hrun.
Qed.

(** ** Bounds of the byte length *)

(** X4. For a string of code units, [getUTF8ByteLength] lies between the
    length of the string and three times that length, it is the length
    itself when every character is ASCII, and it adds up over
    concatenation. *)
Theorem getUTF8ByteLength_bounds (s : jsstring) :
  Forall (fun c => 0 <= c < 65536) s ->
  Z.of_nat (length s) <= getUTF8ByteLength s <= 3 * Z.of_nat (length s)
  /\ (Forall (fun c => c < 128) s -> getUTF8ByteLength s = Z.of_nat (length s))
  /\ (forall s', getUTF8ByteLength (s ++ s')
                 = getUTF8ByteLength s + getUTF8ByteLength s').
Proof.
  intros Hunits. split; [|split].
  - induction Hunits as [|c s Hc _ IH]; [done|].
    rewrite getUTF8ByteLength_cons. cbn [length]. rewrite Nat2Z.inj_succ.
    assert (1 <= charByteLength c <= 3); [|lia].
    unfold charByteLength. repeat case_match; lia.
  - clear Hunits. intros Hascii. induction Hascii as [|c s Hc _ IH]; [done|].
    rewrite getUTF8ByteLength_cons, IH. cbn [length].
    rewrite Nat2Z.inj_succ. unfold charByteLength.
    destruct (Z.ltb_spec c 128); lia.
  - intros s'. apply getUTF8ByteLength_app.
Qed.

(** ** The length prefix of a string *)

Lemma takeWhile_app_stop p (s junk : jsstring) :
  Forall (fun c => p c = true) s ->
  match junk with [] => True | c :: _ => p c = false end ->
  takeWhile p (s ++ junk) = s.
Proof.
  intros Hs Hjunk. induction Hs as [|c s Hc _ IH]; simpl.
  - destruct junk as [|c junk]; [done|]. simpl. by rewrite Hjunk.
  - by rewrite Hc, IH.
Qed.

(** [parseInt] reads the leading digits and ignores what follows them. *)
Lemma parseInt_leading_digits (c : Z) (ds junk : jsstring) :
  Forall (fun c => isDigit c = true) (c :: ds) ->
  match junk with [] => True | x :: _ => isDigit x = false end ->
  parseInt ((c :: ds) ++ junk) = Num (digitsValue (c :: ds)).
Proof.
  intros Hds Hjunk. assert (Hc : isDigit c = true) by (by inversion Hds).
  unfold parseInt. cbn [app dropWhile]. rewrite (isDigit_not_space c Hc).
  apply isDigit_spec in Hc.
  destruct (Z.eqb_spec c ch_minus) as [->|_]; [unfold ch_minus in Hc; lia|].
  destruct (Z.eqb_spec c ch_plus) as [->|_]; [unfold ch_plus in Hc; lia|].
  change (c :: ds ++ junk) with ((c :: ds) ++ junk).
  rewrite (takeWhile_app_stop isDigit (c :: ds) junk Hds Hjunk).
  f_equal. lia.
Qed.

Lemma decodeString_any_prefix (pre s : jsstring) fuel data l1 rest :
  data = l1 ++ pre ++ ch_colon :: s ++ rest ->
  Forall (fun c => c <> ch_colon) pre ->
  parseInt pre = Num (getUTF8ByteLength s) ->
  (length s < fuel)%nat ->
  decodeString fuel data (length l1)
  = Return (s, length l1 + length pre + 1 + length s)%nat.
Proof.
  intros Hdata Hpre Hparse Hfuel.
  assert (Hidx : indexOf data ch_colon (length l1) = Some (length l1 + length pre)%nat).
  { rewrite Hdata. by apply indexOf_app. }
  assert (Hslice : slice data (length l1) (length l1 + length pre) = pre).
  { rewrite Hdata. apply slice_app_all. }
  unfold decodeString. rewrite Hidx, Hslice, Hparse.
  rewrite (decodeString_loop_all s _ data (l1 ++ pre ++ [ch_colon]) [] rest
             (getUTF8ByteLength s));
    [| by rewrite Hdata, <- !app_assoc | done
     | rewrite !length_app; simpl; lia | done | done ].
  cbn [mbind outcome_bind].
  assert (Hlen : length data = (length l1 + length pre + 1 + length s + length rest)%nat).
  { rewrite Hdata, !length_app. simpl. rewrite length_app. lia. }
  destruct (Nat.ltb_spec (length data) (S (length l1 + length pre) + length s));
    [lia|].
  f_equal. f_equal; [|lia].
  replace data with ((l1 ++ pre ++ [ch_colon]) ++ s ++ rest)
    by (by rewrite Hdata, <- !app_assoc).
  replace (S (length l1 + length pre)) with (length (l1 ++ pre ++ [ch_colon]))
    by (rewrite !length_app; simpl; lia).
  apply slice_app_all.
Qed.

(** X5. The length prefix of a string is not validated: the characters
    from the first digit to the colon are read with [parseInt], so
    leading zeros, and any junk without a colon after the digits, are
    accepted; the string of that many bytes after the colon is returned,
    and what follows it is left unread. *)
Theorem decodeString_prefix_not_validated (c : Z) (ds junk s rest : jsstring) :
  Forall (fun x => isDigit x = true) (c :: ds) ->
  match junk with [] => True | x :: _ => isDigit x = false end ->
  Forall (fun x => x <> ch_colon) junk ->
  digitsValue (c :: ds) = getUTF8ByteLength s ->
  BencodeDecoder_run ((c :: ds) ++ junk ++ ch_colon :: s ++ rest)
  = Return (BString s, (length (c :: ds) + length junk + 1 + length s)%nat).
Proof.
  intros Hds Hjunk Hnocolon Hvalue.
  assert (Hc : isDigit c = true) by (by inversion Hds).
  apply isDigit_spec in Hc as Hc'.
  set (data := (c :: ds) ++ junk ++ ch_colon :: s ++ rest).
  assert (Hlen : (length s + 2 <= length data)%nat).
  { unfold data. rewrite !length_app. simpl. rewrite length_app. lia. }
  unfold BencodeDecoder_run, decodeFuel.
  replace (2 * length data + 1)%nat with (S (2 * length data)) by lia.
  rewrite decode_unfold.
  assert (Hat : forall x, charIs data 0 x = (c =? x))
    by apply (charIs_at data [] c (ds ++ junk ++ ch_colon :: s ++ rest) eq_refl).
  assert (Hdigit : charIsDigit data 0 = isDigit c)
    by apply (charIsDigit_at data [] c (ds ++ junk ++ ch_colon :: s ++ rest) eq_refl).
  rewrite !Hat, Hdigit, Hc.
  destruct (Z.eqb_spec c ch_i) as [->|_]; [unfold ch_i in Hc'; lia|].
  destruct (Z.eqb_spec c ch_l) as [->|_]; [unfold ch_l in Hc'; lia|].
  destruct (Z.eqb_spec c ch_d) as [->|_]; [unfold ch_d in Hc'; lia|].
  change 0%nat with (length (@nil Z)) at 1.
  rewrite (decodeString_any_prefix ((c :: ds) ++ junk) s _ data [] rest).
  - cbn [mbind outcome_bind]. do 2 f_equal. rewrite length_app. simpl. lia.
  - unfold data. by rewrite <- !app_assoc.
  - apply Forall_app. split; [|done].
    eapply Forall_impl; [exact Hds|]. intros x Hx ->. by vm_compute in Hx.
  - rewrite parseInt_leading_digits by done. by rewrite Hvalue.
  - lia.
Qed.

(** ** Dictionaries and lists on the wire *)

Lemma objectGet_objectSet {B} (entries : list (jsstring * B)) key value key' :
  objectGet (objectSet entries key value) key'
  = if decide (key = key') then Some value else objectGet entries key'.
Proof.
  induction entries as [|[k v] entries IH]; simpl.
  - done.
  - destruct (decide (k = key)) as [->|Hne]; simpl.
    + by destruct (decide (key = key')).
    + rewrite IH. destruct (decide (k = key')) as [->|]; [|done].
      by destruct (decide (key = key')).
Qed.

Lemma objectGet_app {B} (e1 e2 : list (jsstring * B)) key :
  objectGet (e1 ++ e2) key
  = match objectGet e1 key with Some v => Some v | None => objectGet e2 key end.
Proof.
  induction e1 as [|[k v] e1 IH]; simpl; [done|]. by destruct (decide (k = key)).
Qed.

Lemma objectGet_elem_of {B} (entries : list (jsstring * B)) key value :
  objectGet entries key = Some value -> (key, value) ∈ entries.
Proof.
  induction entries as [|[k v] entries IH]; cbn [objectGet fst snd]; [done|].
  destruct (decide (k = key)) as [->|_].
  - intros [= ->]. by left.
  - intros Hget. right. by apply IH.
Qed.

Lemma objectGet_propertySet {B} (entries : list (jsstring * B)) key value key' :
  objectGet (propertySet entries key value) key'
  = if decide (key = str "__proto__") then objectGet entries key'
    else if decide (key = key') then Some value else objectGet entries key'.
Proof.
  unfold propertySet. destruct (decide (key = str "__proto__")); [done|].
  apply objectGet_objectSet.
Qed.

(** After the entries were assigned one after the other, a key other than
    [__proto__] holds the value of the last entry that names it. *)
Lemma objectGet_fold {B C} (g : B -> C) (entries : list (jsstring * B)) :
  forall (acc : list (jsstring * C)) key,
    key <> str "__proto__" ->
    objectGet (fold_left (fun result kv => propertySet result kv.1 (g kv.2)) entries acc)
      key
    = match objectGet (reverse entries) key with
      | Some v => Some (g v)
      | None => objectGet acc key
      end.
Proof.
  induction entries as [|[k v] entries IH]; intros acc key Hkey; [done|].
  cbn [fold_left fst snd].
  rewrite IH, reverse_cons, objectGet_app, objectGet_propertySet by done.
  destruct (objectGet (reverse entries) key); [done|].
  destruct (decide (k = str "__proto__")) as [->|_]; cbn [objectGet fst snd].
  - rewrite decide_False; [done|]. by intros <-.
  - by destruct (decide (k = key)).
Qed.

(** No assignment makes [__proto__] an entry. *)
Lemma objectGet_fold_proto {B C} (g : B -> C) (entries : list (jsstring * B)) :
  forall (acc : list (jsstring * C)),
    objectGet (fold_left (fun result kv => propertySet result kv.1 (g kv.2)) entries acc)
      (str "__proto__")
    = objectGet acc (str "__proto__").
Proof.
  induction entries as [|[k v] entries IH]; intros acc; [done|].
  cbn [fold_left fst snd]. rewrite IH, objectGet_propertySet.
  by destruct (decide (k = str "__proto__")).
Qed.

Section WireDictionaries.
Variable localeCompare : jsstring -> jsstring -> Z.

Abbreviation enc := (encode localeCompare).
Abbreviation encEntry := (encodeEntry localeCompare).

Lemma entries_decodesTo (entries : list (jsstring * BencodeValue)) :
  Forall (fun kv => wellFormed kv.2) entries ->
  Forall (fun kv => decodesTo (enc kv.2) (received localeCompare kv.2)) entries.
Proof.
  intros Hwf. eapply Forall_impl; [exact Hwf|].
  intros kv Hkv. by apply encode_decodesTo.
Qed.

Lemma items_decodesTo (items : list BencodeValue) :
  Forall wellFormed items ->
  Forall (fun v => decodesTo (enc v) (received localeCompare v)) items.
Proof.
  intros Hwf. eapply Forall_impl; [exact Hwf|].
  intros v Hv. by apply encode_decodesTo.
Qed.

Lemma encodeEntry_length kv : (4 <= length (encEntry kv))%nat.
Proof.
  unfold encodeEntry. rewrite length_app.
  assert (Hk : (2 <= length (encodeString kv.1))%nat).
  { rewrite encodeString_eq, length_app.
    destruct (natToString_cons (getUTF8ByteLength kv.1)) as (c & ds & ->).
    simpl. lia. }
  assert (Hv : (2 <= length (enc kv.2))%nat); [|lia].
  destruct kv.2 as [s|n|items|entries].
  - cbn [encode]. rewrite encodeString_eq, length_app.
    destruct (natToString_cons (getUTF8ByteLength s)) as (c & ds & ->).
    simpl. lia.
  - cbn [encode]. rewrite !length_app. simpl. lia.
  - cbn [encode]. rewrite !length_app. simpl. lia.
  - rewrite encode_BObject, !length_app. simpl. lia.
Qed.

Lemma entries_length (entries : list (jsstring * BencodeValue)) :
  (4 * length entries <= length (concat (map encEntry entries)))%nat.
Proof.
  induction entries as [|kv entries IH]; [done|].
  cbn [map concat length]. rewrite length_app.
  pose proof (encodeEntry_length kv). lia.
Qed.

(** The loop of [decodeDictionary] over whole entries, whatever follows
    them: one turn of the loop per entry. *)
Lemma decodeDictionary_loop_entries (entries : list (jsstring * BencodeValue)) :
  Forall (fun kv => decodesTo (enc kv.2) (received localeCompare kv.2)) entries ->
  forall fuel data l1 rest acc,
    data = l1 ++ concat (map encEntry entries) ++ rest ->
    (2 * length (concat (map encEntry entries)) + 1 <= fuel)%nat ->
    decodeDictionary_loop fuel data (length l1) acc
    = decodeDictionary_loop (fuel - length entries) data
        (length l1 + length (concat (map encEntry entries)))
        (fold_left (fun result kv => propertySet result kv.1 (received localeCompare kv.2))
           entries acc).
Proof.
  induction 1 as [|[k v] entries Hv _ IH]; intros fuel data l1 rest acc Hdata Hfuel.
  - cbn. by rewrite Nat.sub_0_r, Nat.add_0_r.
  - destruct fuel as [|fuel]; [lia|].
    assert (Hcat : concat (map encEntry ((k, v) :: entries))
                   = encodeString k ++ enc v ++ concat (map encEntry entries)).
    { cbn [map concat]. unfold encodeEntry at 1. by rewrite <- app_assoc. }
    rewrite Hcat in *. clear Hcat. cbn [fold_left fst snd length] in *.
    rewrite !length_app in Hfuel.
    destruct (encodeString_head k) as (c & tl & Heq & Hc).
    assert (Hd : data = l1 ++ c :: tl ++ enc v ++ concat (map encEntry entries) ++ rest).
    { rewrite Hdata, Heq. simpl. by rewrite <- !app_assoc. }
    rewrite decodeDictionary_loop_unfold.
    rewrite (charIs_at _ _ _ _ Hd), (at_end_at _ _ _ _ Hd).
    destruct (Z.eqb_spec c ch_e) as [->|_]; [by vm_compute in Hc|].
    rewrite (decodesTo_string k fuel data l1
               (enc v ++ concat (map encEntry entries) ++ rest));
      [|by rewrite Hdata, <- !app_assoc|lia].
    cbn [mbind outcome_bind]. rewrite <- length_app.
    rewrite (Hv fuel data (l1 ++ encodeString k) (concat (map encEntry entries) ++ rest));
      [|by rewrite Hdata, <- !app_assoc|lia].
    cbn [mbind outcome_bind]. rewrite <- length_app.
    rewrite (IH fuel data ((l1 ++ encodeString k) ++ enc v) rest);
      [|by rewrite Hdata, <- !app_assoc|].
    + f_equal. rewrite !length_app. lia.
    + destruct (encode_head localeCompare v) as (c' & tl' & Heq' & _).
      rewrite Heq, Heq' in Hfuel. simpl in Hfuel. lia.
Qed.

Lemma decodeList_loop_items (items : list BencodeValue) :
  Forall (fun v => decodesTo (enc v) (received localeCompare v)) items ->
  forall fuel data l1 rest acc,
    data = l1 ++ concat (map enc items) ++ rest ->
    (2 * length (concat (map enc items)) + 1 <= fuel)%nat ->
    decodeList_loop fuel data (length l1) acc
    = decodeList_loop (fuel - length items) data
        (length l1 + length (concat (map enc items)))
        (acc ++ map (received localeCompare) items).
Proof.
  induction 1 as [|v items Hv _ IH]; intros fuel data l1 rest acc Hdata Hfuel.
  - cbn. by rewrite Nat.sub_0_r, Nat.add_0_r, app_nil_r.
  - destruct fuel as [|fuel]; [lia|].
    cbn [map concat length] in *. rewrite length_app in *.
    destruct (encode_head localeCompare v) as (c & tl & Heq & Hc).
    assert (Hd : data = l1 ++ c :: tl ++ concat (map enc items) ++ rest).
    { rewrite Hdata, Heq. simpl. by rewrite <- app_assoc. }
    rewrite decodeList_loop_unfold.
    rewrite (charIs_at _ _ _ _ Hd), (at_end_at _ _ _ _ Hd).
    destruct (Z.eqb_spec c ch_e); [done|].
    rewrite (Hv fuel data l1 (concat (map enc items) ++ rest));
      [|by rewrite Hdata, <- app_assoc|lia].
    cbn [mbind outcome_bind]. rewrite <- length_app.
    rewrite (IH fuel data (l1 ++ enc v) rest);
      [|by rewrite Hdata, <- !app_assoc|rewrite Heq in *; simpl in *; lia].
    rewrite <- app_assoc. f_equal. rewrite length_app. lia.
Qed.
Lemma items_length (items : list BencodeValue) :
  (length items <= length (concat (map enc items)))%nat.
Proof.
  induction items as [|v items IH]; [done|].
  cbn [map concat length]. rewrite length_app.
  destruct (encode_head localeCompare v) as (c & tl & -> & _). simpl. lia.
Qed.

Lemma decode_at_d fuel (body : jsstring) :
  decode (S fuel) (ch_d :: body) 0
  = '(entries, pos') ← decodeDictionary_loop fuel (ch_d :: body) 1 [];
    Return (BObject entries, pos').
Proof. reflexivity. Qed.

Lemma decode_at_l fuel (body : jsstring) :
  decode (S fuel) (ch_l :: body) 0
  = '(items, pos') ← decodeList_loop fuel (ch_l :: body) 1 [];
    Return (BList items, pos').
Proof. reflexivity. Qed.

(** X6. The decoder does not ask for sorted or unique keys: a dictionary
    whose entries stand in any order, with or without repeated keys, is
    decoded, and each key other than [__proto__] is an entry of the result
    with the value of the last entry written for it. An entry written
    under [__proto__] is not an entry of the result: the assignment
    [result[key] = value] stores no property of that name. The values of
    the entries have no key [__proto__] at any depth and integers of
    magnitude at most [2^53]. *)
Theorem decodeDictionary_any_order (entries : list (jsstring * BencodeValue))
    (rest : jsstring) :
  Forall (fun kv => plain kv.2) entries ->
  exists result,
    BencodeDecoder_run (ch_d :: concat (map encEntry entries) ++ ch_e :: rest)
    = Return (BObject result, (length (concat (map encEntry entries)) + 2)%nat)
    /\ objectGet result (str "__proto__") = None
    /\ forall key,
         key <> str "__proto__" ->
         objectGet result key
         = canonical localeCompare <$> objectGet (reverse entries) key.
Proof.
  intros Hplain.
  assert (Hwf : Forall (fun kv => wellFormed kv.2) entries).
  { eapply Forall_impl; [exact Hplain|]. intros kv. apply plain_wellFormed. }
  eexists. split_and!.
  - unfold BencodeDecoder_run, decodeFuel.
    set (data := ch_d :: concat (map encEntry entries) ++ ch_e :: rest).
    replace (2 * length data + 1)%nat with (S (2 * length data)) by lia.
    unfold data at 2. rewrite decode_at_d. fold data.
    rewrite (decodeDictionary_loop_encoded localeCompare entries
               (entries_decodesTo entries Hwf) _ data [ch_d] rest []);
      [|done|unfold data; simpl; rewrite length_app; lia].
    cbn [mbind outcome_bind]. do 2 f_equal. simpl. lia.
  - by rewrite objectGet_fold_proto.
  - intros key Hkey. rewrite objectGet_fold by done.
    destruct (objectGet (reverse entries) key) as [v|] eqn:Hget; [|done].
    cbn. f_equal. apply received_plain.
    apply objectGet_elem_of in Hget. rewrite elem_of_reverse in Hget.
    rewrite Forall_forall in Hplain. by apply (Hplain (key, v)).
Qed.

(** X7. A dictionary key that is not a string is refused: when, after any
    number of whole entries, an integer, a list or a dictionary stands
    where a key is expected, decoding fails with "Dictionary key must be a
    string", whatever follows. *)
Theorem decodeDictionary_key_must_be_string (entries : list (jsstring * BencodeValue))
    (key : BencodeValue) (rest : jsstring) :
  Forall (fun kv => wellFormed kv.2) entries ->
  wellFormed key ->
  (forall s, key <> BString s) ->
  BencodeDecoder_run (ch_d :: concat (map encEntry entries) ++ enc key ++ rest)
  = Throw DictionaryKeyMustBeString.
Proof.
  intros Hwf Hkey Hnotext.
  unfold BencodeDecoder_run, decodeFuel.
  set (data := ch_d :: concat (map encEntry entries) ++ enc key ++ rest).
  assert (Hlen : length data
                 = (1 + length (concat (map encEntry entries)) + length (enc key)
                    + length rest)%nat).
  { unfold data. simpl. rewrite !length_app. lia. }
  replace (2 * length data + 1)%nat with (S (2 * length data)) by lia.
  unfold data at 2. rewrite decode_at_d. fold data.
  change (decodeDictionary_loop (2 * length data) data 1 [])
    with (decodeDictionary_loop (2 * length data) data (length [ch_d]) []).
  rewrite (decodeDictionary_loop_entries entries (entries_decodesTo entries Hwf)
             _ data [ch_d] (enc key ++ rest)); [|done|lia].
  pose proof (entries_length entries) as Hn.
  destruct (encode_head localeCompare key) as (c & tl & Hhead & Hc).
  destruct (2 * length data - length entries)%nat as [|fuel] eqn:Hfuel; [lia|].
  rewrite decodeDictionary_loop_unfold.
  assert (Hd : data = ([ch_d] ++ concat (map encEntry entries)) ++ c :: tl ++ rest).
  { unfold data. rewrite Hhead. simpl. by rewrite <- ?app_assoc. }
  rewrite <- length_app.
  rewrite (charIs_at _ _ _ _ Hd), (at_end_at _ _ _ _ Hd).
  destruct (Z.eqb_spec c ch_e); [done|].
  rewrite (encode_decodesTo localeCompare key Hkey fuel data
             ([ch_d] ++ concat (map encEntry entries)) rest);
    [|unfold data; simpl; by rewrite <- ?app_assoc|lia].
  cbn [mbind outcome_bind].
  destruct key as [s| | |]; [by destruct (Hnotext s)|done..].
Qed.

(** X8. Which error a cut at the end of an item gives: a list whose items
    are whole but which is not closed fails with "Unterminated list", a
    dictionary whose entries are whole but which is not closed fails with
    "Unterminated dictionary", and a dictionary that ends after a key
    fails with "Invalid bencode data" at the position where the value
    should start. *)
Theorem decode_not_closed (items : list BencodeValue)
    (entries : list (jsstring * BencodeValue)) (key : jsstring) :
  Forall wellFormed items ->
  Forall (fun kv => wellFormed kv.2) entries ->
  BencodeDecoder_run (ch_l :: concat (map enc items)) = Throw UnterminatedList
  /\ BencodeDecoder_run (ch_d :: concat (map encEntry entries))
     = Throw UnterminatedDictionary
  /\ BencodeDecoder_run (ch_d :: concat (map encEntry entries) ++ encodeString key)
     = Throw (InvalidBencodeData
                (1 + length (concat (map encEntry entries))
                 + length (encodeString key))).
Proof.
  intros Hitems Hentries. split_and!.
  - unfold BencodeDecoder_run, decodeFuel.
    set (data := ch_l :: concat (map enc items)).
    assert (Hlen : length data = (1 + length (concat (map enc items)))%nat) by done.
    replace (2 * length data + 1)%nat with (S (2 * length data)) by lia.
    unfold data at 2. rewrite decode_at_l. fold data.
    change (decodeList_loop (2 * length data) data 1 [])
      with (decodeList_loop (2 * length data) data (length [ch_l]) []).
    rewrite (decodeList_loop_items items (items_decodesTo items Hitems)
               _ data [ch_l] []); [|unfold data; by rewrite app_nil_r|lia].
    pose proof (items_length items) as Hn.
    destruct (2 * length data - length items)%nat as [|fuel] eqn:Hfuel; [lia|].
    rewrite decodeList_loop_unfold, charIs_end by (simpl; lia).
    by destruct (Nat.leb_spec (length data)
                   (length [ch_l] + length (concat (map enc items)))); [|simpl in *; lia].
  - unfold BencodeDecoder_run, decodeFuel.
    set (data := ch_d :: concat (map encEntry entries)).
    assert (Hlen : length data = (1 + length (concat (map encEntry entries)))%nat)
      by done.
    replace (2 * length data + 1)%nat with (S (2 * length data)) by lia.
    unfold data at 2. rewrite decode_at_d. fold data.
    change (decodeDictionary_loop (2 * length data) data 1 [])
    with (decodeDictionary_loop (2 * length data) data (length [ch_d]) []).
    rewrite (decodeDictionary_loop_entries entries (entries_decodesTo entries Hentries)
               _ data [ch_d] []); [|unfold data; by rewrite app_nil_r|lia].
    pose proof (entries_length entries) as Hn.
    destruct (2 * length data - length entries)%nat as [|fuel] eqn:Hfuel; [lia|].
    rewrite decodeDictionary_loop_unfold, charIs_end by (simpl; lia).
    by destruct (Nat.leb_spec (length data)
                   (length [ch_d] + length (concat (map encEntry entries))));
      [|simpl in *; lia].
  - unfold BencodeDecoder_run, decodeFuel.
    set (data := ch_d :: concat (map encEntry entries) ++ encodeString key).
    assert (Hlen : length data
                   = (1 + length (concat (map encEntry entries))
                      + length (encodeString key))%nat).
    { unfold data. simpl. rewrite length_app. lia. }
    replace (2 * length data + 1)%nat with (S (2 * length data)) by lia.
    unfold data at 2. rewrite decode_at_d. fold data.
    change (decodeDictionary_loop (2 * length data) data 1 [])
      with (decodeDictionary_loop (2 * length data) data (length [ch_d]) []).
    rewrite (decodeDictionary_loop_entries entries (entries_decodesTo entries Hentries)
               _ data [ch_d] (encodeString key)); [|done|lia].
    pose proof (entries_length entries) as Hn.
    destruct (encodeString_head key) as (c & tl & Hhead & Hc).
    destruct (2 * length data - length entries)%nat as [|fuel] eqn:Hfuel; [lia|].
    rewrite decodeDictionary_loop_unfold.
    assert (Hd : data = ([ch_d] ++ concat (map encEntry entries)) ++ c :: tl).
    { unfold data. rewrite Hhead. simpl. by rewrite <- ?app_assoc. }
    rewrite <- length_app.
    rewrite (charIs_at _ _ _ _ Hd), (at_end_at _ _ _ _ Hd).
    destruct (Z.eqb_spec c ch_e) as [->|_]; [by vm_compute in Hc|].
    rewrite (decodesTo_string key fuel data
               ([ch_d] ++ concat (map encEntry entries)) []);
      [|unfold data; simpl; by rewrite ?app_nil_r, <- ?app_assoc|lia].
    cbn [mbind outcome_bind].
    assert (Hend : (length ([ch_d] ++ concat (map encEntry entries))
                    + length (encodeString key))%nat = length data).
    { rewrite Hlen, length_app. simpl. lia. }
    rewrite Hend.
    destruct fuel as [|fuel']; [rewrite Hhead in *; simpl in *; lia|].
    rewrite decode_unfold, !charIs_end, charIsDigit_end by done.
    cbn [mbind outcome_bind]. do 2 f_equal. lia.
Qed.
End WireDictionaries.

(** * Further properties of the client *)

(** ** A stream of messages, in any chunks *)

(** The responses are handed to [dispatch] one after the other and none
    makes the callback throw. *)
Fixpoint accepts (responses : list BencodeValue) (st : NReplClient) : Prop :=
  match responses with
  | [] => True
  | r :: responses' =>
      (dispatch r st).2 = false /\ accepts responses' (dispatch r st).1
  end.

(** The state after the responses were dispatched in order. *)
Definition dispatchAll (responses : list BencodeValue) (st : NReplClient)
  : NReplClient :=
  fold_left (fun s r => (dispatch r s).1) responses st.

Lemma callback_no_throw rid response st :
  statusIncludesDone response <> None -> (callback rid response st).2 = false.
Proof.
  intros Hstatus. unfold callback. destruct (requests st !! rid); [|done].
  by destruct (statusIncludesDone response) as [[]|].
Qed.

Lemma dispatch_no_throw response st :
  statusIncludesDone response <> None -> (dispatch response st).2 = false.
Proof.
  intros Hstatus. unfold dispatch.
  destruct (getField response (str "id")) as [[id| | |]|]; try done.
  destruct (truthy (BString id)); [|done].
  destruct (messageCallbacks st !! id) as [rid|]; [|done].
  pose proof (callback_no_throw rid response st Hstatus) as Hcall.
  destruct (callback rid response st) as [st1 threw]. cbn [snd] in Hcall. subst threw.
  by destruct (statusIncludesDone response) as [[]|].
Qed.

Lemma accepts_typed responses : forall st,
  Forall (fun r => statusIncludesDone r <> None) responses -> accepts responses st.
Proof.
  induction responses as [|r responses IH]; intros st Hstatus; [done|].
  apply Forall_cons in Hstatus as [Hr Hstatus]. split.
  - by apply dispatch_no_throw.
  - by apply IH.
Qed.

Lemma dispatchAll_cons r responses st :
  dispatchAll (r :: responses) st = dispatchAll responses (dispatch r st).1.
Proof. done. Qed.


Lemma dispatchAll_withBuffer responses : forall b st,
  dispatchAll responses (withBuffer b st) = withBuffer b (dispatchAll responses st).
Proof.
  induction responses as [|r responses IH]; intros b st; [done|].
  rewrite !dispatchAll_cons, dispatch_withBuffer. cbn [fst]. apply IH.
Qed.

Lemma accepts_withBuffer responses : forall b st,
  accepts responses st -> accepts responses (withBuffer b st).
Proof.
  induction responses as [|r responses IH]; intros b st; [done|].
  cbn [accepts]. rewrite dispatch_withBuffer. cbn [fst snd].
  intros [Hr Hrest]. split; [done|]. by apply IH.
Qed.

Lemma dispatchAll_app rs1 rs2 st :
  dispatchAll (rs1 ++ rs2) st = dispatchAll rs2 (dispatchAll rs1 st).
Proof. apply fold_left_app. Qed.


Section Stream.
Variable localeCompare : jsstring -> jsstring -> Z.

Abbreviation enc := (encode localeCompare).
Abbreviation decoded := (received localeCompare).

Lemma plain_messages (messages : list BencodeValue) :
  Forall plain messages ->
  Forall wellFormed messages
  /\ map decoded messages = map (canonical localeCompare) messages.
Proof.
  intros Hplain. split.
  - eapply Forall_impl; [exact Hplain|]. apply plain_wellFormed.
  - apply map_ext_Forall. eapply Forall_impl; [exact Hplain|].
    apply received_plain.
Qed.

(** The loop of [handleData] over whole messages: each is decoded and
    dispatched, and the loop stands after the last of them. *)
Lemma handleData_loop_messages (messages : list BencodeValue) :
  Forall wellFormed messages ->
  forall fuel st before tail,
    buffer st = before ++ concat (map enc messages) ++ tail ->
    accepts (map decoded messages) st ->
    (length (buffer st) - length before < fuel)%nat ->
    handleData_loop fuel (length before) st
    = handleData_loop fuel (length before + length (concat (map enc messages)))
        (dispatchAll (map decoded messages) st).
Proof.
  induction 1 as [|m messages Hm _ IH]; intros fuel st before tail Hbuf Hacc Hfuel.
  - cbn. by rewrite Nat.add_0_r.
  - cbn [map concat accepts] in *. rewrite dispatchAll_cons.
    destruct Hacc as [Hthrow Hacc].
    destruct fuel as [|fuel]; [lia|]. cbn [handleData_loop].
    destruct (encode_head localeCompare m) as (c & tl & Hhead & _).
    assert (Hlen : (length before < length (buffer st))%nat).
    { rewrite Hbuf, !length_app, Hhead. simpl. lia. }
    destruct (Nat.ltb_spec (length before) (length (buffer st))); [|lia].
    assert (Hdrop : drop (length before) (buffer st)
                    = enc m ++ concat (map enc messages) ++ tail).
    { by rewrite Hbuf, drop_app_length, <- app_assoc. }
    rewrite Hdrop, (BencodeDecoder_run_encoded localeCompare m _ Hm).
    pose proof (dispatch_buffer (decoded m) st) as Hb.
    destruct (dispatch (decoded m) st) as [st1 threw]. cbn [fst snd] in *.
    subst threw.
    rewrite (handleData_loop_fuel fuel (S fuel));
      [|rewrite Hb, Hbuf, !length_app, Hhead in *; simpl in *; lia
       |rewrite Hb, Hbuf, !length_app, Hhead in *; simpl in *; lia].
    rewrite <- length_app.
    rewrite (IH (S fuel) st1 (before ++ enc m) tail);
      [|by rewrite Hb, Hbuf, <- !app_assoc|done
       |rewrite Hb, Hbuf, !length_app in *; lia].
    rewrite !length_app, !Nat.add_assoc. reflexivity.
Qed.

(** [handleData] over whole messages and a rest that does not decode. *)
Lemma handleData_stream (messages : list BencodeValue) (tail data : jsstring)
    (st : NReplClient) :
  Forall wellFormed messages ->
  buffer st ++ data = concat (map enc messages) ++ tail ->
  (forall x, BencodeDecoder_run tail <> Return x) ->
  accepts (map decoded messages) st ->
  handleData data st = withBuffer tail (dispatchAll (map decoded messages) st).
Proof.
  intros Hwf Hstream Htail Hacc. unfold handleData.
  set (st0 := withBuffer (buffer st ++ data) st).
  assert (Hbuf0 : buffer st0 = [] ++ concat (map enc messages) ++ tail) by done.
  rewrite (handleData_loop_messages messages Hwf _ st0 [] tail Hbuf0);
    [|by apply accepts_withBuffer|simpl; lia].
  unfold st0 at 2. rewrite dispatchAll_withBuffer.
  set (st1 := dispatchAll (map decoded messages) st).
  set (n := length (concat (map enc messages))).
  assert (Hexit : handleData_loop (S (length (buffer st0))) (length (@nil Z) + n)
                    (withBuffer (buffer st ++ data) st1)
                  = (withBuffer (buffer st ++ data) st1, n)).
  { cbn [handleData_loop length Nat.add buffer withBuffer].
    destruct (Nat.ltb_spec n (length (buffer st ++ data))); [|done].
    rewrite Hstream. unfold n. rewrite drop_app_length.
    destruct (BencodeDecoder_run tail) as [[r len]| |] eqn:Hrun; [|done..].
    by destruct (Htail (r, len)). }
  rewrite Hexit. cbn [buffer withBuffer].
  destruct (Nat.ltb_spec 0 n) as [Hpos|Hzero].
  - rewrite Hstream. unfold n. by rewrite drop_app_length.
  - assert (Hnil : concat (map enc messages) = []) by (apply nil_length_inv; lia).
    rewrite Hstream, Hnil. done.
Qed.
(** X9. [handleData] on a stream: when the buffer and the text of the
    new chunk together hold whole encoded messages followed by a rest that
    does not decode (nothing, or the beginning of a message), every
    message is decoded and dispatched in the order of arrival, and exactly
    the rest stays in the buffer. Nothing else of the client changes. The
    messages have no key [__proto__] at any depth and integers of
    magnitude at most [2^53]. *)
Theorem handleData_messages (messages : list BencodeValue) (tail data : jsstring)
    (st : NReplClient) :
  Forall plain messages ->
  buffer st ++ data = concat (map enc messages) ++ tail ->
  (forall x, BencodeDecoder_run tail <> Return x) ->
  accepts (map (canonical localeCompare) messages) st ->
  handleData data st
  = withBuffer tail (dispatchAll (map (canonical localeCompare) messages) st)
  /\ buffer (handleData data st) = tail.
Proof.
  intros Hplain Hstream Htail Hacc.
  destruct (plain_messages messages Hplain) as [Hwf Hsame].
  rewrite <- Hsame in *.
  pose proof (handleData_stream messages tail data st Hwf Hstream Htail Hacc)
    as Hstate.
  split; [exact Hstate|]. by rewrite Hstate.
Qed.


End Stream.

(** ** From [send] to the resolved promise *)

Section Delivery.
Variable localeCompare : jsstring -> jsstring -> Z.

Abbreviation enc := (encode localeCompare).
Abbreviation decoded := (received localeCompare).

(** Decoding keeps the fields of a message, [__proto__] apart. *)
Lemma getField_decoded (message : BencodeValue) (name : jsstring) :
  wellFormed message -> name <> str "__proto__" ->
  getField (decoded message) name = decoded <$> getField message name.
Proof.
  intros Hwf Hname. destruct message as [s|n|items|entries]; try done.
  inversion Hwf as [| | |? Hnodup Hvalues]; subst.
  rewrite received_BObject. cbn [getField]. rewrite objectGet_fold by done.
  rewrite (objectGet_Permutation (reverse (array_sort (entryCompare localeCompare)
                                             entries)) entries).
  - by destruct (objectGet entries name).
  - by rewrite reverse_Permutation, array_sort_Permutation.
  - by rewrite reverse_Permutation, array_sort_Permutation.
Qed.

Lemma isText_decoded text value : isText text (decoded value) = isText text value.
Proof. by destruct value. Qed.

Lemma statusIncludesDone_decoded (message : BencodeValue) :
  wellFormed message ->
  statusIncludesDone (decoded message) = statusIncludesDone message.
Proof.
  intros Hwf. unfold statusIncludesDone. rewrite getField_decoded by done.
  destruct (getField message (str "status")) as [[s|n|tokens|entries]|]; try done.
  cbn [fmap option_fmap option_map received]. f_equal.
  induction tokens as [|t tokens IH]; [done|].
  cbn [map existsb]. by rewrite isText_decoded, IH.
Qed.

(** The request after one more response was pushed, and after the
    terminal one. *)
Definition pushed (responses : list BencodeValue) (r : Request) : Request :=
  {| req_message := req_message r; req_id := req_id r;
     req_responses := req_responses r ++ responses;
     req_timeout := req_timeout r; req_promise := req_promise r |}.

Definition settled (responses : list BencodeValue) (r : Request) : Request :=
  {| req_message := req_message r; req_id := req_id r;
     req_responses := req_responses r ++ responses;
     req_timeout := None;
     req_promise := resolve (req_responses r ++ responses) (req_promise r) |}.

Lemma dispatch_pushed response id rid r st :
  getField response (str "id") = Some (BString id) -> id <> [] ->
  messageCallbacks st !! id = Some rid ->
  requests st !! rid = Some r ->
  statusIncludesDone response = Some false ->
  dispatch response st
  = (withRequests (<[rid := pushed [response] r]> (requests st)) st, false).
Proof.
  intros Hid Hne Hcb Hr Hstatus. unfold dispatch. rewrite Hid.
  cbn [truthy]. rewrite bool_decide_eq_false_2 by done. cbn [negb].
  rewrite Hcb. unfold callback. by rewrite Hr, Hstatus.
Qed.

Lemma dispatch_settled response id rid r st :
  getField response (str "id") = Some (BString id) -> id <> [] ->
  messageCallbacks st !! id = Some rid ->
  requests st !! rid = Some r -> req_id r = id ->
  statusIncludesDone response = Some true ->
  dispatch response st
  = (withRequests (<[rid := settled [response] r]> (requests st))
       (withCallbacks (delete id (messageCallbacks st)) st), false).
Proof.
  intros Hid Hne Hcb Hr Hrid Hstatus. subst id. unfold dispatch. rewrite Hid.
  cbn [truthy]. rewrite bool_decide_eq_false_2 by done. cbn [negb].
  rewrite Hcb. unfold callback. rewrite Hr, Hstatus.
  unfold withCallbacks, withRequests. cbn. by rewrite delete_delete_eq.
Qed.

Lemma pushed_nil r : pushed [] r = r.
Proof. destruct r. unfold pushed. cbn. by rewrite app_nil_r. Qed.

Lemma dispatchAll_pushed id rid (responses : list BencodeValue) : forall r st,
  id <> [] ->
  Forall (fun response =>
            getField response (str "id") = Some (BString id)
            /\ statusIncludesDone response = Some false) responses ->
  messageCallbacks st !! id = Some rid ->
  requests st !! rid = Some r ->
  dispatchAll responses st
  = withRequests (<[rid := pushed responses r]> (requests st)) st.
Proof.
  induction responses as [|response responses IH]; intros r st Hne Hall Hcb Hr.
  - cbn. rewrite pushed_nil, list_insert_id by done. by destruct st.
  - apply Forall_cons in Hall as [[Hid Hstatus] Hall].
    assert (Hlt : (rid < length (requests st))%nat) by (by eapply lookup_lt_Some).
    rewrite dispatchAll_cons, (dispatch_pushed response id rid r st) by done.
    cbn [fst].
    rewrite (IH (pushed [response] r)); [|done|done|done|].
    + unfold withRequests. cbn. rewrite list_insert_insert_eq.
      unfold pushed. cbn. by rewrite <- app_assoc.
    + cbn. by rewrite list_lookup_insert_eq.
Qed.

(** The state after [send] and the arrival of all the responses of the
    request, the last one terminal. *)
Definition delivered (id : jsstring) (message : list (jsstring * BencodeValue))
    (all : list BencodeValue) (st : NReplClient) : NReplClient :=
  {| buffer := [];
     messageCallbacks := delete id (messageCallbacks st);
     sessionId := sessionId st; lastError := lastError st;
     connected := connected st;
     requests :=
       requests st
       ++ [{| req_message := message; req_id := id; req_responses := all;
              req_timeout := None; req_promise := Resolved all |}];
     written :=
       written st
       ++ [enc (BObject (objectSet message (str "id") (BString id)))] |}.

Lemma send_delivered (now : Z) (id : jsstring)
    (message : list (jsstring * BencodeValue)) (st : NReplClient)
    (responses : list BencodeValue) (last : BencodeValue) :
  buffer st = [] -> id <> [] ->
  Forall (fun r => wellFormed r
                   /\ getField r (str "id") = Some (BString id)
                   /\ statusIncludesDone r = Some false) responses ->
  wellFormed last ->
  getField last (str "id") = Some (BString id) ->
  statusIncludesDone last = Some true ->
  handleData (concat (map enc (responses ++ [last])))
    (send localeCompare now id message st).1
  = delivered id message (map decoded (responses ++ [last])) st.
Proof.
  intros Hempty Hne Hall Hwf Hid Hdone.
  set (st1 := (send localeCompare now id message st).1).
  set (rid := (send localeCompare now id message st).2).
  assert (Hwfs : Forall wellFormed (responses ++ [last])).
  { apply Forall_app. split; [|by apply Forall_singleton].
    eapply Forall_impl; [exact Hall|]. by intros r (? & _). }
  assert (Hall' : Forall (fun response =>
                     getField response (str "id") = Some (BString id)
                     /\ statusIncludesDone response = Some false)
                    (map decoded responses)).
  { apply Forall_fmap. eapply Forall_impl; [exact Hall|].
    intros r (Hr & Hrid & Hrstatus).
    change (getField (decoded r) (str "id") = Some (BString id)
            /\ statusIncludesDone (decoded r) = Some false).
    by rewrite getField_decoded, statusIncludesDone_decoded, Hrid. }
  assert (Hid' : getField (decoded last) (str "id") = Some (BString id)).
  { by rewrite getField_decoded, Hid. }
  assert (Hdone' : statusIncludesDone (decoded last) = Some true).
  { by rewrite statusIncludesDone_decoded. }
  assert (Htyped : Forall (fun r => statusIncludesDone r <> None)
                     (map decoded (responses ++ [last]))).
  { rewrite map_app. apply Forall_app. split.
    - eapply Forall_impl; [exact Hall'|]. intros r [_ Hr]. by rewrite Hr.
    - apply Forall_singleton. by rewrite Hdone'. }
  rewrite (handleData_stream localeCompare (responses ++ [last]) [] _ st1 Hwfs);
    [|by cbn; rewrite Hempty, app_nil_r|done|by apply accepts_typed].
  set (fresh := {| req_message := message; req_id := id; req_responses := [];
                   req_timeout := Some (now + requestTimeout);
                   req_promise := Pending |}).
  assert (Hcb : messageCallbacks st1 !! id = Some rid) by apply lookup_insert_eq.
  assert (Hfresh : requests st1 !! rid = Some fresh) by apply list_lookup_middle, eq_refl.
  rewrite map_app, dispatchAll_app.
  rewrite (dispatchAll_pushed id rid (map decoded responses) fresh st1) by done.
  cbn [map]. rewrite dispatchAll_cons.
  rewrite (dispatch_settled (decoded last) id rid (pushed (map decoded responses) fresh));
    [|done|done|done|
     |done|done].
  - subst st1 rid. unfold withRequests, withCallbacks, withBuffer, delivered.
    cbn [send fst snd buffer messageCallbacks sessionId lastError connected
         requests written].
    rewrite list_insert_insert_eq, delete_insert_eq.
    rewrite <- (Nat.add_0_r (length (requests st))), insert_app_r.
    done.
  - cbn. apply list_lookup_insert_eq. by eapply lookup_lt_Some.
Qed.

(** X11. From [send] to the resolved promise: after [send] has registered
    a request under a non-empty id, a run of responses that carry this id,
    the last one (and only it) with [done] in its status, arriving in one
    chunk, resolves the promise with all of them in the order of arrival,
    clears the timer (it never fires afterwards) and removes the callback
    (a later response with the id changes nothing). The other requests,
    the session and [lastError] are left alone. The responses have no key
    [__proto__] at any depth and integers of magnitude at most [2^53]. *)
Theorem send_then_responses (now : Z) (id : jsstring)
    (message : list (jsstring * BencodeValue)) (st : NReplClient)
    (responses : list BencodeValue) (last : BencodeValue) :
  buffer st = [] -> id <> [] ->
  Forall (fun r => plain r
                   /\ getField r (str "id") = Some (BString id)
                   /\ statusIncludesDone r = Some false) responses ->
  plain last ->
  getField last (str "id") = Some (BString id) ->
  statusIncludesDone last = Some true ->
  let st1 := (send localeCompare now id message st).1 in
  let rid := (send localeCompare now id message st).2 in
  let all := map (canonical localeCompare) (responses ++ [last]) in
  let st2 := handleData (concat (map enc (responses ++ [last]))) st1 in
  st2 = {| buffer := [];
           messageCallbacks := delete id (messageCallbacks st);
           sessionId := sessionId st; lastError := lastError st;
           connected := connected st;
           requests :=
             requests st
             ++ [{| req_message := message; req_id := id; req_responses := all;
                    req_timeout := None; req_promise := Resolved all |}];
           written :=
             written st
             ++ [enc (BObject (objectSet message (str "id") (BString id)))] |}
  /\ (forall later, onTimeout later rid st2 = st2)
  /\ (forall response,
        getField response (str "id") = Some (BString id) ->
        dispatch response st2 = (st2, false)).
Proof.
  intros Hempty Hne Hall Hplain Hid Hdone st1 rid all st2.
  assert (Hplains : Forall plain (responses ++ [last])).
  { apply Forall_app. split; [|by apply Forall_singleton].
    eapply Forall_impl; [exact Hall|]. by intros r (? & _). }
  assert (Hfinal : st2 = delivered id message all st).
  { unfold all. rewrite <- (proj2 (plain_messages localeCompare _ Hplains)).
    apply send_delivered; [done|done| |by apply plain_wellFormed|done|done].
    eapply Forall_impl; [exact Hall|].
    intros r (Hr & ? & ?). split; [by apply plain_wellFormed|done]. }
  split; [done|]. rewrite Hfinal. split.
  - intros later. unfold onTimeout, delivered. cbn [requests].
    by rewrite list_lookup_middle.
  - intros response Hresp. unfold dispatch, delivered. rewrite Hresp.
    cbn [truthy]. rewrite bool_decide_eq_false_2 by done. cbn [negb messageCallbacks].
    by rewrite lookup_delete_eq.
Qed.

(** X12. [clone] and then [eval], end to end: [send] writes the clone
    request; one response with the request's id, a non-empty [new-session]
    text and [done] in its status resolves it; [clone] then stores the
    session and returns it, and the message that [eval] builds next (on a
    connected client, where [ensureConnected] has nothing to do) carries
    this session. *)
Theorem clone_then_eval (now : Z) (id session code : jsstring)
    (response : BencodeValue) (st : NReplClient) :
  connected st = true ->
  buffer st = [] -> id <> [] -> session <> [] ->
  wellFormed response ->
  getField response (str "id") = Some (BString id) ->
  getField response (str "new-session") = Some (BString session) ->
  statusIncludesDone response = Some true ->
  let st1 := (send localeCompare now id cloneMessage st).1 in
  let rid := (send localeCompare now id cloneMessage st).2 in
  let st2 := handleData (enc response) st1 in
  exists all,
    req_promise <$> requests st2 !! rid = Some (Resolved all)
    /\ clone_finish all st2
       = (withSessionId (Some (BString session)) st2, Resolved (BString session))
    /\ connected (clone_finish all st2).1 = true
    /\ eval_message code (clone_finish all st2).1
       = inr [(str "op", BString (str "eval")); (str "code", BString code);
              (str "session", BString session)].
Proof.
  intros Hconnected Hempty Hne Hsession Hwf Hid Hnew Hdone st1 rid st2.
  pose proof (send_delivered now id cloneMessage st [] response Hempty Hne
                (@List.Forall_nil _ _) Hwf Hid Hdone) as Hst2.
  cbn [app map concat] in Hst2. rewrite app_nil_r in Hst2.
  fold st1 st2 in Hst2.
  exists [decoded response].
  assert (Hfinish : clone_finish [decoded response] st2
       = (withSessionId (Some (BString session)) st2, Resolved (BString session))).
  { unfold clone_finish. rewrite getField_decoded, Hnew by done.
    cbn [fmap option_fmap option_map received truthy].
    by rewrite bool_decide_eq_false_2. }
  split_and!.
  - rewrite Hst2. unfold delivered. subst rid. cbn [requests send snd].
    by rewrite list_lookup_middle.
  - done.
  - rewrite Hfinish, Hst2. done.
  - rewrite Hfinish. unfold eval_message. cbn [fst sessionId withSessionId truthyField truthy].
    by rewrite bool_decide_eq_false_2.
Qed.

Lemma objectSet_keys {B} (entries : list (jsstring * B)) key value :
  key ∈ entries.*1 -> (objectSet entries key value).*1 = entries.*1.
Proof.
  induction entries as [|[k v] entries IH]; intros Hin; cbn [objectSet].
  - by apply elem_of_nil in Hin.
  - cbn [fst]. destruct (decide (k = key)) as [->|Hne]; [done|].
    rewrite fmap_cons, elem_of_cons in Hin. destruct Hin as [Heq|Hin]; [done|].
    rewrite !fmap_cons. f_equal. by apply IH.
Qed.

Lemma objectSet_values {B} (P : B -> Prop) (entries : list (jsstring * B)) key value :
  Forall (fun kv => P kv.2) entries -> P value ->
  Forall (fun kv => P kv.2) (objectSet entries key value).
Proof.
  intros Hall Hvalue. induction Hall as [|[k v] entries Hkv Hall IH]; simpl.
  - by apply Forall_singleton.
  - destruct (decide (k = key)); apply Forall_cons; by split.
Qed.

Lemma objectSet_wellFormed entries key value :
  wellFormed (BObject entries) -> wellFormed value ->
  wellFormed (BObject (objectSet entries key value)).
Proof.
  intros Hwf Hvalue. inversion Hwf as [| | |? Hnodup Hvalues]; subst.
  constructor; [|by apply objectSet_values].
  destruct (decide (key ∈ entries.*1)) as [Hin|Hfresh].
  - by rewrite objectSet_keys.
  - rewrite objectSet_fresh, fmap_app by done. apply NoDup_app.
    split_and!; [done| |apply NoDup_singleton].
    intros k Hk ->%list_elem_of_singleton. done.
Qed.

Lemma objectSet_plain entries key value :
  plain (BObject entries) -> plain value -> key <> str "__proto__" ->
  plain (BObject (objectSet entries key value)).
Proof.
  intros Hplain Hvalue Hkey.
  inversion Hplain as [| | |? Hnodup Hkeys Hvalues]; subst.
  pose proof (objectSet_wellFormed entries key value
                (plain_wellFormed _ Hplain)
                (plain_wellFormed _ Hvalue)) as Hwf.
  inversion Hwf as [| | |? Hnodup' _]; subst.
  constructor; [done| |by apply objectSet_values].
  clear -Hkeys Hkey. induction Hkeys as [|[k v] entries Hkv Hkeys IH]; simpl.
  - by apply Forall_singleton.
  - destruct (decide (k = key)); apply Forall_cons; by split.
Qed.

(** X13. What [send] puts on the wire: one text, which the decoder reads
    back as a dictionary whose entry [id] is the id under which the
    callback was registered -- also when the message had an [id] of its
    own -- and whose other entries are those of the message. The message
    has no key [__proto__] at any depth and integers of magnitude at most
    [2^53]. *)
Theorem send_written_decodes (now : Z) (id : jsstring)
    (message : list (jsstring * BencodeValue)) (st : NReplClient) :
  plain (BObject message) ->
  let st1 := (send localeCompare now id message st).1 in
  let rid := (send localeCompare now id message st).2 in
  exists text entries,
    written st1 = written st ++ [text]
    /\ BencodeDecoder_run text = Return (BObject entries, length text)
    /\ objectGet entries (str "id") = Some (BString id)
    /\ (forall key, key <> str "id" ->
          objectGet entries key = canonical localeCompare <$> objectGet message key)
    /\ messageCallbacks st1 !! id = Some rid
    /\ req_id <$> requests st1 !! rid = Some id.
Proof.
  intros Hplain st1 rid.
  set (sent := objectSet message (str "id") (BString id)).
  assert (Hsent : plain (BObject sent)).
  { apply objectSet_plain; [done|constructor|by vm_compute]. }
  assert (Hfield : forall key,
            objectGet (map (fun kv => (kv.1, canonical localeCompare kv.2))
                         (array_sort (entryCompare localeCompare) sent)) key
            = canonical localeCompare <$> objectGet sent key).
  { intros key. rewrite objectGet_fmap. f_equal.
    inversion Hsent as [| | |? Hnodup _ _]; subst.
    apply objectGet_Permutation; [|apply array_sort_Permutation].
    by rewrite array_sort_Permutation. }
  exists (enc (BObject sent)), (map (fun kv => (kv.1, canonical localeCompare kv.2))
                                  (array_sort (entryCompare localeCompare) sent)).
  split_and!.
  - done.
  - rewrite <- canonical_BObject. rewrite <- (app_nil_r (enc (BObject sent))) at 1.
    by apply BencodeDecoder_run_plain.
  - rewrite Hfield. unfold sent. rewrite objectGet_objectSet. by rewrite decide_True.
  - intros key Hkey. rewrite Hfield. unfold sent.
    rewrite objectGet_objectSet. by rewrite decide_False.
  - apply lookup_insert_eq.
  - subst st1 rid. cbn [send fst snd requests]. by rewrite list_lookup_middle.
Qed.
End Delivery.

(** ** What a data event can do *)

Lemma getProcessedLength_le (data : jsstring) (value : BencodeValue) (len : nat) :
  BencodeDecoder_run data = Return (value, len) -> (len <= length data)%nat.
Proof.
  unfold BencodeDecoder_run.
  destruct (decode_bound (decodeFuel data)) as (Hvalue & _). apply Hvalue.
Qed.

(** How a data event may change a request: responses are added at the
    end, a pending promise may be resolved with the responses received by
    then, the timer may be cleared. *)
Definition requestGrows (r r' : Request) : Prop :=
  req_message r' = req_message r
  /\ req_id r' = req_id r
  /\ req_responses r `prefix_of` req_responses r'
  /\ (req_promise r' = req_promise r
      \/ (req_promise r = Pending
          /\ exists all,
               req_promise r' = Resolved all
               /\ req_responses r `prefix_of` all
               /\ all `prefix_of` req_responses r'))
  /\ (req_timeout r' = req_timeout r \/ req_timeout r' = None).

(** What a data event keeps of the client outside its buffer. *)
Definition dataEvent (st st' : NReplClient) : Prop :=
  sessionId st' = sessionId st
  /\ lastError st' = lastError st
  /\ connected st' = connected st
  /\ written st' = written st
  /\ messageCallbacks st' ⊆ messageCallbacks st
  /\ Forall2 requestGrows (requests st) (requests st').

Lemma requestGrows_refl r : requestGrows r r.
Proof. unfold requestGrows. split_and!; auto. Qed.

Lemma requestGrows_trans r1 r2 r3 :
  requestGrows r1 r2 -> requestGrows r2 r3 -> requestGrows r1 r3.
Proof.
  intros (Hm1 & Hi1 & Hr1 & Hp1 & Ht1) (Hm2 & Hi2 & Hr2 & Hp2 & Ht2).
  unfold requestGrows. split_and!.
  - congruence.
  - congruence.
  - by etrans.
  - destruct Hp2 as [Hp2|(Hp2 & all & Hall & Hlo & Hhi)].
    + destruct Hp1 as [Hp1|(Hp1 & all & Hall & Hlo & Hhi)]; [left; congruence|].
      right. split; [done|]. exists all. split_and!; [congruence|done|by etrans].
    + destruct Hp1 as [Hp1|(Hp1 & all' & Hall' & _)]; [|congruence].
      right. split; [congruence|]. exists all. split_and!; [done|by etrans|done].
  - destruct Ht2 as [Ht2|Ht2]; [|by right].
    destruct Ht1 as [Ht1|Ht1]; [left|right]; congruence.
Qed.

#[local] Instance requestGrows_PreOrder : PreOrder requestGrows.
Proof.
  split; [exact requestGrows_refl|].
  intros r1 r2 r3. apply requestGrows_trans.
Qed.

Lemma requests_grow_refl (l : list Request) : Forall2 requestGrows l l.
Proof. reflexivity. Qed.

Lemma requests_grow_insert (l : list Request) rid r r' :
  l !! rid = Some r -> requestGrows r r' ->
  Forall2 requestGrows l (<[rid := r']> l).
Proof.
  intros Hr Hgrow. rewrite <- (list_insert_id l rid r Hr) at 1.
  apply Forall2_insert; [apply requests_grow_refl|done].
Qed.

Lemma dataEvent_refl st : dataEvent st st.
Proof. unfold dataEvent. by split_and!. Qed.

Lemma dataEvent_trans st1 st2 st3 :
  dataEvent st1 st2 -> dataEvent st2 st3 -> dataEvent st1 st3.
Proof.
  intros (Hs1 & He1 & Hc1 & Hw1 & Hcb1 & Hr1) (Hs2 & He2 & Hc2 & Hw2 & Hcb2 & Hr2).
  unfold dataEvent. split_and!; try congruence.
  - by etrans.
  - by etrans.
Qed.

Lemma callback_dataEvent rid response st :
  dataEvent st (callback rid response st).1.
Proof.
  unfold callback. destruct (requests st !! rid) as [r|] eqn:Hr;
    [|apply dataEvent_refl].
  assert (Hprefix : req_responses r `prefix_of` req_responses r ++ [response])
    by (by eexists).
  destruct (statusIncludesDone response) as [[]|]; cbn [fst]; unfold dataEvent;
    cbn [sessionId lastError connected written messageCallbacks requests
         withRequests withCallbacks];
    split_and!; try done; try apply delete_subseteq;
    apply (requests_grow_insert _ rid r); try done;
    unfold requestGrows; cbn; split_and!; auto.
  destruct (req_promise r); auto.
  right. split; [done|]. by exists (req_responses r ++ [response]).
Qed.

Lemma dispatch_dataEvent response st : dataEvent st (dispatch response st).1.
Proof.
  unfold dispatch.
  destruct (getField response (str "id")) as [[id| | |]|]; try apply dataEvent_refl.
  destruct (truthy (BString id)); [|apply dataEvent_refl].
  destruct (messageCallbacks st !! id) as [rid|]; [|apply dataEvent_refl].
  pose proof (callback_dataEvent rid response st) as Hcall.
  destruct (callback rid response st) as [st1 threw]. cbn [fst] in Hcall.
  destruct threw; [done|].
  destruct (statusIncludesDone response) as [[]|]; cbn [fst]; try done.
  eapply dataEvent_trans; [exact Hcall|].
  unfold dataEvent.
  cbn [sessionId lastError connected written messageCallbacks requests withCallbacks].
  split_and!; try done. apply delete_subseteq.
Qed.

Lemma handleData_loop_dataEvent fuel : forall processed st,
  (processed <= length (buffer st))%nat ->
  dataEvent st (handleData_loop fuel processed st).1
  /\ buffer (handleData_loop fuel processed st).1 = buffer st
  /\ ((handleData_loop fuel processed st).2 <= length (buffer st))%nat.
Proof.
  induction fuel as [|fuel IH]; intros processed st Hle;
    [by split; [apply dataEvent_refl|]|].
  cbn [handleData_loop].
  destruct (Nat.ltb_spec processed (length (buffer st))) as [Hlt|];
    [|by split; [apply dataEvent_refl|]].
  destruct (BencodeDecoder_run (drop processed (buffer st))) as [[response len]| |]
    eqn:Hrun; [|by split; [apply dataEvent_refl|]..].
  pose proof (dispatch_dataEvent response st) as Hstep.
  pose proof (dispatch_buffer response st) as Hbuf.
  destruct (dispatch response st) as [st1 threw]. cbn [fst] in Hstep, Hbuf.
  destruct threw; [cbn [fst snd]; split_and!; [done|done|lia]|].
  apply getProcessedLength_le in Hrun. rewrite length_drop in Hrun.
  destruct (IH (processed + len)%nat st1) as (Hev & Hb & Hp); [rewrite Hbuf; lia|].
  split_and!.
  - by eapply dataEvent_trans.
  - by rewrite Hb.
  - by rewrite <- Hbuf.
Qed.

(** X14. What a data event can and cannot do, whatever the bytes: the
    buffer afterwards is what was buffered plus the new data, less a
    prefix; no callback is added; no request is added or removed, and a
    request keeps its message and id, only gains responses at the end, and
    its promise either stays as it is or goes from pending to resolved
    with the responses received. The session, [lastError], the connection
    flag and what was written stay: [handleData] never rejects a request
    and never reports an error. *)
Theorem handleData_frame (data : jsstring) (st : NReplClient) :
  let st' := handleData data st in
  (exists processed,
      (processed <= length (buffer st ++ data))%nat
      /\ buffer st' = drop processed (buffer st ++ data))
  /\ sessionId st' = sessionId st
  /\ lastError st' = lastError st
  /\ connected st' = connected st
  /\ written st' = written st
  /\ messageCallbacks st' ⊆ messageCallbacks st
  /\ Forall2 requestGrows (requests st) (requests st').
Proof.
  intros st'. subst st'. unfold handleData.
  set (st0 := withBuffer (buffer st ++ data) st).
  destruct (handleData_loop_dataEvent (S (length (buffer st0))) 0 st0)
    as (Hev & Hbuf & Hle); [lia|].
  destruct (handleData_loop (S (length (buffer st0))) 0 st0) as [st1 processed].
  cbn [fst snd] in Hev, Hbuf, Hle.
  assert (Hst : dataEvent st st1) by exact Hev.
  destruct Hst as (Hs & He & Hc & Hw & Hcb & Hr).
  split.
  - exists processed. split; [done|].
    destruct (Nat.ltb_spec 0 processed) as [Hpos|Hzero]; cbn [buffer withBuffer].
    + by rewrite Hbuf.
    + rewrite Hbuf. by replace processed with 0%nat by lia.
  - by destruct (0 <? processed)%nat.
Qed.

(** ** The requests of a client *)

Definition notDone (response : BencodeValue) : Prop :=
  statusIncludesDone response <> Some true.

(** A request is pending with its timer armed and no terminal response
    received, or resolved with the responses it received, of which the
    last one only is terminal, or rejected by its timer. *)
Definition requestOk (r : Request) : Prop :=
  match req_promise r with
  | Pending => req_timeout r <> None /\ Forall notDone (req_responses r)
  | Resolved all =>
      req_timeout r = None
      /\ all = req_responses r
      /\ exists earlier last,
           all = earlier ++ [last]
           /\ statusIncludesDone last = Some true
           /\ Forall notDone earlier
  | Rejected e => req_timeout r = None /\ e = RequestTimedOut (req_message r)
  end.

Section Requests.
Variable localeCompare : jsstring -> jsstring -> Z.

(** The text that [send] wrote for a request. *)
Definition wire (r : Request) : jsstring :=
  encode localeCompare
    (BObject (objectSet (req_message r) (str "id") (BString (req_id r)))).

Definition clientOk (st : NReplClient) : Prop :=
  (forall id rid,
      messageCallbacks st !! id = Some rid ->
      exists r, requests st !! rid = Some r /\ req_id r = id /\ req_promise r = Pending)
  /\ Forall requestOk (requests st)
  /\ written st = map wire (requests st).

Lemma newClient_ok : clientOk newClient.
Proof.
  split_and!; [|done..]. intros id rid. cbn [newClient messageCallbacks].
  by rewrite lookup_empty.
Qed.

Lemma send_ok now id message st :
  clientOk st -> clientOk (send localeCompare now id message st).1.
Proof.
  intros (Hcb & Hreq & Hw). unfold clientOk.
  cbn [send fst messageCallbacks requests written]. split_and!.
  - intros id' rid'. rewrite lookup_insert. case_decide as Hid.
    + intros [= <-]. subst id'. eexists. by rewrite list_lookup_middle.
    + intros (r & Hr & ?)%Hcb. exists r. split; [|done].
      by apply lookup_app_l_Some.
  - apply Forall_app. split; [done|]. apply Forall_singleton.
    unfold requestOk. cbn. by split.
  - by rewrite map_app, Hw.
Qed.

Lemma clientOk_fewer_callbacks callbacks st :
  callbacks ⊆ messageCallbacks st -> clientOk st ->
  clientOk (withCallbacks callbacks st).
Proof.
  intros Hsub (Hcb & Hreq & Hw). split_and!; [|done..].
  intros id rid Hid. apply (Hcb id rid).
  by eapply lookup_weaken.
Qed.

Lemma clientOk_withBuffer b st : clientOk st -> clientOk (withBuffer b st).
Proof. done. Qed.

(** A request is replaced by one with the same message and id, and no
    callback is left for it unless it is still pending. *)
Lemma clientOk_replace rid r r' st :
  clientOk st ->
  requests st !! rid = Some r ->
  req_message r' = req_message r -> req_id r' = req_id r ->
  requestOk r' ->
  (req_promise r' = Pending \/ noCallbackFor rid st) ->
  clientOk (withRequests (<[rid := r']> (requests st)) st).
Proof.
  intros (Hcb & Hreq & Hw) Hr Hmessage Hid Hok Hpending.
  assert (Hlt : (rid < length (requests st))%nat) by (by eapply lookup_lt_Some).
  unfold clientOk. cbn [messageCallbacks requests written withRequests]. split_and!.
  - intros id rid' Hrid'. destruct (decide (rid' = rid)) as [->|Hne].
    + destruct (Hcb id rid Hrid') as (r0 & Hr0 & Hid0 & _).
      assert (r0 = r) as -> by congruence.
      destruct Hpending as [Hpending|Hno]; [|by destruct (Hno id)].
      exists r'. rewrite list_lookup_insert_eq by done. split_and!; congruence.
    + rewrite list_lookup_insert_ne by done. by apply Hcb.
  - by apply Forall_insert.
  - rewrite Hw, list_fmap_insert.
    assert (Hwire : wire r' = wire r) by (unfold wire; by rewrite Hmessage, Hid).
    rewrite Hwire. symmetry. apply list_insert_id.
    by rewrite list_lookup_fmap, Hr.
Qed.

Lemma clientOk_unregistered id rid r st :
  clientOk st -> requests st !! rid = Some r -> req_id r = id ->
  noCallbackFor rid (withCallbacks (delete id (messageCallbacks st)) st).
Proof.
  intros (Hcb & _) Hr Hid id' Hrid. cbn [messageCallbacks withCallbacks] in Hrid.
  apply lookup_delete_Some in Hrid as [Hne Hrid].
  destruct (Hcb id' rid Hrid) as (r0 & Hr0 & Hid0 & _). congruence.
Qed.

Lemma onTimeout_ok now rid st : clientOk st -> clientOk (onTimeout now rid st).
Proof.
  intros Hst. unfold onTimeout.
  destruct (requests st !! rid) as [r|] eqn:Hr; [|done].
  destruct (req_timeout r) as [deadline|] eqn:Harmed; [|done].
  destruct (deadline <=? now); [|done].
  set (st1 := withCallbacks (delete (req_id r) (messageCallbacks st)) st).
  assert (Hst1 : clientOk st1).
  { apply clientOk_fewer_callbacks; [apply delete_subseteq|done]. }
  assert (Hok : requestOk r).
  { destruct Hst as (_ & Hreq & _). rewrite Forall_lookup in Hreq. by eapply Hreq. }
  apply (clientOk_replace rid r _ st1 Hst1 Hr); [done|done| |].
  - unfold requestOk in *. cbn. destruct (req_promise r); cbn.
    + done.
    + destruct Hok as [Hnone _]. congruence.
    + destruct Hok as [Hnone _]. congruence.
  - right. by eapply clientOk_unregistered.
Qed.

Lemma callback_ok id rid response st :
  clientOk st -> messageCallbacks st !! id = Some rid ->
  clientOk (callback rid response st).1.
Proof.
  intros Hst Hid.
  destruct Hst as (Hcb & Hreq & Hw).
  destruct (Hcb id rid Hid) as (r & Hr & Hrid & Hpending).
  assert (Hok : requestOk r) by (rewrite Forall_lookup in Hreq; by eapply Hreq).
  assert (Hst : clientOk st) by done.
  unfold requestOk in Hok. rewrite Hpending in Hok. destruct Hok as [Harmed Hnot].
  unfold callback. rewrite Hr.
  destruct (statusIncludesDone response) as [[]|] eqn:Hstatus; cbn [fst].
  - set (st1 := withCallbacks (delete (req_id r) (messageCallbacks st)) st).
    assert (Hst1 : clientOk st1).
    { apply clientOk_fewer_callbacks; [apply delete_subseteq|done]. }
    apply (clientOk_replace rid r _ st1 Hst1 Hr); [done|done| |].
    + unfold requestOk. cbn. rewrite Hpending. cbn. split_and!; [done..|].
      by exists (req_responses r), response.
    + right. by eapply clientOk_unregistered.
  - apply (clientOk_replace rid r _ st Hst Hr); [done|done| |by left].
    unfold requestOk. cbn. rewrite Hpending. split; [done|].
    apply Forall_app. split; [done|]. apply Forall_singleton.
    unfold notDone. by rewrite Hstatus.
  - apply (clientOk_replace rid r _ st Hst Hr); [done|done| |by left].
    unfold requestOk. cbn. rewrite Hpending. split; [done|].
    apply Forall_app. split; [done|]. apply Forall_singleton.
    unfold notDone. by rewrite Hstatus.
Qed.

Lemma dispatch_ok response st : clientOk st -> clientOk (dispatch response st).1.
Proof.
  intros Hst. unfold dispatch.
  destruct (getField response (str "id")) as [[id| | |]|]; try done.
  destruct (truthy (BString id)); [|done].
  destruct (messageCallbacks st !! id) as [rid|] eqn:Hid; [|done].
  pose proof (callback_ok id rid response st Hst Hid) as Hcall.
  destruct (callback rid response st) as [st1 threw]. cbn [fst] in Hcall.
  destruct threw; [done|].
  destruct (statusIncludesDone response) as [[]|]; cbn [fst]; try done.
  apply clientOk_fewer_callbacks; [apply delete_subseteq|done].
Qed.

Lemma handleData_loop_ok fuel : forall processed st,
  clientOk st -> clientOk (handleData_loop fuel processed st).1.
Proof.
  induction fuel as [|fuel IH]; intros processed st Hst; [done|].
  cbn [handleData_loop].
  destruct (processed <? length (buffer st))%nat; [|done].
  destruct (BencodeDecoder_run (drop processed (buffer st))) as [[response len]| |];
    [|done..].
  pose proof (dispatch_ok response st Hst) as Hstep.
  destruct (dispatch response st) as [st1 threw]. cbn [fst] in Hstep.
  destruct threw; [done|]. by apply IH.
Qed.

Lemma handleData_ok data st : clientOk st -> clientOk (handleData data st).
Proof.
  intros Hst. unfold handleData.
  pose proof (handleData_loop_ok
                (S (length (buffer (withBuffer (buffer st ++ data) st)))) 0
                (withBuffer (buffer st ++ data) st) Hst) as Hloop.
  destruct (handleData_loop _ 0 (withBuffer (buffer st ++ data) st)) as [st1 processed].
  cbn [fst] in Hloop. by destruct (0 <? processed)%nat.
Qed.

Lemma step_ok st st' : step localeCompare st st' -> clientOk st -> clientOk st'.
Proof.
  intros Hstep Hst. destruct Hstep.
  - by apply send_ok.
  - by apply handleData_ok.
  - by apply onTimeout_ok.
  - done.
  - unfold onSocketClose. by destruct (noLastError _).
  - done.
  - unfold clone_finish. destruct responses as [|first ?]; [done|].
    destruct (getField first (str "new-session")) as [v|]; [|done].
    by destruct (truthy v).
  - unfold eval_finish. by destruct (0 <? _)%nat.
Qed.

(** X15. In every state that the client reaches from its construction
    by calls of [send] (whose [try] does not throw), data events, timers
    of requests, socket events and the completions of [clone] and [eval]:
    a registered callback belongs to a
    request of that id that is still pending; a pending request has its
    timer armed and has received no terminal response; a resolved request
    was resolved with exactly the responses it received, whose last one is
    the only terminal one, and its timer is cleared; a rejected request
    was rejected by its timer, with the time-out error of its message; and
    the i-th text written is the encoding of the i-th request's message
    with its id. *)
Theorem reachable_requests (st : NReplClient) :
  rtc (step localeCompare) newClient st ->
  (forall id rid,
      messageCallbacks st !! id = Some rid ->
      exists r, requests st !! rid = Some r /\ req_id r = id /\ req_promise r = Pending)
  /\ (forall rid r,
        requests st !! rid = Some r ->
        match req_promise r with
        | Pending => req_timeout r <> None /\ Forall notDone (req_responses r)
        | Resolved all =>
            req_timeout r = None
            /\ all = req_responses r
            /\ exists earlier last,
                 all = earlier ++ [last]
                 /\ statusIncludesDone last = Some true
                 /\ Forall notDone earlier
        | Rejected e => req_timeout r = None /\ e = RequestTimedOut (req_message r)
        end)
  /\ written st
     = map (fun r => encode localeCompare
                       (BObject (objectSet (req_message r) (str "id")
                                   (BString (req_id r)))))
         (requests st).
Proof.
  intros Hreach.
  assert (Hst : clientOk st).
  { revert st Hreach. apply rtc_ind_r; [apply newClient_ok|].
    intros st st' _ Hstep IH. by eapply step_ok. }
  destruct Hst as (Hcb & Hreq & Hw). split_and!; [done| |done].
  intros rid r Hr. rewrite Forall_lookup in Hreq. apply (Hreq rid r Hr).
Qed.
End Requests.

(** ** A response with a status of the wrong type *)

Section BadStatus.
Variable localeCompare : jsstring -> jsstring -> Z.

Abbreviation enc := (encode localeCompare).
Abbreviation decoded := (received localeCompare).

Lemma dispatch_throws response id rid r st :
  getField response (str "id") = Some (BString id) -> id <> [] ->
  messageCallbacks st !! id = Some rid ->
  requests st !! rid = Some r ->
  statusIncludesDone response = None ->
  dispatch response st
  = (withRequests (<[rid := pushed [response] r]> (requests st)) st, true).
Proof.
  intros Hid Hne Hcb Hr Hstatus. unfold dispatch. rewrite Hid.
  cbn [truthy]. rewrite bool_decide_eq_false_2 by done. cbn [negb].
  rewrite Hcb. unfold callback. by rewrite Hr, Hstatus.
Qed.

Lemma handleData_throws (bad : BencodeValue) (id : jsstring) (rid : nat)
    (r : Request) (tail data : jsstring) (st : NReplClient) :
  wellFormed bad ->
  getField bad (str "id") = Some (BString id) -> id <> [] ->
  statusIncludesDone bad = None ->
  messageCallbacks st !! id = Some rid ->
  requests st !! rid = Some r ->
  buffer st ++ data = enc bad ++ tail ->
  handleData data st
  = withRequests (<[rid := pushed [decoded bad] r]> (requests st))
      (withBuffer (enc bad ++ tail) st).
Proof.
  intros Hwf Hid Hne Hstatus Hcb Hr Hstream. unfold handleData.
  rewrite Hstream. set (st0 := withBuffer (enc bad ++ tail) st).
  cbn [handleData_loop].
  destruct (encode_head localeCompare bad) as (c & tl & Hhead & _).
  assert (Hlen : (0 < length (buffer st0))%nat).
  { cbn [buffer st0 withBuffer]. rewrite length_app, Hhead. simpl. lia. }
  destruct (Nat.ltb_spec 0 (length (buffer st0))); [|lia].
  rewrite drop_0. cbn [buffer st0 withBuffer].
  rewrite (BencodeDecoder_run_encoded localeCompare bad tail Hwf).
  fold st0.
  rewrite (dispatch_throws (decoded bad) id rid r st0); try done.
  - by rewrite getField_decoded, Hid.
  - by rewrite statusIncludesDone_decoded.
Qed.

(** X16. A response whose [status] is a number or a dictionary makes the
    callback throw inside the [try] of [handleData], after the response
    was pushed and before it is counted as processed. When such a
    response for a registered request stands first in the buffer, the
    data event pushes it to the request and consumes nothing; the next
    data event finds it first again and pushes it once more. Nothing that
    follows it in the stream is decoded while the callback is
    registered. The response has no key [__proto__] at any depth (a
    dictionary given a list as its prototype has an [includes]) and
    integers of magnitude at most [2^53]. *)
Theorem handleData_status_not_a_list (bad : BencodeValue) (id : jsstring)
    (rid : nat) (r : Request) (tail data data' : jsstring) (st : NReplClient) :
  plain bad ->
  getField bad (str "id") = Some (BString id) -> id <> [] ->
  statusIncludesDone bad = None ->
  messageCallbacks st !! id = Some rid ->
  requests st !! rid = Some r ->
  buffer st ++ data = enc bad ++ tail ->
  handleData data st
  = withRequests (<[rid := pushed [canonical localeCompare bad] r]> (requests st))
      (withBuffer (enc bad ++ tail) st)
  /\ handleData data' (handleData data st)
     = withRequests
         (<[rid := pushed [canonical localeCompare bad; canonical localeCompare bad] r]>
            (requests st))
         (withBuffer (enc bad ++ tail ++ data') st).
Proof.
  intros Hplain Hid Hne Hstatus Hcb Hr Hstream.
  rewrite <- (received_plain localeCompare bad Hplain).
  apply plain_wellFormed in Hplain as Hwf.
  assert (Hlt : (rid < length (requests st))%nat) by (by eapply lookup_lt_Some).
  pose proof (handleData_throws bad id rid r tail data st
                Hwf Hid Hne Hstatus Hcb Hr Hstream) as Hfirst.
  split; [done|]. rewrite Hfirst.
  rewrite (handleData_throws bad id rid (pushed [decoded bad] r) (tail ++ data') data');
    try done.
  - unfold withRequests, withBuffer. cbn. rewrite list_insert_insert_eq.
    unfold pushed. cbn. by rewrite <- !app_assoc.
  - cbn. by apply list_lookup_insert_eq.
  - cbn. by rewrite <- app_assoc.
Qed.
End BadStatus.

(** ** Responses without an addressee, and ids used twice *)

Section Addressee.
Variable localeCompare : jsstring -> jsstring -> Z.

Abbreviation enc := (encode localeCompare).
Abbreviation decoded := (received localeCompare).

(** X17. A message that no callback waits for is consumed and dropped:
    when its [id] is missing, is not a text, is the empty text (also if a
    callback is registered under the empty text), or is a text under which
    no callback is registered, the data event that brings it leaves the
    client exactly as it was. The message has no key [__proto__] at any
    depth (through a prototype it could have an [id] that is not an entry
    of its own) and integers of magnitude at most [2^53]. *)
Theorem handleData_unaddressed (message : BencodeValue) (st : NReplClient) :
  plain message ->
  buffer st = [] ->
  getField message (str "id") = None
  \/ (exists v, getField message (str "id") = Some v /\ forall s, v <> BString s)
  \/ getField message (str "id") = Some (BString [])
  \/ (exists id, getField message (str "id") = Some (BString id)
                 /\ messageCallbacks st !! id = None) ->
  handleData (enc message) st = st.
Proof.
  intros Hplain Hempty Hid. apply plain_wellFormed in Hplain as Hwf.
  assert (Hdrop : dispatch (decoded message) st = (st, false)).
  { unfold dispatch. rewrite getField_decoded by done.
    destruct Hid as [->|[(v & -> & Hv)|[->|(id & -> & Hnone)]]]; cbn.
    - done.
    - destruct v as [s| | |]; try done. by destruct (Hv s).
    - done.
    - rewrite Hnone. by destruct (negb _). }
  rewrite (handleData_stream localeCompare [message] [] (enc message) st).
  - cbn [map dispatchAll fold_left]. rewrite Hdrop. cbn [fst].
    rewrite <- Hempty. apply withBuffer_same.
  - by apply Forall_singleton.
  - rewrite Hempty. cbn. by rewrite !app_nil_r.
  - done.
  - cbn [map accepts]. by rewrite Hdrop.
Qed.

(** A callback of a consistent table points to a request that exists. *)
Lemma callbacksConsistent_lt st id rid :
  callbacksConsistent st -> messageCallbacks st !! id = Some rid ->
  (rid < length (requests st))%nat.
Proof.
  intros Hst Hid. specialize (Hst id rid Hid).
  destruct (requests st !! rid) as [r|] eqn:Hr; [|done].
  by eapply lookup_lt_Some.
Qed.

(** X18. [send] does not check that an id is free. When a second request
    is sent under the id of a pending one, the callback of the first is
    replaced: the first request receives nothing any more. When the timer
    of the first request fires, it removes the callback registered under
    the id, which is the second request's: the second request, still
    pending, receives nothing any more either. *)
Theorem send_same_id_twice (t1 t2 : Z) (id : jsstring)
    (m1 m2 : list (jsstring * BencodeValue)) (st : NReplClient) :
  callbacksConsistent st ->
  let st1 := (send localeCompare t1 id m1 st).1 in
  let rid1 := (send localeCompare t1 id m1 st).2 in
  let st2 := (send localeCompare t2 id m2 st1).1 in
  let rid2 := (send localeCompare t2 id m2 st1).2 in
  messageCallbacks st2 !! id = Some rid2
  /\ rid2 <> rid1
  /\ (forall data, requests (handleData data st2) !! rid1 = requests st2 !! rid1)
  /\ (forall now,
        t1 + 30000 <= now ->
        let st3 := onTimeout now rid1 st2 in
        messageCallbacks st3 !! id = None
        /\ req_promise <$> requests st3 !! rid2 = Some Pending
        /\ (forall data,
              requests (handleData data st3) !! rid2 = requests st3 !! rid2)).
Proof.
  intros Hst st1 rid1 st2 rid2.
  assert (Hrid1 : rid1 = length (requests st)) by done.
  assert (Hrid2 : rid2 = S (length (requests st))).
  { subst rid2 st1. cbn [send fst snd requests]. rewrite length_app. simpl. lia. }
  assert (Hcb2 : messageCallbacks st2
                 = <[id := rid2]> (<[id := rid1]> (messageCallbacks st))) by done.
  assert (Hold : forall id' rid,
             messageCallbacks st !! id' = Some rid -> rid <> rid1 /\ rid <> rid2).
  { intros id' rid Hid'. apply (callbacksConsistent_lt st id' rid Hst) in Hid'. lia. }
  split_and!.
  - rewrite Hcb2. apply lookup_insert_eq.
  - lia.
  - intros data. apply handleData_requests. intros id'. rewrite Hcb2.
    rewrite lookup_insert. case_decide; [intros [= ?]; lia|].
    rewrite lookup_insert_ne by done. intros Hid'. by destruct (Hold id' rid1 Hid').
  - intros now Hnow st3.
    set (r1 := {| req_message := m1; req_id := id; req_responses := [];
                  req_timeout := Some (t1 + requestTimeout);
                  req_promise := Pending |}).
    set (r2 := {| req_message := m2; req_id := id; req_responses := [];
                  req_timeout := Some (t2 + requestTimeout);
                  req_promise := Pending |}).
    assert (Hreq2 : requests st2 = requests st ++ [r1; r2]).
    { subst st2 st1. cbn [send fst requests]. by rewrite <- app_assoc. }
    assert (Hr1 : requests st2 !! rid1 = Some r1).
    { rewrite Hreq2, Hrid1. by apply list_lookup_middle. }
    assert (Hst3 : st3 = withLastError (Some (RequestTimedOut m1))
                     (withRequests (<[rid1 := {| req_message := m1; req_id := id;
                                                 req_responses := [];
                                                 req_timeout := None;
                                                 req_promise :=
                                                   Rejected (RequestTimedOut m1) |}]>
                                      (requests st2))
                        (withCallbacks (delete id (messageCallbacks st2)) st2))).
    { unfold st3. by rewrite (onTimeout_fires now rid1 r1 (t1 + requestTimeout) st2). }
    rewrite Hst3.
    cbn [messageCallbacks requests withLastError withRequests withCallbacks].
    split_and!.
    + apply lookup_delete_eq.
    + rewrite list_lookup_insert_ne by lia.
      rewrite Hreq2, Hrid2.
      replace (S (length (requests st))) with (length (requests st) + 1)%nat by lia.
      by rewrite lookup_app_r, Nat.add_sub' by lia.
    + intros data. apply handleData_requests. intros id'.
      cbn [messageCallbacks requests withLastError withRequests withCallbacks].
      rewrite Hcb2, lookup_delete. case_decide; [done|].
      rewrite !lookup_insert_ne by done. intros Hid'. by destruct (Hold id' rid2 Hid').
Qed.
End Addressee.

(** ** [eval], from the request to the result *)

Section Evaluation.
Variable localeCompare : jsstring -> jsstring -> Z.

Abbreviation enc := (encode localeCompare).
Abbreviation decoded := (received localeCompare).

Lemma truthy_decoded value : truthy (decoded value) = truthy value.
Proof. by destruct value. Qed.

Lemma toText_decoded value : toText (decoded value) = toText value.
Proof.
  induction value as [s|n|items IH|entries IH] using BencodeValue_nested_ind;
    try done.
  cbn [received toText]. f_equal.
  induction IH as [|item items Hitem _ IHitems]; [done|].
  cbn [map]. by rewrite Hitem, IHitems.
Qed.

Lemma truthyField_decoded field :
  truthyField (decoded <$> field) = truthyField field.
Proof. destruct field as [v|]; [apply truthy_decoded|done]. Qed.

Lemma fieldText_decoded field : fieldText (decoded <$> field) = fieldText field.
Proof. destruct field as [v|]; [apply toText_decoded|done]. Qed.

Lemma jsOr_decoded a b :
  jsOr (decoded <$> a) (decoded <$> b) = decoded <$> jsOr a b.
Proof. unfold jsOr. rewrite truthyField_decoded. by destruct (truthyField a). Qed.

Lemma errorOf_decoded r :
  wellFormed r -> errorOf (decoded r) = decoded <$> errorOf r.
Proof.
  intros Hwf. unfold errorOf. by rewrite !getField_decoded, !jsOr_decoded.
Qed.

Lemma outputOf_decoded r :
  wellFormed r -> outputOf (decoded r) = decoded <$> outputOf r.
Proof.
  intros Hwf. unfold outputOf. by rewrite !getField_decoded, !jsOr_decoded.
Qed.

(** The texts that [eval] joins are those of the values as they were
    encoded. *)
Lemma truthy_texts_decoded (f : BencodeValue -> option BencodeValue)
    (responses : list BencodeValue) :
  Forall (fun r => f (decoded r) = decoded <$> f r) responses ->
  map fieldText
    (filter (fun e => truthyField e = true) (map f (map decoded responses)))
  = map fieldText (filter (fun e => truthyField e = true) (map f responses)).
Proof.
  induction 1 as [|r responses Hr _ IH]; [done|].
  cbn [map]. rewrite !filter_cons, Hr, truthyField_decoded.
  case_decide; [|done]. cbn [map]. by rewrite fieldText_decoded, IH.
Qed.

Lemma eval_finish_decoded (responses : list BencodeValue) (st : NReplClient) :
  Forall wellFormed responses ->
  eval_finish (map decoded responses) st = eval_finish responses st.
Proof.
  intros Hwf.
  assert (Herr : map fieldText
                   (filter (fun e => truthyField e = true)
                      (map errorOf (map decoded responses)))
                 = map fieldText
                     (filter (fun e => truthyField e = true) (map errorOf responses))).
  { apply truthy_texts_decoded. eapply Forall_impl; [exact Hwf|].
    intros r Hr. by apply errorOf_decoded. }
  assert (Hout : map fieldText
                   (filter (fun e => truthyField e = true)
                      (map outputOf (map decoded responses)))
                 = map fieldText
                     (filter (fun e => truthyField e = true) (map outputOf responses))).
  { apply truthy_texts_decoded. eapply Forall_impl; [exact Hwf|].
    intros r Hr. by apply outputOf_decoded. }
  unfold eval_finish. rewrite Herr, Hout.
  apply (f_equal (@length _)) in Herr. rewrite !length_map in Herr.
  by rewrite Herr.
Qed.

(** The fields that [eval] reads are texts where they are present, as
    nREPL sends them. *)
Definition textFields (response : BencodeValue) : Prop :=
  forall name,
    name ∈ [str "ex"; str "root-ex"; str "err"; str "value"; str "out"] ->
    forall v, getField response name = Some v -> exists s, v = BString s.

(** X20. [eval], end to end, on a connected client with a session: the
    request it sends is [{op: "eval", code, session}]; once the responses
    to it have arrived, the last one terminal, the promise of [send] is
    resolved, and what [eval] makes of the decoded responses -- the
    failure with the joined error texts, or the joined outputs -- is what
    it makes of the responses as the server encoded them: the order of the
    keys on the wire and the chunking do not show. The responses have no
    key [__proto__] at any depth and integers of magnitude at most [2^53],
    and their fields [ex], [root-ex], [err], [value] and [out] are
    texts. *)
Theorem eval_end_to_end (now : Z) (id code : jsstring) (session : BencodeValue)
    (st : NReplClient) (responses : list BencodeValue) (last : BencodeValue) :
  connected st = true ->
  sessionId st = Some session -> truthy session = true ->
  buffer st = [] -> id <> [] ->
  Forall (fun r => plain r /\ textFields r
                   /\ getField r (str "id") = Some (BString id)
                   /\ statusIncludesDone r = Some false) responses ->
  plain last -> textFields last ->
  getField last (str "id") = Some (BString id) ->
  statusIncludesDone last = Some true ->
  let message :=
    [(str "op", BString (str "eval")); (str "code", BString code);
     (str "session", session)] in
  let st1 := (send localeCompare now id message st).1 in
  let rid := (send localeCompare now id message st).2 in
  let st2 := handleData (concat (map enc (responses ++ [last]))) st1 in
  eval_message code st = inr message
  /\ req_promise <$> requests st2 !! rid
     = Some (Resolved (map (canonical localeCompare) (responses ++ [last])))
  /\ eval_finish (map (canonical localeCompare) (responses ++ [last])) st2
     = eval_finish (responses ++ [last]) st2.
Proof.
  intros Hconnected Hsession Htruthy Hempty Hne Hall Hplain _ Hid Hdone
    message st1 rid st2.
  assert (Hplains : Forall plain (responses ++ [last])).
  { apply Forall_app. split; [|by apply Forall_singleton].
    eapply Forall_impl; [exact Hall|]. by intros r (? & _). }
  destruct (plain_messages localeCompare _ Hplains) as [Hwfs Hsame].
  rewrite <- Hsame. split_and!.
  - unfold eval_message. rewrite Hsession. cbn [truthyField default]. by rewrite Htruthy.
  - assert (Hst2 : st2 = delivered localeCompare id message
                           (map decoded (responses ++ [last])) st).
    { apply send_delivered; [done|done| |by apply plain_wellFormed|done|done].
      eapply Forall_impl; [exact Hall|].
      intros r (Hr & _ & ? & ?). split; [by apply plain_wellFormed|done]. }
    rewrite Hst2. unfold delivered. subst rid. cbn [requests send snd].
    by rewrite list_lookup_middle.
  - by apply eval_finish_decoded.
Qed.
End Evaluation.

(** ** A character that starts no value *)

Lemma BencodeDecoder_run_stray (c : Z) (rest : jsstring) :
  c <> ch_i -> c <> ch_l -> c <> ch_d -> isDigit c = false ->
  BencodeDecoder_run (c :: rest) = Throw (InvalidBencodeData 0).
Proof.
  intros Hi Hl Hd Hdigit. unfold BencodeDecoder_run, decodeFuel.
  replace (2 * length (c :: rest) + 1)%nat with (S (2 * length (c :: rest))) by lia.
  rewrite decode_unfold. unfold charIs, charIsDigit. cbn [lookup list_lookup].
  rewrite Hdigit.
  destruct (Z.eqb_spec c ch_i); [done|].
  destruct (Z.eqb_spec c ch_l); [done|].
  by destruct (Z.eqb_spec c ch_d).
Qed.

Lemma handleData_stray (c : Z) (b data : jsstring) (st : NReplClient) :
  buffer st = c :: b ->
  c <> ch_i -> c <> ch_l -> c <> ch_d -> isDigit c = false ->
  handleData data st = withBuffer (buffer st ++ data) st.
Proof.
  intros Hbuf Hi Hl Hd Hdigit. unfold handleData. rewrite Hbuf.
  cbn [handleData_loop buffer withBuffer app length].
  destruct (Nat.ltb_spec 0 (S (length (b ++ data)))); [|lia].
  rewrite drop_0, BencodeDecoder_run_stray by done. done.
Qed.

(** X19. A character that starts no value blocks the client for good:
    when the buffer begins with a character other than [i], [l], [d] and
    the digits (a line break between two messages, say), every data event
    from then on only appends to the buffer. Nothing is decoded, no
    response is delivered, and the buffer grows with all that arrives. *)
Theorem handleData_stray_character (c : Z) (b : jsstring) (chunks : list jsstring)
    (st : NReplClient) :
  buffer st = c :: b ->
  c <> ch_i -> c <> ch_l -> c <> ch_d -> isDigit c = false ->
  fold_left (fun s data => handleData data s) chunks st
  = withBuffer (buffer st ++ concat chunks) st.
Proof.
  intros Hbuf Hi Hl Hd Hdigit. revert b st Hbuf.
  induction chunks as [|data chunks IH]; intros b st Hbuf.
  - cbn [fold_left concat]. rewrite app_nil_r. symmetry. apply withBuffer_same.
  - cbn [fold_left concat]. rewrite (handleData_stray c b data st) by done.
    rewrite (IH (b ++ data)) by (cbn [buffer withBuffer]; by rewrite Hbuf).
    cbn [buffer withBuffer]. unfold withBuffer. cbn. by rewrite <- app_assoc.
Qed.

(** * Instances of the further properties *)

(** A dictionary written out with unique keys is in the data model. *)
Ltac wellFormed_dictionary :=
  constructor;
  [apply (bool_decide_unpack _); by vm_compute|repeat constructor; try lia].

(** A response with output, the terminal response of a [clone], and a
    response whose status is a number, all for the request of id [x]. *)
Definition outResponse : BencodeValue :=
  BObject [(str "out", BString (str "hi")); (str "id", BString (str "x"))].

Definition doneResponse : BencodeValue :=
  BObject [(str "id", BString (str "x"));
           (str "new-session", BString (str "s1"));
           (str "status", BList [BString (str "done")])].

Definition badResponse : BencodeValue :=
  BObject [(str "id", BString (str "x")); (str "status", BNumber (Num 1))].

Lemma outResponse_wellFormed : wellFormed outResponse.
Proof. wellFormed_dictionary. Defined.

Lemma doneResponse_wellFormed : wellFormed doneResponse.
Proof. wellFormed_dictionary. Defined.

Lemma badResponse_wellFormed : wellFormed badResponse.
Proof. wellFormed_dictionary. Defined.

Ltac plain_dictionary :=
  constructor;
  [apply (bool_decide_unpack _); by vm_compute
  |repeat constructor; by vm_compute
  |repeat constructor; try lia].

Lemma outResponse_plain : plain outResponse.
Proof. plain_dictionary. Defined.

Lemma doneResponse_plain : plain doneResponse.
Proof. plain_dictionary. Defined.

Lemma badResponse_plain : plain badResponse.
Proof. plain_dictionary. Defined.

Ltac textFields_dictionary :=
  let name := fresh "name" in
  let Hname := fresh "Hname" in
  let v := fresh "v" in
  let Hv := fresh "Hv" in
  intros name Hname v; set_unfold in Hname;
  destruct Hname as [->|[->|[->|[->|[->|[]]]]]];
  vm_compute; intros Hv; inversion Hv; eauto.

Lemma outResponse_textFields : textFields outResponse.
Proof. textFields_dictionary. Defined.

Lemma doneResponse_textFields : textFields doneResponse.
Proof. textFields_dictionary. Defined.

Lemma encode_decoded_value_sample :
  exists decoded,
    BencodeDecoder_decode (encode codeUnitCompare sampleRequest) = Return decoded
    /\ encode codeUnitCompare decoded = encode codeUnitCompare sampleRequest
    /\ BencodeDecoder_decode (encode codeUnitCompare decoded) = Return decoded.
Proof.
  exact (encode_decoded_value codeUnitCompare codeUnitCompare_total sampleRequest
           sampleRequest_plain).
Defined.

Lemma encode_prefix_free_sample :
  encode codeUnitCompare outResponse
  = encode codeUnitCompare
      (BObject [(str "id", BString (str "x")); (str "out", BString (str "hi"))])
  /\ str "d2:id" = str "d2:id"
  /\ canonical codeUnitCompare outResponse
     = canonical codeUnitCompare
         (BObject [(str "id", BString (str "x")); (str "out", BString (str "hi"))]).
Proof.
  apply (encode_prefix_free codeUnitCompare outResponse
           (BObject [(str "id", BString (str "x")); (str "out", BString (str "hi"))])
           (str "d2:id") (str "d2:id")).
  - exact outResponse_wellFormed.
  - wellFormed_dictionary.
  - by vm_compute.
Defined.

Lemma getProcessedLength_bounds_sample :
  (0 < 7 <= length (str "5:hello, and more"))%nat.
Proof.
  apply (getProcessedLength_bounds (str "5:hello, and more") (BString (str "hello")) 7).
  by vm_compute.
Defined.

Lemma getUTF8ByteLength_bounds_sample :
  Z.of_nat (length [104; 233; 8364]) <= getUTF8ByteLength [104; 233; 8364]
  <= 3 * Z.of_nat (length [104; 233; 8364])
  /\ getUTF8ByteLength ([104; 233; 8364] ++ str "!")
     = getUTF8ByteLength [104; 233; 8364] + getUTF8ByteLength (str "!").
Proof.
  destruct (getUTF8ByteLength_bounds [104; 233; 8364]) as (Hbounds & _ & Hadd).
  - repeat constructor; lia.
  - exact (conj Hbounds (Hadd (str "!"))).
Defined.

Lemma decodeString_prefix_not_validated_sample :
  BencodeDecoder_run (str "05x:hello!") = Return (BString (str "hello"), 9%nat).
Proof.
  apply (decodeString_prefix_not_validated 48 [53] (str "x") (str "hello") (str "!")).
  - by repeat constructor.
  - reflexivity.
  - by repeat constructor.
  - reflexivity.
Defined.

Lemma decodeDictionary_any_order_sample :
  exists result,
    BencodeDecoder_run (str "d1:bi1e9:__proto__i7e1:ai2e1:bi3ee")
    = Return (BObject result, 34%nat)
    /\ objectGet result (str "__proto__") = None
    /\ objectGet result (str "b") = Some (BNumber (Num 3))
    /\ objectGet result (str "a") = Some (BNumber (Num 2)).
Proof.
  destruct (decodeDictionary_any_order codeUnitCompare
              [(str "b", BNumber (Num 1)); (str "__proto__", BNumber (Num 7));
               (str "a", BNumber (Num 2)); (str "b", BNumber (Num 3))] [])
    as (result & Hrun & Hproto & Hget).
  - repeat constructor; lia.
  - exists result. split_and!; [exact Hrun|exact Hproto| |].
    + by rewrite (Hget (str "b")).
    + by rewrite (Hget (str "a")).
Defined.

Lemma decodeDictionary_key_must_be_string_sample :
  BencodeDecoder_run (str "d1:ai1ei5e3:fooe") = Throw DictionaryKeyMustBeString.
Proof.
  apply (decodeDictionary_key_must_be_string codeUnitCompare
           [(str "a", BNumber (Num 1))] (BNumber (Num 5)) (str "3:fooe")).
  - repeat constructor; lia.
  - constructor. lia.
  - done.
Defined.

Lemma decode_not_closed_sample :
  BencodeDecoder_run (str "li1e1:a") = Throw UnterminatedList
  /\ BencodeDecoder_run (str "d1:ai1e") = Throw UnterminatedDictionary
  /\ BencodeDecoder_run (str "d1:ai1e3:key") = Throw (InvalidBencodeData 12).
Proof.
  apply (decode_not_closed codeUnitCompare [BNumber (Num 1); BString (str "a")]
           [(str "a", BNumber (Num 1))] (str "key")).
  - repeat constructor; lia.
  - repeat constructor; lia.
Defined.

Lemma handleData_messages_sample :
  handleData (encode codeUnitCompare outResponse ++ str "d2:id") clientAwaitingClone
  = withBuffer (str "d2:id")
      (dispatchAll [canonical codeUnitCompare outResponse] clientAwaitingClone).
Proof.
  destruct (handleData_messages codeUnitCompare [outResponse] (str "d2:id")
              (encode codeUnitCompare outResponse ++ str "d2:id") clientAwaitingClone)
    as [Hstate _].
  - constructor; [exact outResponse_plain|constructor].
  - by vm_compute.
  - intros x. by vm_compute.
  - by vm_compute.
  - exact Hstate.
Defined.


Lemma send_then_responses_sample :
  req_promise <$>
    requests (handleData
                (encode codeUnitCompare outResponse
                 ++ encode codeUnitCompare doneResponse)
                clientAwaitingClone) !! 0%nat
  = Some (Resolved [canonical codeUnitCompare outResponse;
                    canonical codeUnitCompare doneResponse]).
Proof.
  destruct (send_then_responses codeUnitCompare 0 (str "x") cloneMessage newClient
              [outResponse] doneResponse) as (Hstate & _).
  - reflexivity.
  - done.
  - constructor; [|constructor].
    split; [exact outResponse_plain|by vm_compute].
  - exact doneResponse_plain.
  - reflexivity.
  - by vm_compute.
  - cbn [app map concat] in Hstate. rewrite app_nil_r in Hstate.
    unfold clientAwaitingClone. rewrite Hstate. reflexivity.
Defined.

Lemma clone_then_eval_sample :
  let st1 := (send codeUnitCompare 0 (str "x") cloneMessage
                (onSocketConnect newClient)).1 in
  let st2 := handleData (encode codeUnitCompare doneResponse) st1 in
  exists all,
    req_promise <$> requests st2 !! 0%nat = Some (Resolved all)
    /\ clone_finish all st2
       = (withSessionId (Some (BString (str "s1"))) st2, Resolved (BString (str "s1")))
    /\ connected (clone_finish all st2).1 = true
    /\ eval_message (str "(+ 1 2)") (clone_finish all st2).1
       = inr [(str "op", BString (str "eval"));
              (str "code", BString (str "(+ 1 2)"));
              (str "session", BString (str "s1"))].
Proof.
  apply (clone_then_eval codeUnitCompare 0 (str "x") (str "s1") (str "(+ 1 2)")
           doneResponse (onSocketConnect newClient)).
  - reflexivity.
  - reflexivity.
  - done.
  - done.
  - exact doneResponse_wellFormed.
  - reflexivity.
  - reflexivity.
  - by vm_compute.
Defined.

Lemma send_written_decodes_sample :
  exists text entries,
    written clientAwaitingClone = [text]
    /\ BencodeDecoder_run text = Return (BObject entries, length text)
    /\ objectGet entries (str "id") = Some (BString (str "x"))
    /\ objectGet entries (str "op") = Some (BString (str "clone")).
Proof.
  destruct (send_written_decodes codeUnitCompare 0 (str "x") cloneMessage newClient)
    as (text & entries & Hwritten & Hrun & Hid & Hother & _).
  - plain_dictionary.
  - exists text, entries. split_and!; [exact Hwritten|exact Hrun|exact Hid|].
    rewrite (Hother (str "op")); [reflexivity|done].
Defined.

Lemma reachable_requests_sample :
  written clientAwaitingClone
  = map (fun r => encode codeUnitCompare
                    (BObject (objectSet (req_message r) (str "id")
                                (BString (req_id r)))))
      (requests clientAwaitingClone).
Proof.
  destruct (reachable_requests codeUnitCompare clientAwaitingClone) as (_ & _ & Hwritten).
  - apply rtc_once. apply step_send.
  - exact Hwritten.
Defined.

Lemma handleData_status_not_a_list_sample :
  let r := {| req_message := cloneMessage; req_id := str "x"; req_responses := [];
              req_timeout := Some 30000; req_promise := Pending |} in
  handleData (encode codeUnitCompare badResponse) clientAwaitingClone
  = withRequests
      (<[0%nat := pushed [canonical codeUnitCompare badResponse] r]>
         (requests clientAwaitingClone))
      (withBuffer (encode codeUnitCompare badResponse ++ []) clientAwaitingClone)
  /\ handleData (encode codeUnitCompare doneResponse)
       (handleData (encode codeUnitCompare badResponse) clientAwaitingClone)
     = withRequests
         (<[0%nat := pushed [canonical codeUnitCompare badResponse;
                             canonical codeUnitCompare badResponse] r]>
            (requests clientAwaitingClone))
         (withBuffer
            (encode codeUnitCompare badResponse
             ++ [] ++ encode codeUnitCompare doneResponse)
            clientAwaitingClone).
Proof.
  apply (handleData_status_not_a_list codeUnitCompare badResponse (str "x") 0
           {| req_message := cloneMessage; req_id := str "x"; req_responses := [];
              req_timeout := Some 30000; req_promise := Pending |}
           [] (encode codeUnitCompare badResponse)
           (encode codeUnitCompare doneResponse) clientAwaitingClone).
  - exact badResponse_plain.
  - reflexivity.
  - done.
  - reflexivity.
  - reflexivity.
  - reflexivity.
  - by vm_compute.
Defined.

Lemma handleData_unaddressed_sample :
  handleData (encode codeUnitCompare sampleResponse) clientAwaitingClone
  = clientAwaitingClone.
Proof.
  apply (handleData_unaddressed codeUnitCompare sampleResponse clientAwaitingClone).
  - exact sampleResponse_plain.
  - reflexivity.
  - right. right. right. exists (str "a1"). split; [reflexivity|by vm_compute].
Defined.

Lemma send_same_id_twice_sample :
  let st2 := (send codeUnitCompare 10 (str "x") cloneMessage clientAwaitingClone).1 in
  messageCallbacks st2 !! str "x" = Some 1%nat
  /\ messageCallbacks (onTimeout 30000 0 st2) !! str "x" = None
  /\ req_promise <$> requests (onTimeout 30000 0 st2) !! 1%nat = Some Pending
  /\ requests (handleData (encode codeUnitCompare doneResponse)
                 (onTimeout 30000 0 st2)) !! 1%nat
     = requests (onTimeout 30000 0 st2) !! 1%nat.
Proof.
  destruct (send_same_id_twice codeUnitCompare 0 10 (str "x") cloneMessage cloneMessage
              newClient newClient_consistent)
    as (Hsecond & _ & _ & Hlater).
  destruct (Hlater 30000) as (Hremoved & Hpending & Hdeaf); [lia|].
  exact (conj Hsecond (conj Hremoved
           (conj Hpending (Hdeaf (encode codeUnitCompare doneResponse))))).
Defined.

Lemma handleData_stray_character_sample :
  fold_left (fun s data => handleData data s)
    [encode codeUnitCompare outResponse; encode codeUnitCompare doneResponse]
    (withBuffer [10] clientAwaitingClone)
  = withBuffer
      ([10] ++ concat [encode codeUnitCompare outResponse;
                       encode codeUnitCompare doneResponse])
      (withBuffer [10] clientAwaitingClone).
Proof.
  apply (handleData_stray_character 10 []
           [encode codeUnitCompare outResponse; encode codeUnitCompare doneResponse]
           (withBuffer [10] clientAwaitingClone)); done.
Defined.

Lemma eval_end_to_end_sample :
  let st := withSessionId (Some (BString (str "s1"))) (onSocketConnect newClient) in
  let message :=
    [(str "op", BString (str "eval")); (str "code", BString (str "(+ 1 2)"));
     (str "session", BString (str "s1"))] in
  let st2 :=
    handleData (concat (map (encode codeUnitCompare) ([outResponse] ++ [doneResponse])))
      (send codeUnitCompare 0 (str "x") message st).1 in
  eval_message (str "(+ 1 2)") st = inr message
  /\ req_promise <$> requests st2 !! 0%nat
     = Some (Resolved (map (canonical codeUnitCompare) ([outResponse] ++ [doneResponse])))
  /\ eval_finish (map (canonical codeUnitCompare) ([outResponse] ++ [doneResponse])) st2
     = eval_finish ([outResponse] ++ [doneResponse]) st2.
Proof.
  apply (eval_end_to_end codeUnitCompare 0 (str "x") (str "(+ 1 2)")
           (BString (str "s1"))
           (withSessionId (Some (BString (str "s1"))) (onSocketConnect newClient))
           [outResponse] doneResponse).
  - reflexivity.
  - reflexivity.
  - reflexivity.
  - reflexivity.
  - done.
  - constructor; [|constructor].
    split_and!; [exact outResponse_plain|exact outResponse_textFields|by vm_compute..].
  - exact doneResponse_plain.
  - exact doneResponse_textFields.
  - reflexivity.
  - by vm_compute.
Defined.
